(** * UltimateMediaPlayer: the real-time audio analysis engine

    A shallow embedding of [AudioAnalyzer] (UMP.py, lines 48-105) and the
    properties of its sample buffer, spectral transform and smoothing history.

    Conventions of the embedding:
    - Python integers are [Z]; numpy arrays are lists; a 2-D array is a list
      of rows.
    - numpy floating-point values are idealised as real numbers ([R]): the
      arithmetic is exact, and there is no NaN or infinity in the model.
    - a method of the class is a computation in the monad [M]: it threads the
      object's attributes, may raise a Python exception, may wait on the
      mutex, and logs the calls that reach outside the object (lock, unlock,
      signal emission, sleep). *)

From Stdlib Require Import ZArith List Bool Lia Reals Lra.
From Stdlib Require String Ascii DecimalString DecimalZ DecimalPos PrimFloat.
Import ListNotations.

Local Open Scope Z_scope.

(** ** Python values and exceptions *)

Inductive exn : Type :=
| ValueError
| IndexError
| ZeroDivisionError.

(** What a call hands back to its caller: a method without a [return]
    statement hands back [None]. *)
Inductive pyvalue : Type :=
| PyNone
| PyBool (b : bool).

(** ** The numpy operations the analyzer uses *)

Module Np.

Inductive res (A : Type) : Type :=
| Ok (x : A)
| Err (e : exn).
Arguments Ok {A} x.
Arguments Err {A} e.

Section Slices.
Context {A : Type}.

(** Clipping of one bound of a slice [a[lo:hi]] on an axis of length [n]. *)
Definition norm_index (i n : Z) : Z :=
  if i <? 0 then Z.max 0 (i + n) else Z.min i n.

(** [a[lo:hi]] *)
Definition slice (l : list A) (lo hi : Z) : list A :=
  let n := Z.of_nat (length l) in
  let lo' := norm_index lo n in
  let hi' := norm_index hi n in
  firstn (Z.to_nat (hi' - lo')) (skipn (Z.to_nat lo') l).

(** [a[:hi]] *)
Definition slice_to (l : list A) (hi : Z) : list A := slice l 0 hi.

(** [a[lo:hi] = v]: the value must have the length of the slice, or
    length one (broadcast); anything else is a [ValueError]. *)
Definition set_slice (l : list A) (lo hi : Z) (v : list A) : res (list A) :=
  let n := Z.of_nat (length l) in
  let lo' := norm_index lo n in
  let hi' := norm_index hi n in
  let m := Z.max 0 (hi' - lo') in
  if Z.of_nat (length v) =? m then
    Ok (firstn (Z.to_nat lo') l ++ v ++ skipn (Z.to_nat (lo' + m)) l)
  else
    match v with
    | [x] => Ok (firstn (Z.to_nat lo') l ++ repeat x (Z.to_nat m)
                   ++ skipn (Z.to_nat (lo' + m)) l)
    | _ => Err ValueError
    end.

(** [np.roll(a, shift)] on a 1-D array: element [i] moves to
    [(i + shift) mod n]. *)
Definition roll (l : list A) (shift : Z) : list A :=
  let n := Z.of_nat (length l) in
  if n =? 0 then l
  else let k := Z.to_nat ((- shift) mod n) in skipn k l ++ firstn k l.

(** [h[i] = v] on a 2-D array [h]: [i] must be in [-rows, rows), and [v]
    must have the row length or length one. *)
Definition set_row (h : list (list A)) (i : Z) (v : list A)
  : res (list (list A)) :=
  let rows := Z.of_nat (length h) in
  if (i <? - rows) || (rows <=? i) then Err IndexError
  else
    let i' := Z.to_nat (if i <? 0 then i + rows else i) in
    let cols := length (nth i' h []) in
    if Nat.eqb (length v) cols then
      Ok (firstn i' h ++ v :: skipn (S i') h)
    else
      match v with
      | [x] => Ok (firstn i' h ++ repeat x cols :: skipn (S i') h)
      | _ => Err ValueError
      end.
End Slices.

Local Open Scope R_scope.

(** [np.zeros(n)] and [np.zeros((rows, cols))] *)
Definition zeros (n : Z) : list R := repeat 0 (Z.to_nat n).
Definition zeros2 (rows cols : Z) : list (list R) :=
  repeat (zeros cols) (Z.to_nat rows).

(** [np.hanning(M)]: [w(n) = 0.5 - 0.5 cos(2 pi n / (M - 1))]. *)
Definition hann (M : Z) (n : nat) : R :=
  0.5 - 0.5 * cos (2 * PI * INR n / IZR (M - 1)).

Definition hanning (M : Z) : list R :=
  if (M <? 1)%Z then []
  else if (M =? 1)%Z then [1]
  else map (hann M) (seq 0 (Z.to_nat M)).

(** [x * y] on 1-D arrays, with numpy's broadcasting rule. *)
Fixpoint zip_mul (x y : list R) : list R :=
  match x, y with
  | a :: x', b :: y' => a * b :: zip_mul x' y'
  | _, _ => []
  end.

Definition mul (x y : list R) : res (list R) :=
  if Nat.eqb (length x) (length y) then Ok (zip_mul x y)
  else
    match x, y with
    | [a], _ => Ok (map (fun b => a * b) y)
    | _, [b] => Ok (map (fun a => a * b) x)
    | _, _ => Err ValueError
    end.

(** Complex numbers, as far as [np.fft.rfft] and [np.abs] need them. *)
Record complex : Type := mkC { Re : R; Im : R }.

Definition Cabs (z : complex) : R := sqrt (Re z * Re z + Im z * Im z).

(** [sum_n x[n] * f(start + n)] *)
Fixpoint dft_sum (f : nat -> R) (x : list R) (start : nat) : R :=
  match x with
  | [] => 0
  | v :: t => v * f start + dft_sum f t (S start)
  end.

(** Bin [k] of the discrete Fourier transform:
    [X_k = sum_n x_n exp(-2 pi i k n / N)]. *)
Definition dft_bin (x : list R) (k : nat) : complex :=
  let N := INR (length x) in
  mkC (dft_sum (fun n => cos (2 * PI * INR k * INR n / N)) x 0)
      (dft_sum (fun n => - sin (2 * PI * INR k * INR n / N)) x 0).

(** [np.fft.rfft(x)]: the bins [0 .. N/2] of a real input of length [N];
    an empty input is refused. *)
Definition dft_bins (x : list R) : list complex :=
  map (dft_bin x) (seq 0 (Nat.div (length x) 2 + 1)).

Definition rfft (x : list R) : res (list complex) :=
  match x with
  | [] => Err ValueError
  | _ => Ok (dft_bins x)
  end.

Definition abs (x : list complex) : list R := map Cabs x.
Definition div_scalar (x : list R) (c : R) : list R := map (fun v => v / c) x.
Definition add_scalar (x : list R) (c : R) : list R := map (fun v => v + c) x.
Definition scale (c : R) (x : list R) : list R := map (fun v => c * v) x.
Definition square (x : list R) : list R := map (fun v => v * v) x.

Definition log10r (v : R) : R := ln v / ln 10.
Definition log10 (x : list R) : list R := map log10r x.

Definition sum (x : list R) : R := fold_right Rplus 0 x.

(** [np.mean(x)] on a 1-D array. *)
Definition mean (x : list R) : R := sum x / INR (length x).

(** [np.mean(h, axis=0)] on a 2-D array: the mean of every column. *)
Definition column (h : list (list R)) (j : nat) : list R :=
  map (fun row => nth j row 0) h.

Definition mean_axis0 (h : list (list R)) : list R :=
  map (fun j => mean (column h j)) (seq 0 (length (hd [] h))).

(** [np.max(x)]: refused on an empty array. *)
Definition max (x : list R) : res R :=
  match x with
  | [] => Err ValueError
  | v :: t => Ok (fold_left Rmax t v)
  end.

End Np.

(** ** The analyzer object *)

(** The dictionary emitted on [analysis_updated] (lines 82-87). *)
Record AnalysisResult : Type := mkResult {
  spectrum : list R;
  spectrogram : list R;
  rms : R;
  peak : R
}.

(** The attributes set by [__init__] (lines 53-63); [mutex] is [true] while
    the [QMutex] is held. *)
Record AudioAnalyzer : Type := mkAnalyzer {
  sample_rate : Z;
  fft_size : Z;
  history_size : Z;
  freq_history : list (list R);
  spec_history : list (list R);
  current_pos : Z;
  audio_buffer : list R;
  buffer_pos : Z;
  window : list R;
  mutex : bool;
  running : bool
}.

Definition set_freq_history (h : list (list R)) (a : AudioAnalyzer) :=
  mkAnalyzer (sample_rate a) (fft_size a) (history_size a) h (spec_history a)
    (current_pos a) (audio_buffer a) (buffer_pos a) (window a) (mutex a)
    (running a).

Definition set_spec_history (h : list (list R)) (a : AudioAnalyzer) :=
  mkAnalyzer (sample_rate a) (fft_size a) (history_size a) (freq_history a) h
    (current_pos a) (audio_buffer a) (buffer_pos a) (window a) (mutex a)
    (running a).

Definition set_current_pos (p : Z) (a : AudioAnalyzer) :=
  mkAnalyzer (sample_rate a) (fft_size a) (history_size a) (freq_history a)
    (spec_history a) p (audio_buffer a) (buffer_pos a) (window a) (mutex a)
    (running a).

Definition set_audio_buffer (b : list R) (a : AudioAnalyzer) :=
  mkAnalyzer (sample_rate a) (fft_size a) (history_size a) (freq_history a)
    (spec_history a) (current_pos a) b (buffer_pos a) (window a) (mutex a)
    (running a).

Definition set_buffer_pos (p : Z) (a : AudioAnalyzer) :=
  mkAnalyzer (sample_rate a) (fft_size a) (history_size a) (freq_history a)
    (spec_history a) (current_pos a) (audio_buffer a) p (window a) (mutex a)
    (running a).

Definition set_mutex (m : bool) (a : AudioAnalyzer) :=
  mkAnalyzer (sample_rate a) (fft_size a) (history_size a) (freq_history a)
    (spec_history a) (current_pos a) (audio_buffer a) (buffer_pos a)
    (window a) m (running a).

(** [AudioAnalyzer.__init__] *)
Definition init : AudioAnalyzer :=
  let fft_size := 2048 in
  let history_size := 20 in
  {| sample_rate := 44100;
     fft_size := fft_size;
     history_size := history_size;
     freq_history := Np.zeros2 history_size (fft_size / 2);
     spec_history := Np.zeros2 history_size (fft_size / 2);
     current_pos := 0;
     audio_buffer := Np.zeros (fft_size * 2);
     buffer_pos := 0;
     window := Np.hanning fft_size;
     mutex := false;
     running := true |}.

(** ** The monad of methods *)

(** What reaches outside the object, in program order. *)
Inductive event : Type :=
| EvLock                       (* self.mutex.lock() returned *)
| EvUnlock                     (* self.mutex.unlock() *)
| EvEmit (r : AnalysisResult)  (* self.analysis_updated.emit(result) *)
| EvSleep (ms : Z).            (* self.msleep(ms) *)

(** How a call ends: it returns, it raises, or it waits on the mutex
    without returning. *)
Inductive outcome (A : Type) : Type :=
| Ret (x : A)
| Exc (e : exn)
| Blocked.
Arguments Ret {A} x.
Arguments Exc {A} e.
Arguments Blocked {A}.

(** Attributes assigned before an exception stay assigned, and what was
    logged stays logged. *)
Definition M (A : Type) : Type :=
  AudioAnalyzer -> outcome A * AudioAnalyzer * list event.

Definition ret {A} (x : A) : M A := fun a => (Ret x, a, []).

Definition bind {A B} (c : M A) (k : A -> M B) : M B :=
  fun a =>
    match c a with
    | (Ret x, a1, t1) => let '(o, a2, t2) := k x a1 in (o, a2, t1 ++ t2)
    | (Exc e, a1, t1) => (Exc e, a1, t1)
    | (Blocked, a1, t1) => (Blocked, a1, t1)
    end.

Declare Scope py_scope.
Delimit Scope py_scope with py.
Notation "x <- c ;; k" := (bind c (fun x => k))
  (at level 61, c at next level, right associativity) : py_scope.
Notation "c ;; k" := (bind c (fun _ => k))
  (at level 61, right associativity) : py_scope.

Definition get {A} (f : AudioAnalyzer -> A) : M A := fun a => (Ret (f a), a, []).
Definition modify (f : AudioAnalyzer -> AudioAnalyzer) : M unit :=
  fun a => (Ret tt, f a, []).
Definition log (e : event) : M unit := fun a => (Ret tt, a, [e]).
Definition raise {A} (e : exn) : M A := fun a => (Exc e, a, []).

Definition lift {A} (r : Np.res A) : M A :=
  match r with
  | Np.Ok x => ret x
  | Np.Err e => raise e
  end.

(** [QMutex.lock()]: waits while the mutex is held. *)
Definition mutex_lock : M unit :=
  fun a => if mutex a then (Blocked, a, []) else (Ret tt, set_mutex true a, [EvLock]).

(** [QMutex.unlock()] *)
Definition mutex_unlock : M unit :=
  fun a => (Ret tt, set_mutex false a, [EvUnlock]).

Definition emit (r : AnalysisResult) : M unit := log (EvEmit r).
Definition msleep (ms : Z) : M unit := log (EvSleep ms).

(** Python's [x % y] on integers. *)
Definition py_mod (x y : Z) : M Z :=
  if y =? 0 then raise ZeroDivisionError else ret (x mod y).

(** ** The methods *)

Local Open Scope py_scope.

(** [audio_data.astype(np.float32) / 32768.0] on one 16-bit sample; the
    quotient of a 16-bit integer by a power of two is exact in binary32 and
    in binary64. *)
Definition to_float (s : Z) : R := (IZR s / 32768)%R.

(** The bytes [buffer.data()] hands to [np.frombuffer], as [dtype=np.int16]
    reads them: the 16-bit integers of the successive pairs of bytes, and
    whether one byte is left over. *)
Record QAudioBuffer : Type := mkBuffer {
  samples16 : list Z;
  stray_byte : bool
}.

(** [np.frombuffer(data, dtype=np.int16)]: a byte count that is not a
    multiple of two is a [ValueError]. *)
Definition frombuffer_int16 (buffer : QAudioBuffer) : Np.res (list Z) :=
  if stray_byte buffer then Np.Err ValueError else Np.Ok (samples16 buffer).

(** A buffer that holds the samples [samples] and no byte more. *)
Definition whole (samples : list Z) : QAudioBuffer := mkBuffer samples false.

(** [process_audio] (lines 92-101). *)
Definition process_audio (buffer : QAudioBuffer) : M pyvalue :=
  samples <- lift (frombuffer_int16 buffer) ;;
  let audio_data := map to_float samples in
  mutex_lock ;;
  buf <- get audio_buffer ;;
  pos <- get buffer_pos ;;
  let available_space := Z.of_nat (length buf) - pos in
  let n := Z.of_nat (length audio_data) in
  (if n <=? available_space then
     buf' <- lift (Np.set_slice buf pos (pos + n) audio_data) ;;
     modify (set_audio_buffer buf') ;;
     modify (set_buffer_pos (pos + n))
   else ret tt) ;;
  mutex_unlock ;;
  ret PyNone.

(** Lines 68-71 of [run]: take the oldest [fft_size] samples out of the
    buffer when there are that many. *)
Definition pop_frame : M (option (list R)) :=
  pos <- get buffer_pos ;;
  F <- get fft_size ;;
  if F <=? pos then
    buf <- get audio_buffer ;;
    let chunk := Np.slice_to buf F in
    modify (set_audio_buffer (Np.roll buf (- F))) ;;
    modify (set_buffer_pos (pos - F)) ;;
    ret (Some chunk)
  else ret None.

(** Lines 73-76 of [run]: window, transform, magnitude and power. *)
Definition spectral (chunk window : list R) (F : Z)
  : Np.res (list R * list R) :=
  match Np.mul chunk window with
  | Np.Err e => Np.Err e
  | Np.Ok windowed =>
      match Np.rfft windowed with
      | Np.Err e => Np.Err e
      | Np.Ok fft =>
          let magnitude := Np.div_scalar (Np.abs fft) (IZR F) in
          let power :=
            Np.scale 20 (Np.log10 (Np.add_scalar magnitude 1e-12)) in
          Np.Ok (magnitude, power)
      end
  end.

(** Lines 78-80 of [run]: store the arrays at the rotating index. *)
Definition record (magnitude power : list R) : M unit :=
  F <- get fft_size ;;
  i <- get current_pos ;;
  fh <- get freq_history ;;
  fh' <- lift (Np.set_row fh i (Np.slice_to magnitude (F / 2))) ;;
  modify (set_freq_history fh') ;;
  sh <- get spec_history ;;
  sh' <- lift (Np.set_row sh i (Np.slice_to power (F / 2))) ;;
  modify (set_spec_history sh') ;;
  depth <- get history_size ;;
  i' <- py_mod (i + 1) depth ;;
  modify (set_current_pos i').

(** Lines 82-87 of [run]: the published dictionary. *)
Definition average (magnitude : list R) : M AnalysisResult :=
  fh <- get freq_history ;;
  sh <- get spec_history ;;
  pk <- lift (Np.max magnitude) ;;
  ret {| spectrum := Np.mean_axis0 fh;
         spectrogram := Np.mean_axis0 sh;
         rms := sqrt (Np.mean (Np.square magnitude));
         peak := pk |}.

(** Lines 73-87 of [run], for the frame [chunk]. *)
Definition analyze (chunk : list R) : M AnalysisResult :=
  w <- get window ;;
  F <- get fft_size ;;
  mp <- lift (spectral chunk w F) ;;
  record (fst mp) (snd mp) ;;
  average (fst mp).

(** Lines 68-88 of [run]: what one iteration does between [lock] and
    [unlock]. *)
Definition critical_section : M unit :=
  frame <- pop_frame ;;
  match frame with
  | Some chunk => result <- analyze chunk ;; emit result
  | None => ret tt
  end.

(** The body of the [while] loop of [run] (lines 67-90). *)
Definition run_iteration : M unit :=
  mutex_lock ;;
  critical_section ;;
  mutex_unlock ;;
  msleep 20.

(** [run] (lines 65-90), for at most [fuel] iterations: the loop ends when
    [running] is cleared, and an exception in the body ends it too, since
    the loop has no handler. *)
Fixpoint run (fuel : nat) : M unit :=
  match fuel with
  | O => ret tt
  | S fuel' =>
      r <- get running ;;
      if (r : bool) then run_iteration ;; run fuel' else ret tt
  end.

(** ** Sequences of calls *)

(** The two entry points other threads and the scheduler drive: a call of
    [process_audio] by the producer, on a buffer of whole samples, and one
    iteration of the loop of [run] by the worker. The mutex makes each of
    them atomic with respect to the shared buffer. *)
Inductive op : Type :=
| Push (samples : list Z)
| Cycle.

Definition state_of {A} (r : outcome A * AudioAnalyzer * list event)
  : AudioAnalyzer := snd (fst r).
Definition outcome_of {A} (r : outcome A * AudioAnalyzer * list event)
  : outcome A := fst (fst r).
Definition trace_of {A} (r : outcome A * AudioAnalyzer * list event)
  : list event := snd r.

Definition step (a : AudioAnalyzer) (o : op) : AudioAnalyzer :=
  match o with
  | Push samples => state_of (process_audio (whole samples) a)
  | Cycle => state_of (run_iteration a)
  end.

(** The object after the calls [ops], in order, on a fresh analyzer. *)
Definition exec (ops : list op) : AudioAnalyzer := fold_left step ops init.

(** The buffered samples, oldest first, and their number. *)
Definition occupancy (a : AudioAnalyzer) : Z := buffer_pos a.
Definition capacity (a : AudioAnalyzer) : Z := Z.of_nat (length (audio_buffer a)).
Definition contents (a : AudioAnalyzer) : list R :=
  firstn (Z.to_nat (buffer_pos a)) (audio_buffer a).

(** The results emitted in a trace, oldest first. *)
Fixpoint emitted (t : list event) : list AnalysisResult :=
  match t with
  | [] => []
  | EvEmit r :: t' => r :: emitted t'
  | _ :: t' => emitted t'
  end.

(** ** Facts about the numpy operations *)

Module NpFacts.
Import Np.

Section Slices.
Context {A : Type}.
Implicit Types (l v : list A).

Lemma slice_to_firstn l hi :
  0 <= hi -> slice_to l hi = firstn (Z.to_nat hi) l.
Proof.
  intro Hhi. unfold slice_to, slice, norm_index.
  change (0 <? 0) with false. cbv iota.
  destruct (hi <? 0) eqn:E; [lia|].
  rewrite (Z.min_l 0) by lia. rewrite Z.sub_0_r.
  change (Z.to_nat 0) with 0%nat. rewrite skipn_O.
  destruct (Z.le_gt_cases hi (Z.of_nat (length l))).
  - rewrite Z.min_l by lia. reflexivity.
  - rewrite Z.min_r by lia.
    rewrite Nat2Z.id. rewrite !firstn_all2; [reflexivity | lia | lia].
Qed.

Lemma set_slice_in_range l lo v :
  0 <= lo -> lo + Z.of_nat (length v) <= Z.of_nat (length l) ->
  set_slice l lo (lo + Z.of_nat (length v)) v
  = Ok (firstn (Z.to_nat lo) l ++ v
          ++ skipn (Z.to_nat (lo + Z.of_nat (length v))) l).
Proof.
  intros Hlo Hhi. unfold set_slice, norm_index.
  destruct (lo <? 0) eqn:E1; [lia|].
  destruct (lo + Z.of_nat (length v) <? 0) eqn:E2; [lia|].
  rewrite !Z.min_l by lia.
  replace (Z.max 0 (lo + Z.of_nat (length v) - lo))
    with (Z.of_nat (length v)) by lia.
  rewrite Z.eqb_refl. reflexivity.
Qed.

Lemma roll_left l k :
  0 <= k <= Z.of_nat (length l) -> 0 < Z.of_nat (length l) ->
  roll l (- k) = skipn (Z.to_nat k) l ++ firstn (Z.to_nat k) l.
Proof.
  intros Hk Hn. unfold roll.
  destruct (Z.of_nat (length l) =? 0) eqn:E; [lia|].
  rewrite Z.opp_involutive.
  destruct (Z.eq_dec k (Z.of_nat (length l))) as [->|Hne].
  - rewrite Z_mod_same_full. rewrite Nat2Z.id.
    change (Z.to_nat 0) with 0%nat.
    rewrite skipn_O, firstn_O, skipn_all, firstn_all, app_nil_r.
    reflexivity.
  - rewrite Z.mod_small by lia. reflexivity.
Qed.

Lemma length_roll l k : length (roll l k) = length l.
Proof.
  unfold roll. destruct (Z.of_nat (length l) =? 0); [reflexivity|].
  rewrite length_app, length_skipn, length_firstn. lia.
Qed.

Lemma set_row_in_range (h : list (list A)) i v :
  0 <= i < Z.of_nat (length h) ->
  length v = length (nth (Z.to_nat i) h []) ->
  set_row h i v
  = Ok (firstn (Z.to_nat i) h ++ v :: skipn (S (Z.to_nat i)) h).
Proof.
  intros Hi Hv. unfold set_row.
  destruct (i <? - Z.of_nat (length h)) eqn:E1; [lia|].
  destruct (Z.of_nat (length h) <=? i) eqn:E2; [lia|].
  simpl orb. cbv iota.
  destruct (i <? 0) eqn:E3; [lia|].
  rewrite Hv, Nat.eqb_refl. reflexivity.
Qed.
End Slices.

Local Open Scope R_scope.

Lemma length_zip_mul x y :
  length x = length y -> length (zip_mul x y) = length x.
Proof.
  revert y. induction x as [|a x IH]; intros [|b y] H; simpl in *;
    try discriminate; [reflexivity|].
  f_equal. apply IH. now injection H.
Qed.

Lemma mul_same_length x y :
  length x = length y -> mul x y = Ok (zip_mul x y).
Proof. intros H. unfold mul. rewrite H, Nat.eqb_refl. reflexivity. Qed.

Lemma rfft_nonempty x : x <> [] -> rfft x = Ok (dft_bins x).
Proof. destruct x; [congruence | reflexivity]. Qed.

Lemma length_dft_bins x :
  length (dft_bins x) = (Nat.div (length x) 2 + 1)%nat.
Proof. unfold dft_bins. now rewrite length_map, length_seq. Qed.

Lemma max_nonempty x :
  x <> [] -> max x = Ok (fold_left Rmax (tl x) (hd 0 x)).
Proof. destruct x; [congruence | reflexivity]. Qed.

End NpFacts.

(** ** Well-formed analyzer objects *)

(** The shape of the arrays and the range of the indices: what [__init__]
    establishes and every statement of the methods keeps. *)
Record shaped (a : AudioAnalyzer) : Prop := mk_shaped {
  sh_fft : 0 < fft_size a;
  sh_depth : 0 < history_size a;
  sh_buffer : Z.of_nat (length (audio_buffer a)) = 2 * fft_size a;
  sh_pos : 0 <= buffer_pos a <= 2 * fft_size a;
  sh_window : Z.of_nat (length (window a)) = fft_size a;
  sh_freq : Z.of_nat (length (freq_history a)) = history_size a;
  sh_freq_rows :
    Forall (fun row => Z.of_nat (length row) = fft_size a / 2) (freq_history a);
  sh_spec : Z.of_nat (length (spec_history a)) = history_size a;
  sh_spec_rows :
    Forall (fun row => Z.of_nat (length row) = fft_size a / 2) (spec_history a);
  sh_current : 0 <= current_pos a < history_size a
}.

(** Between two calls the mutex is free as well. *)
Record wf (a : AudioAnalyzer) : Prop := mk_wf {
  wf_shape : shaped a;
  wf_mutex : mutex a = false
}.

Ltac fields :=
  cbn [sample_rate fft_size history_size freq_history spec_history current_pos
       audio_buffer buffer_pos window mutex running
       set_freq_history set_spec_history set_current_pos set_audio_buffer
       set_buffer_pos set_mutex fst snd app] in *.

Ltac run_monad :=
  cbv [bind ret get modify log raise lift emit msleep mutex_lock mutex_unlock
       py_mod state_of outcome_of trace_of].

(** The effect of [process_audio] on a well-formed object, in closed form. *)
Definition pushed (samples : list Z) (a : AudioAnalyzer) : AudioAnalyzer :=
  let n := Z.of_nat (length samples) in
  if n <=? capacity a - occupancy a then
    set_buffer_pos (buffer_pos a + n)
      (set_audio_buffer
         (firstn (Z.to_nat (buffer_pos a)) (audio_buffer a)
            ++ map to_float samples
            ++ skipn (Z.to_nat (buffer_pos a + n)) (audio_buffer a)) a)
  else a.

Lemma unlock_after_lock a :
  mutex a = false -> set_mutex false (set_mutex true a) = a.
Proof. destruct a; simpl; intros ->; reflexivity. Qed.

Lemma process_audio_run samples a :
  wf a ->
  process_audio (whole samples) a = (Ret PyNone, pushed samples a, [EvLock; EvUnlock]).
Proof.
  intros W. unfold process_audio, frombuffer_int16, whole, pushed, capacity,
    occupancy. cbn [stray_byte samples16].
  run_monad. rewrite (wf_mutex a W). fields.
  rewrite length_map.
  destruct (Z.of_nat (length samples)
              <=? Z.of_nat (length (audio_buffer a)) - buffer_pos a) eqn:E.
  - pose proof (sh_pos a (wf_shape a W)) as Hp. apply Z.leb_le in E.
    rewrite <- (length_map to_float samples).
    rewrite NpFacts.set_slice_in_range by (rewrite ?length_map; lia).
    rewrite length_map. fields.
    f_equal. f_equal. pose proof (wf_mutex a W) as Hm.
    destruct a; cbn in *. subst. reflexivity.
  - fields. rewrite unlock_after_lock by apply (wf_mutex a W). reflexivity.
Qed.

Lemma pushed_shaped samples a : shaped a -> shaped (pushed samples a).
Proof.
  intros W. unfold pushed, capacity, occupancy.
  destruct (Z.of_nat (length samples)
              <=? Z.of_nat (length (audio_buffer a)) - buffer_pos a) eqn:E;
    [|assumption].
  apply Z.leb_le in E. destruct W. constructor; fields; try assumption; try lia.
  rewrite !length_app, length_firstn, length_map, length_skipn. lia.
Qed.

Lemma pushed_mutex samples a : mutex (pushed samples a) = mutex a.
Proof.
  unfold pushed. destruct (_ <=? _); reflexivity.
Qed.

Lemma pushed_wf samples a : wf a -> wf (pushed samples a).
Proof.
  intros [W Hm]. split; [now apply pushed_shaped|].
  now rewrite pushed_mutex.
Qed.

Lemma pushed_fits samples a :
  shaped a ->
  Z.of_nat (length samples) <= capacity a - occupancy a ->
  contents (pushed samples a) = contents a ++ map to_float samples
  /\ occupancy (pushed samples a) = occupancy a + Z.of_nat (length samples).
Proof.
  intros W Hfit. unfold pushed.
  destruct (Z.leb_spec (Z.of_nat (length samples)) (capacity a - occupancy a));
    [|lia].
  unfold contents, occupancy, capacity in *. fields. split; [|reflexivity].
  pose proof (sh_pos a W). pose proof (sh_buffer a W).
  rewrite app_assoc. rewrite firstn_app.
  rewrite length_app, length_firstn, length_map.
  replace (Z.to_nat (buffer_pos a + Z.of_nat (length samples))
           - (Nat.min (Z.to_nat (buffer_pos a)) (length (audio_buffer a))
              + length samples))%nat with 0%nat by lia.
  rewrite firstn_O, app_nil_r. apply firstn_all2.
  rewrite length_app, length_firstn, length_map. lia.
Qed.

Lemma pushed_rejected samples a :
  capacity a - occupancy a < Z.of_nat (length samples) ->
  pushed samples a = a.
Proof.
  intros H. unfold pushed.
  destruct (Z.leb_spec (Z.of_nat (length samples)) (capacity a - occupancy a));
    [lia | reflexivity].
Qed.

(** The effect of [pop_frame] on a well-formed object, in closed form. *)
Definition popped (a : AudioAnalyzer) : AudioAnalyzer :=
  set_buffer_pos (buffer_pos a - fft_size a)
    (set_audio_buffer
       (skipn (Z.to_nat (fft_size a)) (audio_buffer a)
          ++ firstn (Z.to_nat (fft_size a)) (audio_buffer a)) a).

Definition oldest_frame (a : AudioAnalyzer) : list R :=
  firstn (Z.to_nat (fft_size a)) (audio_buffer a).

Lemma pop_frame_run a :
  0 < fft_size a -> Z.of_nat (length (audio_buffer a)) = 2 * fft_size a ->
  pop_frame a =
    if fft_size a <=? buffer_pos a
    then (Ret (Some (oldest_frame a)), popped a, [])
    else (Ret None, a, []).
Proof.
  intros HF Hbuf. unfold pop_frame. run_monad.
  destruct (fft_size a <=? buffer_pos a); [|reflexivity].
  fields. unfold popped, oldest_frame.
  rewrite NpFacts.slice_to_firstn by lia.
  rewrite NpFacts.roll_left by lia. reflexivity.
Qed.

Lemma popped_shaped a :
  shaped a -> fft_size a <= buffer_pos a -> shaped (popped a).
Proof.
  intros W Hp. destruct W. unfold popped.
  constructor; fields; try assumption; try lia.
  rewrite length_app, length_skipn, length_firstn. lia.
Qed.

Lemma popped_contents a :
  shaped a -> fft_size a <= buffer_pos a ->
  oldest_frame a = firstn (Z.to_nat (fft_size a)) (contents a)
  /\ contents (popped a) = skipn (Z.to_nat (fft_size a)) (contents a)
  /\ occupancy (popped a) = occupancy a - fft_size a
  /\ Z.of_nat (length (oldest_frame a)) = fft_size a.
Proof.
  intros W Hp. pose proof (sh_pos a W). pose proof (sh_buffer a W).
  pose proof (sh_fft a W).
  unfold oldest_frame, contents, popped, occupancy. fields.
  repeat split.
  - rewrite firstn_firstn. f_equal. lia.
  - rewrite firstn_app, length_skipn.
    replace (Z.to_nat (buffer_pos a - fft_size a)
             - (length (audio_buffer a) - Z.to_nat (fft_size a)))%nat
      with 0%nat by lia.
    rewrite firstn_O, app_nil_r.
    rewrite firstn_skipn_comm. do 2 f_equal. lia.
  - rewrite length_firstn. lia.
Qed.

(** ** The analysis of one frame, in closed form *)

(** The arrays [magnitude] and [power] of lines 75-76, for a frame as long
    as the window. *)
Definition magnitude_of (w : list R) (F : Z) (chunk : list R) : list R :=
  Np.div_scalar (Np.abs (Np.dft_bins (Np.zip_mul chunk w))) (IZR F).

Definition power_of (w : list R) (F : Z) (chunk : list R) : list R :=
  Np.scale 20 (Np.log10 (Np.add_scalar (magnitude_of w F chunk) 1e-12)).

Lemma length_magnitude_of w F chunk :
  length chunk = length w ->
  length (magnitude_of w F chunk) = (Nat.div (length w) 2 + 1)%nat.
Proof.
  intros H. unfold magnitude_of, Np.div_scalar, Np.abs.
  rewrite !length_map, NpFacts.length_dft_bins.
  rewrite NpFacts.length_zip_mul by assumption. now rewrite H.
Qed.

Lemma length_power_of w F chunk :
  length (power_of w F chunk) = length (magnitude_of w F chunk).
Proof.
  unfold power_of, Np.scale, Np.log10, Np.add_scalar.
  now rewrite !length_map.
Qed.

Lemma spectral_run chunk w F :
  length chunk = length w -> w <> [] ->
  spectral chunk w F = Np.Ok (magnitude_of w F chunk, power_of w F chunk).
Proof.
  intros Hlen Hw. unfold spectral.
  rewrite NpFacts.mul_same_length by assumption.
  rewrite NpFacts.rfft_nonempty; [reflexivity|].
  intros E. apply (f_equal (@length R)) in E.
  rewrite NpFacts.length_zip_mul in E by assumption.
  destruct w; [congruence|]. rewrite Hlen in E. discriminate.
Qed.

(** Row [i] of a 2-D array replaced by [v]. *)
Definition replace_row {A} (i : Z) (v : list A) (h : list (list A)) :=
  firstn (Z.to_nat i) h ++ v :: skipn (S (Z.to_nat i)) h.

(** The effect of [record] on a well-shaped object. *)
Definition recorded (magnitude power : list R) (a : AudioAnalyzer) :=
  let half := Z.to_nat (fft_size a / 2) in
  set_current_pos ((current_pos a + 1) mod history_size a)
    (set_spec_history
       (replace_row (current_pos a) (firstn half power) (spec_history a))
       (set_freq_history
          (replace_row (current_pos a) (firstn half magnitude)
             (freq_history a)) a)).

Lemma row_length (h : list (list R)) (n i : Z) :
  Forall (fun row => Z.of_nat (length row) = n) h ->
  0 <= i < Z.of_nat (length h) ->
  Z.of_nat (length (nth (Z.to_nat i) h [])) = n.
Proof.
  intros Hall Hi. rewrite Forall_forall in Hall. apply Hall.
  apply nth_In. lia.
Qed.

Lemma record_run magnitude power a :
  shaped a ->
  fft_size a / 2 <= Z.of_nat (length magnitude) ->
  fft_size a / 2 <= Z.of_nat (length power) ->
  record magnitude power a = (Ret tt, recorded magnitude power a, []).
Proof.
  intros W Hm Hp. destruct W.
  assert (0 <= fft_size a / 2) by (apply Z.div_pos; lia).
  unfold record. run_monad. fields.
  rewrite !NpFacts.slice_to_firstn by assumption.
  rewrite NpFacts.set_row_in_range;
    [| lia | rewrite length_firstn;
             pose proof (row_length _ _ (current_pos a) sh_freq_rows0); lia].
  fields.
  rewrite NpFacts.set_row_in_range;
    [| lia | rewrite length_firstn;
             pose proof (row_length _ _ (current_pos a) sh_spec_rows0); lia].
  fields.
  destruct (history_size a =? 0) eqn:E; [lia|]. reflexivity.
Qed.

Lemma length_replace_row {A} i (v : list A) h :
  0 <= i < Z.of_nat (length h) -> length (replace_row i v h) = length h.
Proof.
  intros Hi. unfold replace_row.
  rewrite length_app, length_firstn, length_cons, length_skipn. lia.
Qed.

Lemma Forall_replace_row {A} (P : list A -> Prop) i v h :
  Forall P h -> P v -> Forall P (replace_row i v h).
Proof.
  intros Hh Hv. unfold replace_row. rewrite Forall_forall in *.
  intros x Hx. apply in_app_or in Hx. destruct Hx as [Hx | [<- | Hx]].
  - apply Hh. rewrite <- (firstn_skipn (Z.to_nat i) h).
    apply in_or_app. now left.
  - assumption.
  - apply Hh. rewrite <- (firstn_skipn (S (Z.to_nat i)) h).
    apply in_or_app. now right.
Qed.

Lemma recorded_shaped magnitude power a :
  shaped a ->
  fft_size a / 2 <= Z.of_nat (length magnitude) ->
  fft_size a / 2 <= Z.of_nat (length power) ->
  shaped (recorded magnitude power a).
Proof.
  intros W Hm Hp. destruct W.
  assert (0 <= fft_size a / 2) by (apply Z.div_pos; lia).
  unfold recorded. constructor; fields; try assumption.
  - rewrite length_replace_row; lia.
  - apply Forall_replace_row; [assumption|]. rewrite length_firstn. lia.
  - rewrite length_replace_row; lia.
  - apply Forall_replace_row; [assumption|]. rewrite length_firstn. lia.
  - apply Z.mod_pos_bound. lia.
Qed.

(** The dictionary of lines 82-87, built on the object [a] after [record]. *)
Definition published (magnitude : list R) (a : AudioAnalyzer) : AnalysisResult :=
  {| spectrum := Np.mean_axis0 (freq_history a);
     spectrogram := Np.mean_axis0 (spec_history a);
     rms := sqrt (Np.mean (Np.square magnitude));
     peak := fold_left Rmax (tl magnitude) (hd 0%R magnitude) |}.

Lemma average_run magnitude a :
  magnitude <> [] ->
  average magnitude a = (Ret (published magnitude a), a, []).
Proof.
  intros H. unfold average. run_monad.
  rewrite NpFacts.max_nonempty by assumption. reflexivity.
Qed.

(** The object and the result after [analyze chunk]. *)
Definition analyzed (chunk : list R) (a : AudioAnalyzer) : AudioAnalyzer :=
  recorded (magnitude_of (window a) (fft_size a) chunk)
           (power_of (window a) (fft_size a) chunk) a.

Definition result_of (chunk : list R) (a : AudioAnalyzer) : AnalysisResult :=
  published (magnitude_of (window a) (fft_size a) chunk) (analyzed chunk a).

Lemma half_le_bins (F : Z) (n : nat) :
  0 < F -> Z.of_nat n = F -> F / 2 <= Z.of_nat (Nat.div n 2 + 1).
Proof.
  intros HF Hn. rewrite Nat2Z.inj_add, Nat2Z.inj_div, Hn. simpl Z.of_nat. lia.
Qed.

Lemma analyze_run chunk a :
  shaped a -> Z.of_nat (length chunk) = fft_size a ->
  analyze chunk a = (Ret (result_of chunk a), analyzed chunk a, []).
Proof.
  intros W Hlen. pose proof (sh_fft a W) as HF.
  pose proof (sh_window a W) as Hw.
  assert (Hcw : length chunk = length (window a)) by lia.
  assert (Hne : window a <> []).
  { intros E. rewrite E in Hw. simpl in Hw. lia. }
  pose proof (half_le_bins _ _ HF Hw) as Hhalf.
  unfold analyze. run_monad.
  rewrite spectral_run by assumption. fields.
  rewrite record_run;
    [| assumption
     | rewrite length_magnitude_of by assumption; exact Hhalf
     | rewrite length_power_of, length_magnitude_of by assumption; exact Hhalf].
  fold (analyzed chunk a).
  rewrite average_run; [reflexivity|].
  intros E. apply (f_equal (@length R)) in E.
  rewrite length_magnitude_of in E by assumption.
  rewrite Nat.add_1_r in E. discriminate.
Qed.

Lemma analyzed_shaped chunk a :
  shaped a -> Z.of_nat (length chunk) = fft_size a -> shaped (analyzed chunk a).
Proof.
  intros W Hlen. pose proof (sh_fft a W) as HF.
  pose proof (sh_window a W) as Hw.
  assert (Hcw : length chunk = length (window a)) by lia.
  pose proof (half_le_bins _ _ HF Hw) as Hhalf.
  unfold analyzed. apply recorded_shaped; [assumption| |].
  - rewrite length_magnitude_of by assumption; exact Hhalf.
  - rewrite length_power_of, length_magnitude_of by assumption; exact Hhalf.
Qed.

(** ** One iteration of the worker loop, in closed form *)

(** The object after one iteration of the loop. *)
Definition cycled (a : AudioAnalyzer) : AudioAnalyzer :=
  if fft_size a <=? buffer_pos a
  then analyzed (oldest_frame a) (popped a)
  else a.

(** The result an iteration emits when a frame is available. *)
Definition cycle_result (a : AudioAnalyzer) : AnalysisResult :=
  result_of (oldest_frame a) (popped a).

Lemma critical_section_run a :
  shaped a ->
  critical_section a =
    if fft_size a <=? buffer_pos a
    then (Ret tt, analyzed (oldest_frame a) (popped a), [EvEmit (cycle_result a)])
    else (Ret tt, a, []).
Proof.
  intros W. unfold critical_section, bind.
  rewrite pop_frame_run by (apply W).
  destruct (Z.leb_spec (fft_size a) (buffer_pos a)) as [Hp|Hp];
    [|reflexivity].
  rewrite analyze_run.
  - reflexivity.
  - now apply popped_shaped.
  - apply (popped_contents a W Hp).
Qed.

Lemma shaped_set_mutex m a : shaped a -> shaped (set_mutex m a).
Proof. intros []. constructor; assumption. Qed.

Lemma cycle_mutex a :
  mutex a = false ->
  set_mutex false (cycled (set_mutex true a)) = cycled a
  /\ cycle_result (set_mutex true a) = cycle_result a.
Proof.
  intros Hm. unfold cycled, cycle_result, result_of, analyzed, recorded,
    popped, oldest_frame, published.
  destruct a; fields; subst.
  destruct (fft_size0 <=? buffer_pos0); split; reflexivity.
Qed.

Lemma run_iteration_run a :
  wf a ->
  run_iteration a =
    (Ret tt, cycled a,
     if fft_size a <=? buffer_pos a
     then [EvLock; EvEmit (cycle_result a); EvUnlock; EvSleep 20]
     else [EvLock; EvUnlock; EvSleep 20]).
Proof.
  intros [W Hm]. destruct (cycle_mutex a Hm) as [Hc Hr].
  unfold run_iteration, bind at 1, mutex_lock. rewrite Hm.
  unfold bind at 1.
  rewrite critical_section_run by now apply shaped_set_mutex.
  unfold cycled in *. rewrite <- Hr. fields.
  destruct (fft_size a <=? buffer_pos a); run_monad; fields;
    rewrite Hc; reflexivity.
Qed.

Lemma cycled_wf a : wf a -> wf (cycled a).
Proof.
  intros [W Hm]. unfold cycled.
  destruct (Z.leb_spec (fft_size a) (buffer_pos a)) as [Hp|Hp];
    [|now split].
  split.
  - apply analyzed_shaped; [now apply popped_shaped|].
    apply (popped_contents a W Hp).
  - exact Hm.
Qed.

(** ** The fresh object and the objects a sequence of calls reaches *)

Lemma length_zeros n : Z.of_nat (length (Np.zeros n)) = Z.max 0 n.
Proof. unfold Np.zeros. rewrite repeat_length. lia. Qed.

Lemma hanning_init :
  Np.hanning 2048 = map (Np.hann 2048) (seq 0 (Z.to_nat 2048)).
Proof. reflexivity. Qed.

Lemma init_shaped : shaped init.
Proof.
  constructor; unfold init; fields.
  - lia.
  - lia.
  - rewrite length_zeros. reflexivity.
  - lia.
  - rewrite hanning_init, length_map, length_seq. reflexivity.
  - unfold Np.zeros2. rewrite repeat_length. reflexivity.
  - apply Forall_forall. intros row Hrow. apply repeat_spec in Hrow.
    subst row. rewrite length_zeros. reflexivity.
  - unfold Np.zeros2. rewrite repeat_length. reflexivity.
  - apply Forall_forall. intros row Hrow. apply repeat_spec in Hrow.
    subst row. rewrite length_zeros. reflexivity.
  - lia.
Qed.

Lemma init_wf : wf init.
Proof. split; [exact init_shaped | reflexivity]. Qed.

Lemma step_run a o :
  wf a ->
  step a o = match o with Push samples => pushed samples a | Cycle => cycled a end.
Proof.
  intros W. destruct o; unfold step.
  - now rewrite process_audio_run.
  - now rewrite run_iteration_run.
Qed.

Lemma step_wf a o : wf a -> wf (step a o).
Proof.
  intros W. rewrite step_run by assumption.
  destruct o; [now apply pushed_wf | now apply cycled_wf].
Qed.

Lemma fold_step_wf ops a : wf a -> wf (fold_left step ops a).
Proof.
  revert a. induction ops as [|o ops IH]; intros a W; [assumption|].
  simpl. apply IH. now apply step_wf.
Qed.

Lemma exec_wf ops : wf (exec ops).
Proof. apply fold_step_wf, init_wf. Qed.

Lemma exec_snoc ops o : exec (ops ++ [o]) = step (exec ops) o.
Proof. unfold exec. now rewrite fold_left_app. Qed.

(** The configuration never changes. *)
Lemma step_config a o :
  wf a ->
  fft_size (step a o) = fft_size a
  /\ history_size (step a o) = history_size a
  /\ window (step a o) = window a
  /\ capacity (step a o) = capacity a.
Proof.
  intros W. pose proof (step_wf a o W) as W'.
  pose proof (sh_buffer _ (wf_shape _ W)) as Hb.
  pose proof (sh_buffer _ (wf_shape _ W')) as Hb'.
  assert (H : fft_size (step a o) = fft_size a
              /\ history_size (step a o) = history_size a
              /\ window (step a o) = window a).
  { rewrite step_run by assumption. destruct o.
    - unfold pushed. destruct (_ <=? _); repeat split; reflexivity.
    - unfold cycled. destruct (_ <=? _); repeat split; reflexivity. }
  destruct H as (HF & Hd & Hw). repeat split; try assumption.
  unfold capacity. lia.
Qed.

Lemma exec_config ops :
  fft_size (exec ops) = 2048
  /\ history_size (exec ops) = 20
  /\ window (exec ops) = Np.hanning 2048
  /\ capacity (exec ops) = 4096.
Proof.
  induction ops as [|o ops IH] using rev_ind.
  - split; [reflexivity|]. split; [reflexivity|]. split; [reflexivity|].
    change (exec []) with init. unfold capacity, init; fields.
    rewrite length_zeros. reflexivity.
  - rewrite exec_snoc.
    destruct (step_config (exec ops) o (exec_wf ops)) as (-> & -> & -> & ->).
    exact IH.
Qed.

(** ** The sample buffer: [process_audio] and [pop_frame] *)

Lemma exec_shaped ops : shaped (exec ops).
Proof. apply wf_shape, exec_wf. Qed.

Lemma init_empty : occupancy init = 0 /\ contents init = [].
Proof. split; reflexivity. Qed.

(** C1, as the code has it. On every object a sequence of calls reaches and
    for every buffer of whole 16-bit samples, [process_audio] returns (it
    neither raises nor waits), and what it returns is [None]. When the
    chunk fits in the remaining capacity its samples are appended after the
    buffered ones; otherwise the object is left exactly as it was, also
    when the chunk is longer than the whole buffer. For a buffer with an
    odd number of bytes, [np.frombuffer] raises [ValueError] before the
    lock is taken: nothing is stored and the object is as it was. *)
Theorem process_audio_all_or_nothing (ops : list op) (buffer : QAudioBuffer) :
  let a := exec ops in
  let samples := samples16 buffer in
  let n := Z.of_nat (length samples) in
  if stray_byte buffer then
    process_audio buffer a = (Exc ValueError, a, [])
  else
    exists a',
      process_audio buffer a = (Ret PyNone, a', [EvLock; EvUnlock])
      /\ if n <=? capacity a - occupancy a
         then contents a' = contents a ++ map to_float samples
              /\ occupancy a' = occupancy a + n
         else a' = a.
Proof.
  intros a samples n. destruct buffer as [samples0 [|]];
    cbn [stray_byte samples16] in *.
  - reflexivity.
  - change (mkBuffer samples0 false) with (whole samples0).
    exists (pushed samples a). split.
    + apply process_audio_run, exec_wf.
    + destruct (Z.leb_spec n (capacity a - occupancy a)) as [H|H].
      * apply pushed_fits; [apply exec_shaped | exact H].
      * now apply pushed_rejected.
Qed.

(** C1, as the spec words it, fails: a chunk of 4097 samples, longer than
    the whole buffer, is dropped, and the call hands back [None], not the
    boolean [False]. *)
Lemma process_audio_reports_no_boolean :
  let samples := repeat 0 4097 in
  capacity init - occupancy init < Z.of_nat (length samples)
  /\ state_of (process_audio (whole samples) init) = init
  /\ outcome_of (process_audio (whole samples) init) = Ret PyNone
  /\ outcome_of (process_audio (whole samples) init) <> Ret (PyBool false).
Proof.
  intros samples.
  assert (H : capacity init - occupancy init < Z.of_nat (length samples)).
  { unfold samples. rewrite repeat_length.
    change (capacity init) with (Z.of_nat (length (Np.zeros 4096))).
    rewrite length_zeros. change (occupancy init) with 0. lia. }
  rewrite (process_audio_run samples init init_wf).
  unfold state_of, outcome_of; fields.
  rewrite (pushed_rejected samples init H).
  repeat split; try assumption. discriminate.
Qed.

(** C2. On every object a sequence of calls reaches, [pop_frame] returns a
    frame exactly when at least [fft_size] samples are buffered. The frame
    is then the oldest [fft_size] samples, the occupancy drops by
    [fft_size], and the samples that stay are the later ones in their
    order. With fewer samples it returns nothing and changes nothing. *)
Theorem pop_frame_oldest_or_nothing (ops : list op) :
  let a := exec ops in
  let F := fft_size a in
  match pop_frame a with
  | (Ret (Some frame), a', _) =>
      F <= occupancy a
      /\ frame = firstn (Z.to_nat F) (contents a)
      /\ Z.of_nat (length frame) = F
      /\ contents a' = skipn (Z.to_nat F) (contents a)
      /\ contents a = frame ++ contents a'
      /\ occupancy a' = occupancy a - F
  | (Ret None, a', _) => occupancy a < F /\ a' = a
  | _ => False
  end.
Proof.
  intros a F. pose proof (exec_shaped ops) as W. fold a in W.
  rewrite pop_frame_run by apply W. fold F. unfold occupancy at 1 2.
  destruct (Z.leb_spec F (buffer_pos a)) as [Hp|Hp].
  - destruct (popped_contents a W Hp) as (Hf & Hc & Ho & Hl).
    fold F in Hf, Hc, Ho, Hl.
    repeat split; try assumption.
    rewrite Hf, Hc. symmetry. apply firstn_skipn.
  - split; [exact Hp | reflexivity].
Qed.

(** The samples of the chunks [process_audio] accepts along [ops], from the
    object [a] on, in the order of the calls. *)
Fixpoint accepted (a : AudioAnalyzer) (ops : list op) : list R :=
  match ops with
  | [] => []
  | o :: ops' =>
      match o with
      | Push samples =>
          if Z.of_nat (length samples) <=? capacity a - occupancy a
          then map to_float samples
          else []
      | Cycle => []
      end ++ accepted (step a o) ops'
  end.

(** The frame an iteration of the loop takes out of the buffer of [a]. *)
Definition taken (a : AudioAnalyzer) : list (list R) :=
  match outcome_of (bind mutex_lock (fun _ => pop_frame) a) with
  | Ret (Some frame) => [frame]
  | _ => []
  end.

(** The frames the iterations of the loop take along [ops], oldest first. *)
Fixpoint consumed (a : AudioAnalyzer) (ops : list op) : list (list R) :=
  match ops with
  | [] => []
  | o :: ops' =>
      match o with
      | Push _ => []
      | Cycle => taken a
      end ++ consumed (step a o) ops'
  end.

Lemma taken_run a :
  wf a ->
  taken a = if fft_size a <=? buffer_pos a then [oldest_frame a] else [].
Proof.
  intros [W Hm]. unfold taken, bind, mutex_lock. rewrite Hm.
  rewrite pop_frame_run by apply (shaped_set_mutex true a W). fields.
  destruct (fft_size a <=? buffer_pos a); reflexivity.
Qed.

Lemma cycled_contents a :
  shaped a ->
  fft_size a <= buffer_pos a ->
  contents a = oldest_frame a ++ contents (cycled a)
  /\ occupancy (cycled a) = occupancy a - fft_size a.
Proof.
  intros W Hp. unfold cycled.
  destruct (Z.leb_spec (fft_size a) (buffer_pos a)); [|lia].
  destruct (popped_contents a W Hp) as (Hf & Hc & Ho & _).
  change (contents (analyzed (oldest_frame a) (popped a)))
    with (contents (popped a)).
  change (occupancy (analyzed (oldest_frame a) (popped a)))
    with (occupancy (popped a)).
  split; [|exact Ho]. rewrite Hf, Hc. symmetry. apply firstn_skipn.
Qed.

Lemma fifo_from a ops :
  wf a ->
  contents a ++ accepted a ops
  = concat (consumed a ops) ++ contents (fold_left step ops a)
  /\ Forall (fun frame => Z.of_nat (length frame) = fft_size a) (consumed a ops).
Proof.
  revert a. induction ops as [|o ops IH]; intros a W.
  - simpl. rewrite app_nil_r. split; [reflexivity | constructor].
  - destruct (IH (step a o) (step_wf a o W)) as [IHc IHf].
    destruct (step_config a o W) as (HF & _). rewrite HF in IHf.
    cbn [accepted consumed fold_left concat].
    rewrite concat_app, <- app_assoc, <- IHc, !app_assoc.
    destruct o as [samples|].
    + cbn [concat app]. split; [|exact IHf]. f_equal.
      rewrite (step_run a (Push samples) W).
      destruct (Z.leb_spec (Z.of_nat (length samples))
                  (capacity a - occupancy a)) as [Hfit|Hfit].
      * symmetry. apply pushed_fits; [apply W | exact Hfit].
      * rewrite pushed_rejected by assumption. apply app_nil_r.
    + rewrite taken_run by assumption. rewrite app_nil_r.
      rewrite (step_run a Cycle W) in *.
      destruct (Z.leb_spec (fft_size a) (buffer_pos a)) as [Hp|Hp].
      * destruct (cycled_contents a (wf_shape a W) Hp) as [Hc _].
        cbn [concat app]. rewrite app_nil_r. split.
        -- f_equal. exact Hc.
        -- constructor; [|exact IHf].
           apply (popped_contents a (wf_shape a W) Hp).
      * cbn [concat app]. split; [|exact IHf]. f_equal.
        unfold cycled.
        destruct (Z.leb_spec (fft_size a) (buffer_pos a)); [lia|].
        reflexivity.
Qed.

(** C6. The buffer is created with room for [2 * fft_size] samples and
    keeps that capacity. Along every sequence of [process_audio] calls and
    loop iterations on a fresh analyzer, the occupancy stays between zero
    and the capacity; the accepted samples leave in the order they came,
    in frames of exactly [fft_size] samples (what was accepted is what was
    taken followed by what is still buffered); and a push that does not fit
    leaves the occupancy as it was. *)
Theorem buffer_bounded_fifo (ops : list op) :
  let a := exec ops in
  capacity init = 2 * fft_size init
  /\ capacity a = 2 * fft_size a
  /\ 0 <= occupancy a <= capacity a
  /\ accepted init ops = concat (consumed init ops) ++ contents a
  /\ Forall (fun frame => Z.of_nat (length frame) = fft_size a)
       (consumed init ops)
  /\ forall samples,
       capacity a - occupancy a < Z.of_nat (length samples) ->
       occupancy (step a (Push samples)) = occupancy a.
Proof.
  intros a. pose proof (exec_wf ops) as W. fold a in W.
  destruct (exec_config ops) as (HF & _ & _ & Hcap). fold a in HF, Hcap.
  destruct (fifo_from init ops init_wf) as [Hfifo Hframes].
  pose proof (sh_pos a (wf_shape a W)) as Hpos.
  split; [|split; [|split; [|split; [|split]]]].
  - change (capacity init) with (Z.of_nat (length (Np.zeros 4096))).
    rewrite length_zeros. reflexivity.
  - rewrite Hcap, HF. reflexivity.
  - unfold occupancy. rewrite Hcap. lia.
  - exact Hfifo.
  - rewrite HF. exact Hframes.
  - intros samples Hbig. rewrite step_run by assumption.
    now rewrite pushed_rejected.
Qed.

(** C8. A frame of exactly [fft_size] = 2048 samples pushed into the empty
    buffer of a fresh analyzer is accepted, and the frame popped right
    after is the pushed samples, converted to floats, element for
    element. *)
Theorem push_pop_round_trip (samples : list Z) :
  Z.of_nat (length samples) = fft_size init ->
  exists a1 a2 t,
    process_audio (whole samples) init = (Ret PyNone, a1, t)
    /\ occupancy a1 = fft_size init
    /\ pop_frame a1 = (Ret (Some (map to_float samples)), a2, [])
    /\ occupancy a2 = 0
    /\ contents a2 = [].
Proof.
  intros Hlen.
  assert (Hfit : Z.of_nat (length samples) <= capacity init - occupancy init).
  { change (capacity init) with (Z.of_nat (length (Np.zeros 4096))).
    rewrite length_zeros, Hlen. change (occupancy init) with 0.
    change (fft_size init) with 2048. lia. }
  destruct (pushed_fits samples init init_shaped Hfit) as [Hc Ho].
  pose proof (pushed_shaped samples init init_shaped) as W1.
  set (a1 := pushed samples init) in *.
  assert (HF : fft_size a1 = fft_size init).
  { unfold a1, pushed. destruct (_ <=? _); reflexivity. }
  assert (Hp : fft_size a1 <= buffer_pos a1).
  { unfold occupancy in Ho. rewrite HF, Ho, Hlen.
    change (buffer_pos init) with 0. lia. }
  exists a1, (popped a1), [EvLock; EvUnlock].
  destruct (popped_contents a1 W1 Hp) as (Hf & Hc' & Ho' & _).
  change (contents init) with (@nil R) in Hc. simpl app in Hc.
  split; [apply process_audio_run, init_wf|].
  split; [rewrite Ho, Hlen; reflexivity|].
  split; [|split].
  - rewrite pop_frame_run by apply W1.
    destruct (Z.leb_spec (fft_size a1) (buffer_pos a1)); [|lia].
    rewrite Hf, Hc, HF, <- Hlen, Nat2Z.id, <- (length_map to_float).
    now rewrite firstn_all.
  - rewrite Ho', Ho, HF, Hlen. reflexivity.
  - rewrite Hc', Hc, HF, <- Hlen, Nat2Z.id, <- (length_map to_float).
    apply skipn_all.
Qed.

Lemma push_pop_round_trip_witness :
  let samples := map Z.of_nat (seq 0 2048) in
  Z.of_nat (length samples) = fft_size init
  /\ exists a1 a2 t,
       process_audio (whole samples) init = (Ret PyNone, a1, t)
       /\ occupancy a1 = fft_size init
       /\ pop_frame a1 = (Ret (Some (map to_float samples)), a2, [])
       /\ occupancy a2 = 0
       /\ contents a2 = [].
Proof.
  intros samples. split.
  - reflexivity.
  - apply (push_pop_round_trip samples). reflexivity.
Defined.

(** ** The worker loop: errors and the scope of the lock *)

(** The loop of [run] has no handler: an exception raised inside an
    iteration ends [run] with that exception. *)
Lemma run_propagates fuel a e a' t :
  running a = true ->
  run_iteration a = (Exc e, a', t) ->
  run (S fuel) a = (Exc e, a', t).
Proof.
  intros Hr Hit. cbn [run]. unfold bind at 1, get. rewrite Hr.
  unfold bind. rewrite Hit. reflexivity.
Qed.









(** Whether every result of the trace [t] is emitted while the mutex is
    free, [h] telling whether it is held at the start. *)
Fixpoint emits_unlocked (h : bool) (t : list event) : bool :=
  match t with
  | [] => true
  | EvLock :: t' => emits_unlocked true t'
  | EvUnlock :: t' => emits_unlocked false t'
  | EvEmit _ :: t' => negb h && emits_unlocked h t'
  | EvSleep _ :: t' => emits_unlocked h t'
  end.

(** The object of an iteration between its [lock] and its [unlock]. *)
Definition inside (a : AudioAnalyzer) : AudioAnalyzer :=
  state_of (bind mutex_lock (fun _ => critical_section) a).

Lemma inside_run a :
  wf a ->
  mutex (inside a) = true
  /\ forall samples,
       process_audio (whole samples) (inside a) = (Blocked, inside a, []).
Proof.
  intros [W Hm].
  assert (H : mutex (inside a) = true).
  { unfold inside, bind, mutex_lock. rewrite Hm.
    rewrite critical_section_run by now apply shaped_set_mutex.
    destruct (fft_size (set_mutex true a) <=? buffer_pos (set_mutex true a));
      reflexivity. }
  split; [exact H|].
  intros samples. unfold process_audio, frombuffer_int16, whole.
  cbn [stray_byte samples16 lift]. unfold bind at 1, ret.
  unfold bind at 1, mutex_lock. rewrite H. reflexivity.
Qed.

(** C10, as the code has it. [process_audio] holds the mutex for the
    copy-in alone. An iteration of the loop takes the mutex, and when a
    frame is buffered it pops it, transforms it, records it and emits the
    result before it releases the mutex; only the sleep is outside. While
    the iteration is between [lock] and [unlock] a call of [process_audio]
    waits. *)
Theorem lock_spans_the_analysis (ops : list op) (samples : list Z) :
  let a := exec ops in
  trace_of (process_audio (whole samples) a) = [EvLock; EvUnlock]
  /\ trace_of (run_iteration a)
     = (if fft_size a <=? occupancy a
        then [EvLock; EvEmit (cycle_result a); EvUnlock; EvSleep 20]
        else [EvLock; EvUnlock; EvSleep 20])
  /\ rms (cycle_result a)
     = sqrt (Np.mean (Np.square
               (magnitude_of (window a) (fft_size a) (oldest_frame a))))
  /\ mutex (inside a) = true
  /\ outcome_of (process_audio (whole samples) (inside a)) = Blocked
  /\ mutex (state_of (run_iteration a)) = false.
Proof.
  intros a. pose proof (exec_wf ops) as W. fold a in W.
  destruct (inside_run a W) as [Hin Hblock].
  rewrite process_audio_run, run_iteration_run, Hblock by assumption.
  unfold trace_of, outcome_of, state_of; fields.
  repeat split; try assumption.
  apply (wf_mutex _ (cycled_wf a W)).
Qed.

Lemma exec_one_frame :
  let a := exec [Push (repeat 0 2048)] in
  wf a /\ (fft_size a <=? occupancy a) = true.
Proof.
  intros a. pose proof (exec_wf [Push (repeat 0 2048)]) as W. fold a in W.
  split; [exact W|].
  destruct (exec_config [Push (repeat 0 2048)]) as (HF & _). fold a in HF.
  unfold a, exec. cbn [fold_left]. rewrite step_run by apply init_wf.
  assert (Hfit : Z.of_nat (length (repeat 0 2048))
                 <= capacity init - occupancy init).
  { rewrite repeat_length.
    change (capacity init) with (Z.of_nat (length (Np.zeros 4096))).
    rewrite length_zeros. change (occupancy init) with 0. lia. }
  destruct (pushed_fits _ init init_shaped Hfit) as [_ Ho].
  rewrite Ho, repeat_length.
  assert (HF' : fft_size (pushed (repeat 0 2048) init) = 2048).
  { unfold pushed. destruct (_ <=? _); reflexivity. }
  rewrite HF'. reflexivity.
Qed.

(** C10, as the spec words it, fails: after one frame of silence is pushed
    into a fresh analyzer, the next iteration emits its result between
    [lock] and [unlock], and a producer calling [process_audio] at that
    point waits on the mutex. *)
Lemma result_emitted_under_lock :
  let a := exec [Push (repeat 0 2048)] in
  trace_of (run_iteration a)
  = [EvLock; EvEmit (cycle_result a); EvUnlock; EvSleep 20]
  /\ emits_unlocked false (trace_of (run_iteration a)) = false
  /\ outcome_of (process_audio (whole [0]) (inside a)) = Blocked.
Proof.
  intros a. destruct exec_one_frame as [W Hp]. fold a in W, Hp.
  destruct (inside_run a W) as [_ Hblock].
  rewrite run_iteration_run, Hblock by assumption.
  unfold occupancy in Hp. rewrite Hp.
  repeat split.
Qed.

(** ** The smoothing history *)

Ltac mod_lia := Z.to_euclidean_division_equations; lia.

Lemma nth_replace_row_same {A} i (v : list A) h d :
  0 <= i < Z.of_nat (length h) ->
  nth (Z.to_nat i) (replace_row i v h) d = v.
Proof.
  intros Hi. unfold replace_row. rewrite app_nth2; rewrite length_firstn.
  - replace (Z.to_nat i - Nat.min (Z.to_nat i) (length h))%nat with 0%nat
      by lia. reflexivity.
  - lia.
Qed.

Lemma nth_replace_row_other {A} i (v : list A) h d (k : nat) :
  0 <= i < Z.of_nat (length h) -> k <> Z.to_nat i ->
  nth k (replace_row i v h) d = nth k h d.
Proof.
  intros Hi Hk. unfold replace_row.
  destruct (Nat.lt_ge_cases k (Z.to_nat i)) as [Hlt|Hge].
  - rewrite app_nth1 by (rewrite length_firstn; lia).
    rewrite nth_firstn. destruct (Nat.ltb_spec k (Z.to_nat i)); [reflexivity|lia].
  - rewrite app_nth2 by (rewrite length_firstn; lia).
    rewrite length_firstn.
    replace (k - Nat.min (Z.to_nat i) (length h))%nat
      with (S (k - S (Z.to_nat i)))%nat by lia.
    cbn [nth]. rewrite nth_skipn. f_equal. lia.
Qed.

(** The configuration [__init__] sets. *)
Definition configured (a : AudioAnalyzer) : Prop :=
  shaped a /\ fft_size a = 2048 /\ history_size a = 20
  /\ window a = Np.hanning 2048.

Lemma exec_configured ops : configured (exec ops).
Proof.
  destruct (exec_config ops) as (HF & Hd & Hw & _).
  split; [apply exec_shaped|]. split; [exact HF|]. split; [exact Hd|exact Hw].
Qed.

(** A snapshot as the transform produces them: 1025 magnitudes and 1025
    powers. *)
Definition well_sized (s : list R * list R) : Prop :=
  length (fst s) = 1025%nat /\ length (snd s) = 1025%nat.

(** [record] on each snapshot of a list, in order. *)
Fixpoint record_all (snaps : list (list R * list R)) : M unit :=
  match snaps with
  | [] => ret tt
  | s :: rest => record (fst s) (snd s) ;; record_all rest
  end.

Definition recorded_all (snaps : list (list R * list R)) (a : AudioAnalyzer) :=
  fold_left (fun a s => recorded (fst s) (snd s) a) snaps a.

(** The slot of the history a rotating index designates. *)
Definition slot (i : Z) : nat := Z.to_nat (i mod 20).

Lemma recorded_configured s a :
  configured a -> well_sized s -> configured (recorded (fst s) (snd s) a).
Proof.
  intros (W & HF & Hd & Hw) [Hm Hp].
  split; [|split; [exact HF|split; [exact Hd|exact Hw]]].
  apply recorded_shaped; [assumption | |]; rewrite HF, ?Hm, ?Hp;
    change (2048 / 2) with 1024; lia.
Qed.

Lemma record_all_run snaps a :
  configured a -> Forall well_sized snaps ->
  record_all snaps a = (Ret tt, recorded_all snaps a, [])
  /\ configured (recorded_all snaps a).
Proof.
  intros C Hall. revert a C.
  induction Hall as [|s rest Hs Hrest IH]; intros a C.
  - split; [reflexivity | assumption].
  - destruct (IH _ (recorded_configured s a C Hs)) as [Hrun C'].
    split; [|exact C'].
    cbn [record_all recorded_all fold_left]. unfold bind.
    destruct C as (W & HF & Hd & Hw). destruct Hs as [Hm Hp].
    rewrite record_run
      by (try assumption; rewrite HF, ?Hm, ?Hp; change (2048 / 2) with 1024;
          lia).
    rewrite Hrun. reflexivity.
Qed.

Lemma recorded_fields s a :
  fft_size a = 2048 -> history_size a = 20 ->
  let a1 := recorded (fst s) (snd s) a in
  current_pos a1 = (current_pos a + 1) mod 20
  /\ freq_history a1
     = replace_row (current_pos a) (firstn 1024 (fst s)) (freq_history a)
  /\ spec_history a1
     = replace_row (current_pos a) (firstn 1024 (snd s)) (spec_history a).
Proof.
  intros HF Hd. unfold recorded. fields. rewrite HF, Hd.
  repeat split.
Qed.

Lemma recorded_all_history snaps a :
  configured a -> Forall well_sized snaps ->
  let n := Z.of_nat (length snaps) in
  let a' := recorded_all snaps a in
  let c := current_pos a in
  current_pos a' = (c + n) mod 20
  /\ (forall j, 0 <= j < n -> n <= j + 20 ->
        nth (slot (c + j)) (freq_history a') []
        = firstn 1024 (fst (nth (Z.to_nat j) snaps ([], [])))
        /\ nth (slot (c + j)) (spec_history a') []
           = firstn 1024 (snd (nth (Z.to_nat j) snaps ([], []))))
  /\ (forall k, n <= k < 20 ->
        nth (slot (c + k)) (freq_history a') []
        = nth (slot (c + k)) (freq_history a) []
        /\ nth (slot (c + k)) (spec_history a') []
           = nth (slot (c + k)) (spec_history a) []).
Proof.
  intros C Hall. revert a C.
  induction Hall as [|s rest Hs Hrest IH]; intros a C n a' c.
  - subst n a' c. cbn [length recorded_all fold_left Z.of_nat].
    destruct C as (W & _ & Hd & _). pose proof (sh_current a W).
    split; [|split].
    + rewrite Z.add_0_r. symmetry. apply Z.mod_small. lia.
    + intros j Hj. lia.
    + intros k Hk. split; reflexivity.
  - pose proof (recorded_configured s a C Hs) as C1.
    destruct (IH _ C1) as (IHc & IHw & IHu). clear IH.
    destruct C as (W & HF & Hd & Hw).
    destruct (recorded_fields s a HF Hd) as (Hc1 & Hf1 & Hs1).
    pose proof (sh_current a W) as Hcur. rewrite Hd in Hcur.
    pose proof (sh_freq a W) as Hlf. rewrite Hd in Hlf.
    pose proof (sh_spec a W) as Hls. rewrite Hd in Hls.
    set (a1 := recorded (fst s) (snd s) a) in *.
    change (recorded_all (s :: rest) a) with (recorded_all rest a1) in a'.
    fold a' in IHc, IHw, IHu.
    assert (Hn : n = Z.of_nat (length rest) + 1)
      by (subst n; cbn [length]; lia).
    set (m := Z.of_nat (length rest)) in *. fold c in Hc1, Hf1, Hs1, Hcur.
    assert (Hslot : forall z, 0 <= z ->
               slot (current_pos a1 + z) = slot (c + (z + 1))).
    { intros z Hz. unfold slot. f_equal. rewrite Hc1. mod_lia. }
    split; [|split].
    + rewrite IHc, Hc1, Hn. mod_lia.
    + intros j Hj Hjn.
      destruct (Z.eq_dec j 0) as [->|Hj0].
      * change (Z.to_nat 0) with 0%nat. cbn [nth].
        destruct (IHu 19 ltac:(lia)) as [Hu1 Hu2].
        rewrite Hslot in Hu1, Hu2 by lia.
        assert (Hs0 : slot (c + (19 + 1)) = Z.to_nat c).
        { unfold slot. f_equal. mod_lia. }
        assert (Hs0' : slot (c + 0) = Z.to_nat c).
        { unfold slot. f_equal. mod_lia. }
        rewrite Hs0 in Hu1, Hu2. rewrite Hs0', Hu1, Hu2, Hf1, Hs1.
        split; apply nth_replace_row_same; lia.
      * destruct (IHw (j - 1) ltac:(lia) ltac:(lia)) as [Hw1 Hw2].
        rewrite Hslot in Hw1, Hw2 by lia.
        replace (j - 1 + 1) with j in Hw1, Hw2 by lia.
        replace (Z.to_nat j) with (S (Z.to_nat (j - 1))) by lia.
        cbn [nth]. split; assumption.
    + intros k Hk.
      destruct (IHu (k - 1) ltac:(lia)) as [Hu1 Hu2].
      rewrite Hslot in Hu1, Hu2 by lia.
      replace (k - 1 + 1) with k in Hu1, Hu2 by lia.
      rewrite Hu1, Hu2, Hf1, Hs1.
      assert (Hne : slot (c + k) <> Z.to_nat c).
      { unfold slot. intros E. apply Z2Nat.inj in E; mod_lia. }
      split; apply nth_replace_row_other; solve [lia | exact Hne].
Qed.

(** C7. From any object a sequence of calls reaches, for every sequence of
    snapshots recorded one after the other: each [record] stores the
    trimmed arrays at the rotating index and moves the index one slot on,
    modulo 20. Both histories keep exactly 20 rows, the index stays in
    [0, 20), the last 20 snapshots are the ones held (snapshot [j] in slot
    [current_pos + j] modulo 20), slots not yet reached keep what they
    held, and once 20 snapshots are in, the slot the next [record] will
    overwrite holds the oldest of them. *)
Theorem record_overwrites_oldest
  (ops : list op) (snaps : list (list R * list R)) :
  Forall well_sized snaps ->
  let a := exec ops in
  let c := current_pos a in
  let n := Z.of_nat (length snaps) in
  exists a',
    record_all snaps a = (Ret tt, a', [])
    /\ length (freq_history a') = 20%nat
    /\ length (spec_history a') = 20%nat
    /\ current_pos a' = (c + n) mod 20
    /\ 0 <= current_pos a' < 20
    /\ (forall j, 0 <= j < n -> n <= j + 20 ->
          nth (slot (c + j)) (freq_history a') []
          = firstn 1024 (fst (nth (Z.to_nat j) snaps ([], [])))
          /\ nth (slot (c + j)) (spec_history a') []
             = firstn 1024 (snd (nth (Z.to_nat j) snaps ([], []))))
    /\ (forall k, n <= k < 20 ->
          nth (slot (c + k)) (freq_history a') []
          = nth (slot (c + k)) (freq_history a) []
          /\ nth (slot (c + k)) (spec_history a') []
             = nth (slot (c + k)) (spec_history a) [])
    /\ (20 <= n ->
          nth (Z.to_nat (current_pos a')) (freq_history a') []
          = firstn 1024 (fst (nth (Z.to_nat (n - 20)) snaps ([], [])))
          /\ nth (Z.to_nat (current_pos a')) (spec_history a') []
             = firstn 1024 (snd (nth (Z.to_nat (n - 20)) snaps ([], [])))).
Proof.
  intros Hall a c n. pose proof (exec_configured ops) as C. fold a in C.
  destruct (record_all_run snaps a C Hall) as [Hrun C'].
  destruct (recorded_all_history snaps a C Hall) as (Hc & Hw & Hu).
  fold n c in Hc, Hw, Hu.
  exists (recorded_all snaps a).
  destruct C' as (W' & _ & Hd' & _).
  pose proof (sh_freq _ W') as Hlf. pose proof (sh_spec _ W') as Hls.
  pose proof (sh_current _ W') as Hcur. rewrite Hd' in Hlf, Hls, Hcur.
  split; [exact Hrun|]. split; [lia|]. split; [lia|].
  split; [exact Hc|]. split; [exact Hcur|]. split; [exact Hw|].
  split; [exact Hu|].
  intros Hn. destruct (Hw (n - 20) ltac:(lia) ltac:(lia)) as [H1 H2].
  assert (Hs : slot (c + (n - 20)) = Z.to_nat (current_pos (recorded_all snaps a))).
  { unfold slot. f_equal. rewrite Hc. mod_lia. }
  rewrite Hs in H1, H2. split; assumption.
Qed.

Lemma record_overwrites_oldest_witness :
  let ops := [Push (repeat 7 2048); Cycle] in
  let snaps := repeat (repeat 1%R 1025, repeat 2%R 1025) 21 in
  Forall well_sized snaps
  /\ exists a',
       record_all snaps (exec ops) = (Ret tt, a', [])
       /\ length (freq_history a') = 20%nat
       /\ current_pos a' = (current_pos (exec ops) + 21) mod 20
       /\ nth (Z.to_nat (current_pos a')) (freq_history a') []
          = firstn 1024 (fst (nth 1 snaps ([], []))).
Proof.
  intros ops snaps.
  assert (H : Forall well_sized snaps).
  { apply Forall_forall. intros s Hs. apply repeat_spec in Hs. subst s.
    split; reflexivity. }
  split; [exact H|].
  destruct (record_overwrites_oldest ops snaps H)
    as (a' & Hrun & Hlf & _ & Hc & _ & _ & _ & Hold).
  assert (Hn : (20 <= Z.of_nat (length snaps))%Z)
    by (unfold snaps; rewrite repeat_length; lia).
  exists a'. split; [exact Hrun|]. split; [exact Hlf|]. split; [exact Hc|].
  exact (proj1 (Hold Hn)).
Defined.

(** ** The published result *)

Local Open Scope R_scope.

(** The snapshot of a frame under the configuration of [__init__]. *)
Definition snapshot (chunk : list R) : list R * list R :=
  (magnitude_of (Np.hanning 2048) 2048 chunk,
   power_of (Np.hanning 2048) 2048 chunk).

(** [analyze] on each frame of a list, in order. *)
Fixpoint analyze_all (frames : list (list R)) : M (list AnalysisResult) :=
  match frames with
  | [] => ret []
  | f :: rest =>
      (r <- analyze f ;; rs <- analyze_all rest ;; ret (r :: rs))%py
  end.

Lemma length_hanning_init : length (Np.hanning 2048) = 2048%nat.
Proof. now rewrite hanning_init, length_map, length_seq. Qed.

Lemma snapshot_well_sized chunk :
  length chunk = 2048%nat -> well_sized (snapshot chunk).
Proof.
  intros H. unfold well_sized, snapshot. cbn [fst snd].
  rewrite length_power_of, length_magnitude_of
    by now rewrite length_hanning_init.
  rewrite length_hanning_init. split; reflexivity.
Qed.

Lemma analyze_configured chunk a :
  configured a -> length chunk = 2048%nat ->
  analyze chunk a
  = (Ret (published (fst (snapshot chunk))
            (recorded (fst (snapshot chunk)) (snd (snapshot chunk)) a)),
     recorded (fst (snapshot chunk)) (snd (snapshot chunk)) a, []).
Proof.
  intros (W & HF & Hd & Hw) Hlen.
  rewrite analyze_run by (try assumption; rewrite HF; lia).
  unfold result_of, analyzed, snapshot. cbn [fst snd]. rewrite HF, Hw.
  reflexivity.
Qed.

Lemma analyze_all_run frames a :
  configured a -> Forall (fun c => length c = 2048%nat) frames ->
  exists rs,
    analyze_all frames a
    = (Ret rs, recorded_all (map snapshot frames) a, []).
Proof.
  intros C Hall. revert a C.
  induction Hall as [|f rest Hf Hrest IH]; intros a C.
  - exists []. reflexivity.
  - pose proof (snapshot_well_sized f Hf) as Hs.
    destruct (IH _ (recorded_configured (snapshot f) a C Hs)) as [rs Hrs].
    eexists. cbn [analyze_all map recorded_all fold_left].
    unfold bind at 1. rewrite analyze_configured by assumption.
    unfold bind at 1. fold (recorded_all (map snapshot rest)). rewrite Hrs.
    reflexivity.
Qed.

Lemma sum_app x y : Np.sum (x ++ y) = Np.sum x + Np.sum y.
Proof.
  unfold Np.sum. induction x as [|v x IH]; simpl; [lra|]. rewrite IH. lra.
Qed.

Lemma sum_repeat v n : Np.sum (repeat v n) = INR n * v.
Proof.
  unfold Np.sum. induction n as [|n IH].
  - simpl. lra.
  - cbn [repeat fold_right]. rewrite IH, S_INR. lra.
Qed.

Lemma INR_20 : INR 20 = 20.
Proof. simpl. lra. Qed.

(** The history of a fresh analyzer after at most twenty snapshots: the
    snapshots, trimmed, then the rows of zeros not yet overwritten. *)
Lemma cold_history snaps :
  Forall well_sized snaps -> (length snaps <= 20)%nat ->
  let a' := recorded_all snaps init in
  freq_history a'
  = map (fun s => firstn 1024 (fst s)) snaps
      ++ repeat (Np.zeros 1024) (20 - length snaps)
  /\ spec_history a'
     = map (fun s => firstn 1024 (snd s)) snaps
         ++ repeat (Np.zeros 1024) (20 - length snaps).
Proof.
  intros Hall Hlen a'.
  pose proof (exec_configured []) as C. change (exec []) with init in C.
  destruct (record_all_run snaps init C Hall) as [_ (W' & _ & Hd' & _)].
  destruct (recorded_all_history snaps init C Hall) as (_ & Hw & Hu).
  change (current_pos init) with 0%Z in Hw, Hu. fold a' in W', Hd', Hw, Hu.
  pose proof (sh_freq _ W') as Hlf. pose proof (sh_spec _ W') as Hls.
  rewrite Hd' in Hlf, Hls.
  assert (Hrows : forall i : nat, (i < 20)%nat ->
            nth i (freq_history a') []
            = nth i (map (fun s => firstn 1024 (fst s)) snaps
                       ++ repeat (Np.zeros 1024) (20 - length snaps)) []
            /\ nth i (spec_history a') []
               = nth i (map (fun s => firstn 1024 (snd s)) snaps
                          ++ repeat (Np.zeros 1024) (20 - length snaps)) []).
  { intros i Hi.
    assert (Hsl : slot (0 + Z.of_nat i) = i).
    { unfold slot. rewrite Z.add_0_l, Z.mod_small by lia. apply Nat2Z.id. }
    destruct (Nat.lt_ge_cases i (length snaps)) as [Hin|Hout].
    - destruct (Hw (Z.of_nat i) ltac:(lia) ltac:(lia)) as [H1 H2].
      rewrite Hsl, Nat2Z.id in H1, H2. rewrite H1, H2.
      rewrite !app_nth1 by (rewrite length_map; lia).
      split.
      + rewrite (nth_indep _ [] (firstn 1024 (fst (@nil R, @nil R))))
          by (rewrite length_map; lia).
        symmetry. apply (map_nth (fun s => firstn 1024 (fst s))).
      + rewrite (nth_indep _ [] (firstn 1024 (snd (@nil R, @nil R))))
          by (rewrite length_map; lia).
        symmetry. apply (map_nth (fun s => firstn 1024 (snd s))).
    - destruct (Hu (Z.of_nat i) ltac:(lia)) as [H1 H2].
      rewrite Hsl in H1, H2. rewrite H1, H2.
      rewrite !app_nth2 by (rewrite length_map; lia).
      rewrite !nth_repeat_lt by (rewrite length_map; lia).
      change (freq_history init) with (repeat (Np.zeros 1024) 20).
      change (spec_history init) with (repeat (Np.zeros 1024) 20).
      rewrite !nth_repeat_lt by lia. split; reflexivity. }
  split; apply (nth_ext _ _ [] []);
    try (rewrite length_app, length_map, repeat_length; lia);
    intros i Hi; apply Hrows; lia.
Qed.

Lemma column_cold (rows : list (list R)) (n j : nat) :
  Np.sum (Np.column (rows ++ repeat (Np.zeros 1024) n) j)
  = Np.sum (Np.column rows j).
Proof.
  unfold Np.column. rewrite map_app, sum_app, map_repeat.
  unfold Np.zeros. rewrite nth_repeat, sum_repeat. lra.
Qed.

Lemma mean_axis0_cold (rows : list (list R)) (n : nat) :
  length (rows ++ repeat (Np.zeros 1024) n) = 20%nat ->
  length (hd [] (rows ++ repeat (Np.zeros 1024) n)) = 1024%nat ->
  Np.mean_axis0 (rows ++ repeat (Np.zeros 1024) n)
  = map (fun j => Np.sum (Np.column rows j) / 20) (seq 0 1024).
Proof.
  intros Hlen Hhd. unfold Np.mean_axis0. rewrite Hhd.
  apply map_ext. intros j. unfold Np.mean.
  rewrite column_cold. unfold Np.column at 2. rewrite length_map, Hlen, INR_20.
  reflexivity.
Qed.

Lemma column_trimmed (arrays : list (list R)) (j : nat) :
  (j < 1024)%nat ->
  Np.column (map (firstn 1024) arrays) j = Np.column arrays j.
Proof.
  intros Hj. unfold Np.column. rewrite map_map. apply map_ext.
  intros row. rewrite nth_firstn.
  destruct (Nat.ltb_spec j 1024); [reflexivity | lia].
Qed.

(** C4. On a fresh analyzer, after the frames [frames] and then [f] (at
    most twenty frames in all), the published [spectrum] and [spectrogram]
    are the column means of the twenty-row histories: bin by bin, the sum of
    the magnitudes (powers) recorded so far divided by 20, the rows not yet
    overwritten counting as zeros. The published [rms] and [peak] are those
    of the last frame [f] alone. *)
Theorem published_mean_counts_empty_slots
  (frames : list (list R)) (f : list R) :
  Forall (fun c => length c = 2048%nat) (frames ++ [f]) ->
  (length frames < 20)%nat ->
  let mags := map (fun c => fst (snapshot c)) (frames ++ [f]) in
  let pows := map (fun c => snd (snapshot c)) (frames ++ [f]) in
  exists rs a1 r a2,
    analyze_all frames init = (Ret rs, a1, [])
    /\ analyze f a1 = (Ret r, a2, [])
    /\ spectrum r = Np.mean_axis0 (freq_history a2)
    /\ spectrogram r = Np.mean_axis0 (spec_history a2)
    /\ length (freq_history a2) = 20%nat
    /\ length (spec_history a2) = 20%nat
    /\ spectrum r
       = map (fun j => Np.sum (Np.column mags j) / 20) (seq 0 1024)
    /\ spectrogram r
       = map (fun j => Np.sum (Np.column pows j) / 20) (seq 0 1024)
    /\ rms r = sqrt (Np.mean (Np.square (fst (snapshot f))))
    /\ Np.max (fst (snapshot f)) = Np.Ok (peak r).
Proof.
  intros Hall Hk mags pows.
  pose proof (exec_configured []) as C. change (exec []) with init in C.
  apply Forall_app in Hall. destruct Hall as [Hframes Hf].
  inversion Hf as [|? ? Hlen _]; subst.
  destruct (analyze_all_run frames init C Hframes) as [rs Hrs].
  assert (Hsized : Forall well_sized (map snapshot (frames ++ [f]))).
  { apply Forall_forall. intros s Hs. apply in_map_iff in Hs.
    destruct Hs as (c & <- & Hc). apply snapshot_well_sized.
    apply in_app_or in Hc. destruct Hc as [Hc | [<- | []]]; [|exact Hlen].
    rewrite Forall_forall in Hframes. now apply Hframes. }
  assert (Hsized' : Forall well_sized (map snapshot frames)).
  { rewrite map_app in Hsized. now apply Forall_app in Hsized. }
  destruct (record_all_run _ init C Hsized') as [_ C1].
  set (a1 := recorded_all (map snapshot frames) init) in *.
  set (a2 := recorded (fst (snapshot f)) (snd (snapshot f)) a1).
  assert (Ha2 : a2 = recorded_all (map snapshot (frames ++ [f])) init).
  { unfold a2, a1, recorded_all. rewrite map_app, fold_left_app. reflexivity. }
  destruct (cold_history _ Hsized) as [Hfh Hsh].
  { rewrite length_map, length_app. cbn [length]. lia. }
  rewrite <- Ha2 in Hfh, Hsh. rewrite !map_map in Hfh, Hsh.
  assert (Hlen20 : forall (g : list R -> list R),
             length (map g (frames ++ [f])
                       ++ repeat (Np.zeros 1024)
                            (20 - length (map snapshot (frames ++ [f]))))
             = 20%nat).
  { intros g. rewrite length_app, !length_map, repeat_length, length_app.
    cbn [length]. lia. }
  assert (Hhd : forall (g : list R -> list R),
             length (g (hd f frames)) = 1024%nat ->
             length (hd [] (map g (frames ++ [f])
                       ++ repeat (Np.zeros 1024)
                            (20 - length (map snapshot (frames ++ [f])))))
             = 1024%nat).
  { intros g Hg. destruct frames; exact Hg. }
  assert (Hfirst : length (hd f frames) = 2048%nat).
  { destruct frames as [|c frames]; [exact Hlen|].
    now inversion Hframes. }
  destruct (snapshot_well_sized _ Hfirst) as [Hm0 Hp0].
  exists rs, a1, (published (fst (snapshot f)) a2), a2.
  split; [exact Hrs|]. split; [now apply analyze_configured|].
  split; [reflexivity|]. split; [reflexivity|].
  split; [rewrite Hfh; apply Hlen20|]. split; [rewrite Hsh; apply Hlen20|].
  split; [|split; [|split]].
  - cbn [published spectrum]. rewrite Hfh.
    rewrite mean_axis0_cold;
      [| apply Hlen20 | apply Hhd; rewrite length_firstn, Hm0; reflexivity].
    apply map_ext_in. intros j Hj. apply in_seq in Hj.
    unfold mags.
    rewrite <- (column_trimmed (map (fun c => fst (snapshot c)) (frames ++ [f])))
      by lia.
    now rewrite map_map.
  - cbn [published spectrogram]. rewrite Hsh.
    rewrite mean_axis0_cold;
      [| apply Hlen20 | apply Hhd; rewrite length_firstn, Hp0; reflexivity].
    apply map_ext_in. intros j Hj. apply in_seq in Hj.
    unfold pows.
    rewrite <- (column_trimmed (map (fun c => snd (snapshot c)) (frames ++ [f])))
      by lia.
    now rewrite map_map.
  - reflexivity.
  - cbn [published peak]. apply NpFacts.max_nonempty.
    destruct (snapshot_well_sized f Hlen) as [Hm _].
    intros E. rewrite E in Hm. discriminate.
Qed.

Lemma published_mean_witness :
  let frames := [map to_float (map Z.of_nat (seq 0 2048))] in
  let f := repeat 0.5 2048 in
  let mags := map (fun c => fst (snapshot c)) (frames ++ [f]) in
  let pows := map (fun c => snd (snapshot c)) (frames ++ [f]) in
  (Forall (fun c => length c = 2048%nat) (frames ++ [f])
   /\ (length frames < 20)%nat)
  /\ exists rs a1 r a2,
       analyze_all frames init = (Ret rs, a1, [])
       /\ analyze f a1 = (Ret r, a2, [])
       /\ spectrum r = Np.mean_axis0 (freq_history a2)
       /\ spectrogram r = Np.mean_axis0 (spec_history a2)
       /\ length (freq_history a2) = 20%nat
       /\ length (spec_history a2) = 20%nat
       /\ spectrum r
          = map (fun j => Np.sum (Np.column mags j) / 20) (seq 0 1024)
       /\ spectrogram r
          = map (fun j => Np.sum (Np.column pows j) / 20) (seq 0 1024)
       /\ rms r = sqrt (Np.mean (Np.square (fst (snapshot f))))
       /\ Np.max (fst (snapshot f)) = Np.Ok (peak r).
Proof.
  intros frames f mags pows.
  assert (H : Forall (fun c => length c = 2048%nat) (frames ++ [f])).
  { constructor; [now rewrite !length_map, length_seq|].
    constructor; [apply repeat_length | constructor]. }
  assert (Hk : (length frames < 20)%nat) by (cbn [frames length]; lia).
  split; [split; assumption|].
  exact (published_mean_counts_empty_slots frames f H Hk).
Defined.

(** ** The transform of a frame, and silence *)

(** An all-zero frame. *)
Definition silence : list R := repeat 0 2048.

Lemma map_constant {A B} (g : A -> B) (c : B) (l : list A) :
  (forall x, In x l -> g x = c) -> map g l = repeat c (length l).
Proof.
  induction l as [|x l IH]; intros H; [reflexivity|].
  cbn [map length repeat]. rewrite H by now left.
  f_equal. apply IH. intros y Hy. apply H. now right.
Qed.

Lemma zip_mul_zeros (n : nat) (w : list R) :
  length w = n -> Np.zip_mul (repeat 0 n) w = repeat 0 n.
Proof.
  revert w. induction n as [|n IH]; intros [|b w] H; try discriminate;
    [reflexivity|].
  cbn [repeat Np.zip_mul]. rewrite Rmult_0_l. f_equal. apply IH.
  now injection H.
Qed.

Lemma dft_sum_zeros (g : nat -> R) (n start : nat) :
  Np.dft_sum g (repeat 0 n) start = 0.
Proof.
  revert start. induction n as [|n IH]; intros start; [reflexivity|].
  cbn [repeat Np.dft_sum]. rewrite IH. lra.
Qed.

Lemma magnitude_of_zeros (w : list R) (F : Z) (n : nat) :
  length w = n ->
  magnitude_of w F (repeat 0 n) = repeat 0 (Nat.div n 2 + 1).
Proof.
  intros Hw. unfold magnitude_of, Np.div_scalar, Np.abs, Np.dft_bins.
  rewrite zip_mul_zeros by assumption. rewrite !map_map.
  rewrite repeat_length.
  rewrite (map_constant _ 0); [now rewrite length_seq|].
  intros k _. unfold Np.dft_bin, Np.Cabs. cbn [Np.Re Np.Im].
  rewrite !dft_sum_zeros, Rmult_0_l, Rplus_0_l, sqrt_0.
  unfold Rdiv. apply Rmult_0_l.
Qed.

Lemma power_of_zeros (w : list R) (F : Z) (n : nat) :
  length w = n ->
  power_of w F (repeat 0 n)
  = repeat (20 * Np.log10r 1e-12) (Nat.div n 2 + 1).
Proof.
  intros Hw. unfold power_of. rewrite magnitude_of_zeros by assumption.
  unfold Np.scale, Np.log10, Np.add_scalar. rewrite !map_map.
  rewrite (map_constant _ (20 * Np.log10r 1e-12));
    [now rewrite repeat_length|].
  intros v Hv. apply repeat_spec in Hv. subst v. now rewrite Rplus_0_l.
Qed.

Lemma floor_value : 20 * Np.log10r 1e-12 = -240.
Proof.
  assert (Hln : 0 < ln 10) by (rewrite <- ln_1; apply ln_increasing; lra).
  unfold Np.log10r.
  replace 1e-12 with (/ 10 ^ 12) by lra.
  rewrite ln_Rinv by (apply pow_lt; lra).
  rewrite ln_pow by lra.
  replace (INR 12) with 12 by (simpl; lra).
  field. lra.
Qed.

Lemma firstn_repeat_succ {A} (x : A) (n : nat) :
  firstn n (repeat x (n + 1)) = repeat x n.
Proof.
  rewrite repeat_app, firstn_app, repeat_length, Nat.sub_diag, firstn_O.
  rewrite app_nil_r. apply firstn_all2. rewrite repeat_length. lia.
Qed.

Lemma snapshot_silence :
  snapshot silence = (repeat 0 1025, repeat (20 * Np.log10r 1e-12) 1025).
Proof.
  unfold snapshot, silence.
  rewrite power_of_zeros, magnitude_of_zeros by apply length_hanning_init.
  reflexivity.
Qed.

Lemma mean_axis0_same_rows (v : R) :
  Np.mean_axis0 (repeat (repeat v 1024) 20) = repeat v 1024.
Proof.
  unfold Np.mean_axis0. change (hd [] (repeat (repeat v 1024) 20))
    with (repeat v 1024).
  rewrite repeat_length.
  rewrite (map_constant _ v); [now rewrite length_seq|].
  intros j Hj. apply in_seq in Hj. unfold Np.mean, Np.column.
  rewrite map_repeat, sum_repeat, repeat_length, nth_repeat_lt by lia.
  rewrite INR_20. field.
Qed.

Lemma nth_map_lt {A B} (g : A -> B) (l : list A) (k : nat) (d : B) (d' : A) :
  (k < length l)%nat -> nth k (map g l) d = g (nth k l d').
Proof.
  intros Hk. rewrite (nth_indep _ d (g d')) by now rewrite length_map.
  apply map_nth.
Qed.

Lemma nth_magnitude_of w F chunk k :
  length chunk = length w -> (k < Nat.div (length w) 2 + 1)%nat ->
  nth k (magnitude_of w F chunk) 0
  = Np.Cabs (Np.dft_bin (Np.zip_mul chunk w) k) / IZR F.
Proof.
  intros Hlen Hk. unfold magnitude_of, Np.div_scalar, Np.abs, Np.dft_bins.
  rewrite !map_map. rewrite NpFacts.length_zip_mul, Hlen by assumption.
  rewrite (nth_map_lt _ _ _ _ 0%nat) by now rewrite length_seq.
  now rewrite seq_nth.
Qed.

Lemma nth_power_of w F chunk k :
  (k < length (magnitude_of w F chunk))%nat ->
  nth k (power_of w F chunk) 0
  = 20 * Np.log10r (nth k (magnitude_of w F chunk) 0 + 1e-12).
Proof.
  intros Hk. unfold power_of, Np.scale, Np.log10, Np.add_scalar.
  rewrite !map_map.
  now rewrite (nth_map_lt (fun v => 20 * Np.log10r (v + 1e-12)) _ _ _ 0).
Qed.

(** After twenty or more equal snapshots every row of the history holds
    that snapshot. *)
Lemma history_saturated (s : list R * list R) (m : nat) (a : AudioAnalyzer) :
  configured a -> well_sized s ->
  let a' := recorded_all (repeat s (20 + m)) a in
  freq_history a' = repeat (firstn 1024 (fst s)) 20
  /\ spec_history a' = repeat (firstn 1024 (snd s)) 20.
Proof.
  intros C Hs a'.
  assert (Hall : Forall well_sized (repeat s (20 + m))).
  { apply Forall_forall. intros x Hx. apply repeat_spec in Hx. now subst. }
  destruct (record_all_run _ a C Hall) as [_ (W' & _ & Hd' & _)].
  destruct (recorded_all_history _ a C Hall) as (_ & Hw & _).
  fold a' in W', Hd', Hw. rewrite repeat_length in Hw.
  destruct C as (W & _ & Hd & _).
  pose proof (sh_current a W) as Hc. rewrite Hd in Hc.
  pose proof (sh_freq _ W') as Hlf. pose proof (sh_spec _ W') as Hls.
  rewrite Hd' in Hlf, Hls.
  assert (Hrows : forall i : nat, (i < 20)%nat ->
            nth i (freq_history a') [] = firstn 1024 (fst s)
            /\ nth i (spec_history a') [] = firstn 1024 (snd s)).
  { intros i Hi.
    set (n := Z.of_nat (20 + m)) in *.
    set (j := (n - 20 + (Z.of_nat i - current_pos a - (n - 20)) mod 20)%Z).
    assert (Hj : (0 <= j < n)%Z /\ (n <= j + 20)%Z
                 /\ ((current_pos a + j) mod 20 = Z.of_nat i)%Z)
      by (unfold j, n; mod_lia).
    destruct Hj as (Hj1 & Hj2 & Hj3).
    destruct (Hw j Hj1 Hj2) as [H1 H2].
    unfold slot in H1, H2. rewrite Hj3, Nat2Z.id in H1, H2.
    rewrite H1, H2. rewrite nth_repeat_lt by lia. split; reflexivity. }
  split; apply (nth_ext _ _ [] []);
    try (rewrite repeat_length; lia);
    intros i Hi; rewrite nth_repeat_lt by lia; apply Hrows; lia.
Qed.

(** C3. A frame of 2048 samples is multiplied by the Hann window, bin [k]
    of its transform gives the magnitude [|X_k| / 2048], and the power is
    [20 log10 (magnitude + 1e-12)], for the 1025 bins of the real-input
    transform. A silent frame has every power at [20 log10 1e-12], which is
    the number -240. From any object a sequence of calls reaches, the result
    of the twentieth, or any later, consecutive silent frame has every
    value of [spectrogram] at that floor. *)
Theorem transform_and_silence_floor
  (chunk : list R) (ops : list op) (m : nat) :
  length chunk = 2048%nat ->
  let w := Np.hanning 2048 in
  let magnitude := fst (snapshot chunk) in
  let power := snd (snapshot chunk) in
  let floor := 20 * Np.log10r 1e-12 in
  spectral chunk w 2048 = Np.Ok (magnitude, power)
  /\ length magnitude = 1025%nat
  /\ length power = 1025%nat
  /\ (forall k, (k < 1025)%nat ->
        nth k magnitude 0 = Np.Cabs (Np.dft_bin (Np.zip_mul chunk w) k) / 2048
        /\ nth k power 0 = 20 * Np.log10r (nth k magnitude 0 + 1e-12))
  /\ snd (snapshot silence) = repeat floor 1025
  /\ floor = -240
  /\ exists rs a1 r a2,
       analyze_all (repeat silence (19 + m)) (exec ops) = (Ret rs, a1, [])
       /\ analyze silence a1 = (Ret r, a2, [])
       /\ spectrogram r = repeat floor 1024.
Proof.
  intros Hlen w magnitude power floor.
  pose proof length_hanning_init as Hw. fold w in Hw.
  destruct (snapshot_well_sized chunk Hlen) as [Hm Hp].
  split; [|split; [exact Hm|split; [exact Hp|split; [|split; [|split]]]]].
  - apply spectral_run; [now rewrite Hw|].
    intros E. rewrite E in Hw. discriminate.
  - intros k Hk. unfold magnitude, power, snapshot. cbn [fst snd]. split.
    + apply nth_magnitude_of; rewrite Hw; [exact Hlen | exact Hk].
    + apply nth_power_of. fold w. change (magnitude_of w 2048 chunk)
        with (fst (snapshot chunk)). now rewrite Hm.
  - now rewrite snapshot_silence.
  - apply floor_value.
  - pose proof (exec_configured ops) as C.
    assert (Hsil : length silence = 2048%nat) by apply repeat_length.
    assert (Hall : Forall (fun c => length c = 2048%nat)
                     (repeat silence (19 + m))).
    { apply Forall_forall. intros x Hx. apply repeat_spec in Hx. now subst. }
    destruct (analyze_all_run _ _ C Hall) as [rs Hrs].
    pose proof (snapshot_well_sized silence Hsil) as Hs.
    assert (Hall' : Forall well_sized (map snapshot (repeat silence (19 + m)))).
    { rewrite map_repeat. apply Forall_forall. intros x Hx.
      apply repeat_spec in Hx. now subst. }
    destruct (record_all_run _ _ C Hall') as [_ C1].
    set (a1 := recorded_all (map snapshot (repeat silence (19 + m))) (exec ops))
      in *.
    set (a2 := recorded (fst (snapshot silence)) (snd (snapshot silence)) a1).
    assert (Ha2 : a2 = recorded_all (repeat (snapshot silence) (20 + m))
                         (exec ops)).
    { unfold a2, a1. rewrite map_repeat.
      replace (20 + m)%nat with ((19 + m) + 1)%nat by lia.
      rewrite (repeat_app _ (19 + m) 1). unfold recorded_all.
      rewrite fold_left_app. reflexivity. }
    destruct (history_saturated (snapshot silence) m (exec ops) C Hs)
      as [_ Hsh].
    rewrite <- Ha2 in Hsh.
    exists rs, a1, (published (fst (snapshot silence)) a2), a2.
    split; [exact Hrs|]. split; [now apply analyze_configured|].
    cbn [published spectrogram]. rewrite Hsh, snapshot_silence. cbn [snd].
    change 1025%nat with (1024 + 1)%nat. rewrite firstn_repeat_succ.
    apply mean_axis0_same_rows.
Qed.

Lemma transform_and_silence_floor_witness :
  let chunk := map to_float (map Z.of_nat (seq 0 2048)) in
  let ops := [Push (repeat 9%Z 2048)] in
  let w := Np.hanning 2048 in
  let magnitude := fst (snapshot chunk) in
  let power := snd (snapshot chunk) in
  let floor := 20 * Np.log10r 1e-12 in
  length chunk = 2048%nat
  /\ spectral chunk w 2048 = Np.Ok (magnitude, power)
  /\ length magnitude = 1025%nat
  /\ length power = 1025%nat
  /\ (forall k, (k < 1025)%nat ->
        nth k magnitude 0 = Np.Cabs (Np.dft_bin (Np.zip_mul chunk w) k) / 2048
        /\ nth k power 0 = 20 * Np.log10r (nth k magnitude 0 + 1e-12))
  /\ snd (snapshot silence) = repeat floor 1025
  /\ floor = -240
  /\ exists rs a1 r a2,
       analyze_all (repeat silence (19 + 5)) (exec ops) = (Ret rs, a1, [])
       /\ analyze silence a1 = (Ret r, a2, [])
       /\ spectrogram r = repeat floor 1024.
Proof.
  intros chunk ops w magnitude power floor.
  assert (H : length chunk = 2048%nat)
    by (unfold chunk; now rewrite !length_map, length_seq).
  split; [exact H|].
  exact (transform_and_silence_floor chunk ops 5 H).
Defined.

(** ** RMS and peak *)

Lemma fold_left_Rmax_ge_init (l : list R) (x : R) : x <= fold_left Rmax l x.
Proof.
  revert x. induction l as [|y l IH]; intros x; [apply Rle_refl|].
  cbn [fold_left]. eapply Rle_trans; [apply Rmax_l | apply IH].
Qed.

Lemma fold_left_Rmax_ge (l : list R) (x y : R) :
  In y l -> y <= fold_left Rmax l x.
Proof.
  revert x. induction l as [|z l IH]; intros x []; cbn [fold_left].
  - subst z. eapply Rle_trans; [apply Rmax_r | apply fold_left_Rmax_ge_init].
  - now apply IH.
Qed.

Lemma fold_left_Rmax_lt (l : list R) (x bound : R) :
  x < bound -> (forall y, In y l -> y < bound) ->
  fold_left Rmax l x < bound.
Proof.
  revert x. induction l as [|z l IH]; intros x Hx Hl; [exact Hx|].
  cbn [fold_left]. apply IH.
  - apply Rmax_lub_lt; [exact Hx | apply Hl; now left].
  - intros y Hy. apply Hl. now right.
Qed.

(** The transform of a frame whose only non-zero samples are the second
    and the third. *)
Lemma two_taps_energy (u v : R) (n k : nat) :
  let X := Np.dft_bin (0 :: u :: - v :: repeat 0 n) k in
  let t := 2 * PI * INR k / INR (3 + n) in
  Np.Re X * Np.Re X + Np.Im X * Np.Im X = u * u + v * v - 2 * u * v * cos t.
Proof.
  intros X t. unfold X, Np.dft_bin.
  cbn [Np.Re Np.Im Np.dft_sum length]. rewrite !dft_sum_zeros.
  rewrite repeat_length.
  change (S (S (S n))) with (3 + n)%nat.
  set (N := INR (3 + n)).
  assert (HN : N <> 0).
  { unfold N. apply not_0_INR. lia. }
  set (a := 2 * PI * INR k * INR 1 / N).
  set (b := 2 * PI * INR k * INR 2 / N).
  assert (Ht : t = b - a).
  { unfold t, a, b. fold N. simpl INR. field. exact HN. }
  pose proof (sin2_cos2 a) as Ha. pose proof (sin2_cos2 b) as Hb.
  unfold Rsqr in Ha, Hb.
  rewrite Ht, cos_minus.
  replace ((0 * cos (2 * PI * INR k * INR 0 / N)
            + (u * cos a + (- v * cos b + 0)))
           * (0 * cos (2 * PI * INR k * INR 0 / N)
              + (u * cos a + (- v * cos b + 0)))
           + (0 * - sin (2 * PI * INR k * INR 0 / N)
              + (u * - sin a + (- v * - sin b + 0)))
             * (0 * - sin (2 * PI * INR k * INR 0 / N)
                + (u * - sin a + (- v * - sin b + 0))))
    with (u * u * (sin a * sin a + cos a * cos a)
          + v * v * (sin b * sin b + cos b * cos b)
          - 2 * u * v * (cos b * cos a + sin b * sin a)) by ring.
  rewrite Ha, Hb. ring.
Qed.

Lemma two_taps_nyquist (u v : R) (n : nat) :
  0 <= u -> 0 <= v -> (3 + n = 2 * 1024)%nat ->
  Np.Cabs (Np.dft_bin (0 :: u :: - v :: repeat 0 n) 1024) = u + v.
Proof.
  intros Hu Hv Hn. unfold Np.Cabs. rewrite two_taps_energy. rewrite Hn.
  replace (2 * PI * INR 1024 / INR (2 * 1024)) with PI.
  - rewrite cos_PI.
    replace (u * u + v * v - 2 * u * v * -1) with ((u + v) * (u + v)) by ring.
    apply sqrt_square. lra.
  - rewrite mult_INR. change (INR 2) with 2.
    assert (INR 1024 <> 0) by (apply not_0_INR; lia). field. assumption.
Qed.

Lemma two_taps_below_nyquist (u v : R) (n k : nat) :
  0 < u -> 0 < v -> (3 + n = 2 * 1024)%nat -> (k < 1024)%nat ->
  Np.Cabs (Np.dft_bin (0 :: u :: - v :: repeat 0 n) k) < u + v.
Proof.
  intros Hu Hv Hn Hk. unfold Np.Cabs.
  pose proof (two_taps_energy u v n k) as E. cbv zeta in E.
  set (X := Np.dft_bin (0 :: u :: - v :: repeat 0 n) k) in *.
  rewrite Hn in E. set (t := 2 * PI * INR k / INR (2 * 1024)) in *.
  assert (Hcos : -1 < cos t).
  { rewrite <- cos_PI.
    assert (H1024 : 0 < INR 1024) by (apply lt_0_INR; lia).
    assert (Hk' : INR k < INR 1024) by (apply lt_INR; exact Hk).
    pose proof (pos_INR k) as Hk0. pose proof PI_RGT_0 as Hpi.
    assert (Ht : t = PI * (INR k / INR 1024)).
    { unfold t. rewrite mult_INR. change (INR 2) with 2. field. lra. }
    assert (Hq : 0 <= INR k / INR 1024 < 1).
    { split.
      - apply Rmult_le_pos; [lra|]. apply Rlt_le, Rinv_0_lt_compat. lra.
      - apply Rmult_lt_reg_r with (INR 1024); [lra|].
        unfold Rdiv. rewrite Rmult_assoc, Rinv_l by lra. lra. }
    apply cos_decreasing_1; try lra; rewrite Ht; nra. }
  rewrite <- (sqrt_square (u + v)) by lra.
  apply sqrt_lt_1.
  - apply Rplus_le_le_0_compat; apply Rle_0_sqr.
  - apply Rle_0_sqr.
  - rewrite E.
    assert (Huv : 0 < u * v * (1 + cos t))
      by (repeat apply Rmult_lt_0_compat; lra).
    lra.
Qed.

Lemma hann_positive (k : nat) :
  (0 < k < 1024)%nat -> 0 < Np.hann 2048 k.
Proof.
  intros Hk. unfold Np.hann. change (2048 - 1)%Z with 2047%Z.
  set (t := 2 * PI * INR k / 2047).
  assert (Hcos : cos t < 1).
  { rewrite <- cos_0.
    assert (H0 : 0 < INR k) by (apply lt_0_INR; lia).
    assert (H1 : INR k <= INR 1023) by (apply le_INR; lia).
    assert (E : INR 1023 = 1023)
      by (rewrite INR_IZR_INZ; reflexivity).
    rewrite E in H1. pose proof PI_RGT_0 as Hpi.
    set (q := 2 * INR k / 2047).
    assert (Hq : 0 < q < 1) by (unfold q; lra).
    assert (Ht : t = PI * q) by (unfold t, q; field).
    apply cos_decreasing_1; try lra; rewrite Ht; nra. }
  lra.
Qed.

(** A frame the producer can deliver: the 16-bit samples 16384 and -16384
    after one zero, then zeros. *)
Definition two_taps : list R :=
  map to_float (0 :: 16384 :: -16384 :: repeat 0 2045)%Z.

Lemma two_taps_windowed :
  Np.zip_mul two_taps (Np.hanning 2048)
  = 0 :: 0.5 * Np.hann 2048 1 :: - (0.5 * Np.hann 2048 2) :: repeat 0 2045.
Proof.
  rewrite hanning_init. unfold two_taps.
  change (seq 0 (Z.to_nat 2048)) with (0 :: 1 :: 2 :: seq 3 2045)%nat.
  cbn [map Np.zip_mul]. rewrite map_repeat.
  replace (to_float 0) with 0 by (unfold to_float; lra).
  replace (to_float 16384) with 0.5 by (unfold to_float; lra).
  replace (to_float (-16384)) with (- 0.5) by (unfold to_float; lra).
  rewrite zip_mul_zeros by now rewrite length_map, length_seq.
  replace (0 * Np.hann 2048 0) with 0 by ring.
  replace (-0.5 * Np.hann 2048 2) with (- (0.5 * Np.hann 2048 2)) by lra.
  reflexivity.
Qed.

Lemma length_two_taps : length two_taps = 2048%nat.
Proof.
  unfold two_taps. rewrite length_map. cbn [length].
  now rewrite repeat_length.
Qed.

Lemma two_taps_magnitude :
  let magnitude := fst (snapshot two_taps) in
  let top := (0.5 * Np.hann 2048 1 + 0.5 * Np.hann 2048 2) / 2048 in
  nth 1024 magnitude 0 = top
  /\ forall k, (k < 1024)%nat -> nth k magnitude 0 < top.
Proof.
  intros magnitude top.
  assert (Hu : 0 < 0.5 * Np.hann 2048 1)
    by (pose proof (hann_positive 1 ltac:(lia)); lra).
  assert (Hv : 0 < 0.5 * Np.hann 2048 2)
    by (pose proof (hann_positive 2 ltac:(lia)); lra).
  assert (Hbin : forall k, (k < 1025)%nat ->
            nth k magnitude 0
            = Np.Cabs (Np.dft_bin
                         (0 :: 0.5 * Np.hann 2048 1
                            :: - (0.5 * Np.hann 2048 2) :: repeat 0 2045) k)
              / 2048).
  { intros k Hk. unfold magnitude, snapshot. cbn [fst].
    rewrite nth_magnitude_of.
    - now rewrite two_taps_windowed.
    - now rewrite length_two_taps, length_hanning_init.
    - now rewrite length_hanning_init. }
  split.
  - rewrite Hbin by lia.
    rewrite two_taps_nyquist by (try lra; reflexivity). reflexivity.
  - intros k Hk. rewrite Hbin by lia. unfold top.
    apply Rmult_lt_compat_r; [lra|].
    apply two_taps_below_nyquist; try assumption. reflexivity.
Qed.

Lemma analyze_stores chunk a :
  configured a -> length chunk = 2048%nat ->
  let a' := recorded (fst (snapshot chunk)) (snd (snapshot chunk)) a in
  nth (Z.to_nat (current_pos a)) (freq_history a') []
  = firstn 1024 (fst (snapshot chunk))
  /\ nth (Z.to_nat (current_pos a)) (spec_history a') []
     = firstn 1024 (snd (snapshot chunk)).
Proof.
  intros (W & HF & Hd & Hw) Hlen a'.
  destruct (recorded_fields (snapshot chunk) a HF Hd) as (_ & Hf & Hs).
  fold a' in Hf, Hs. rewrite Hf, Hs.
  pose proof (sh_current a W). pose proof (sh_freq a W).
  pose proof (sh_spec a W).
  split; apply nth_replace_row_same; lia.
Qed.

(** C9, as the code has it. For a frame of 2048 samples, on any object a
    sequence of calls reaches: [rms] is the square root of the mean of the
    squares, and [peak] the maximum, of the magnitudes of all 1025 bins of
    the real-input transform, the last (Nyquist) bin included; the
    magnitudes and powers stored in the history are the first 1024 of
    them. The four values depend on the frame alone: another object gives
    the same ones. *)
Theorem rms_and_peak_over_all_bins
  (chunk : list R) (ops ops' : list op) :
  length chunk = 2048%nat ->
  let a := exec ops in
  let b := exec ops' in
  let magnitude := fst (snapshot chunk) in
  let power := snd (snapshot chunk) in
  exists r a' r' b',
    analyze chunk a = (Ret r, a', [])
    /\ analyze chunk b = (Ret r', b', [])
    /\ length magnitude = 1025%nat
    /\ rms r = sqrt (Np.mean (Np.square magnitude))
    /\ Np.max magnitude = Np.Ok (peak r)
    /\ nth (Z.to_nat (current_pos a)) (freq_history a') []
       = firstn 1024 magnitude
    /\ nth (Z.to_nat (current_pos a)) (spec_history a') []
       = firstn 1024 power
    /\ length (firstn 1024 magnitude) = 1024%nat
    /\ spectral chunk (window a) (fft_size a) = Np.Ok (magnitude, power)
    /\ spectral chunk (window b) (fft_size b) = Np.Ok (magnitude, power)
    /\ rms r' = rms r
    /\ peak r' = peak r
    /\ nth (Z.to_nat (current_pos b)) (freq_history b') []
       = nth (Z.to_nat (current_pos a)) (freq_history a') []
    /\ nth (Z.to_nat (current_pos b)) (spec_history b') []
       = nth (Z.to_nat (current_pos a)) (spec_history a') [].
Proof.
  intros Hlen a b magnitude power.
  pose proof (exec_configured ops) as Ca. fold a in Ca.
  pose proof (exec_configured ops') as Cb. fold b in Cb.
  destruct (snapshot_well_sized chunk Hlen) as [Hm Hp].
  destruct (analyze_stores chunk a Ca Hlen) as [Hfa Hsa].
  destruct (analyze_stores chunk b Cb Hlen) as [Hfb Hsb].
  assert (Hsp : forall c, configured c ->
            spectral chunk (window c) (fft_size c) = Np.Ok (magnitude, power)).
  { intros c (_ & HF & _ & Hw). rewrite HF, Hw. apply spectral_run.
    - now rewrite length_hanning_init.
    - intros E. pose proof length_hanning_init as Hl. rewrite E in Hl.
      discriminate. }
  eexists _, _, _, _.
  split; [now apply analyze_configured|].
  split; [now apply analyze_configured|].
  split; [exact Hm|]. split; [reflexivity|].
  split.
  { cbn [published peak]. apply NpFacts.max_nonempty.
    intros E. unfold magnitude in E. rewrite E in Hm. discriminate. }
  split; [exact Hfa|]. split; [exact Hsa|].
  split; [unfold magnitude; rewrite length_firstn, Hm; reflexivity|].
  split; [now apply Hsp|]. split; [now apply Hsp|].
  split; [reflexivity|]. split; [reflexivity|].
  split; [now rewrite Hfa, Hfb | now rewrite Hsa, Hsb].
Qed.

Lemma rms_and_peak_witness :
  let chunk := two_taps in
  let ops := [Push (repeat 3%Z 2048); Cycle] in
  let ops' := @nil op in
  let a := exec ops in
  let b := exec ops' in
  let magnitude := fst (snapshot chunk) in
  let power := snd (snapshot chunk) in
  length chunk = 2048%nat
  /\ exists r a' r' b',
       analyze chunk a = (Ret r, a', [])
       /\ analyze chunk b = (Ret r', b', [])
       /\ length magnitude = 1025%nat
       /\ rms r = sqrt (Np.mean (Np.square magnitude))
       /\ Np.max magnitude = Np.Ok (peak r)
       /\ nth (Z.to_nat (current_pos a)) (freq_history a') []
          = firstn 1024 magnitude
       /\ nth (Z.to_nat (current_pos a)) (spec_history a') []
          = firstn 1024 power
       /\ length (firstn 1024 magnitude) = 1024%nat
       /\ spectral chunk (window a) (fft_size a) = Np.Ok (magnitude, power)
       /\ spectral chunk (window b) (fft_size b) = Np.Ok (magnitude, power)
       /\ rms r' = rms r
       /\ peak r' = peak r
       /\ nth (Z.to_nat (current_pos b)) (freq_history b') []
          = nth (Z.to_nat (current_pos a)) (freq_history a') []
       /\ nth (Z.to_nat (current_pos b)) (spec_history b') []
          = nth (Z.to_nat (current_pos a)) (spec_history a') [].
Proof.
  intros chunk ops ops' a b magnitude power.
  split; [exact length_two_taps|].
  exact (rms_and_peak_over_all_bins chunk ops ops' length_two_taps).
Defined.

(** C9, as the spec words it, fails. For the frame [two_taps] the peak the
    analyzer publishes is the magnitude of the Nyquist bin, which is not
    among the 1024 magnitudes of the stored snapshot and is greater than
    each of them: [peak] is not the maximum of the snapshot's magnitude
    array. *)
Lemma peak_is_not_max_of_stored_magnitudes :
  exists r a' stored_max,
    analyze two_taps init = (Ret r, a', [])
    /\ length (nth 0 (freq_history a') []) = 1024%nat
    /\ nth 0 (freq_history a') [] = firstn 1024 (fst (snapshot two_taps))
    /\ Np.max (nth 0 (freq_history a') []) = Np.Ok stored_max
    /\ stored_max < peak r
    /\ peak r <> stored_max.
Proof.
  pose proof (exec_configured []) as C. change (exec []) with init in C.
  pose proof length_two_taps as Hlen.
  destruct (snapshot_well_sized two_taps Hlen) as [Hm _].
  destruct (analyze_stores two_taps init C Hlen) as [Hrow _].
  change (Z.to_nat (current_pos init)) with 0%nat in Hrow.
  destruct two_taps_magnitude as [Htop Hbelow].
  set (a' := recorded (fst (snapshot two_taps)) (snd (snapshot two_taps)) init)
    in *.
  set (magnitude := fst (snapshot two_taps)) in *.
  set (top := (0.5 * Np.hann 2048 1 + 0.5 * Np.hann 2048 2) / 2048) in *.
  assert (Hrowlen : length (firstn 1024 magnitude) = 1024%nat)
    by (rewrite length_firstn, Hm; reflexivity).
  assert (Hne : firstn 1024 magnitude <> [])
    by (intros E; rewrite E in Hrowlen; discriminate).
  assert (Hin : forall y, In y (firstn 1024 magnitude) -> y < top).
  { intros y Hy. apply (In_nth _ _ 0) in Hy.
    destruct Hy as (k & Hk & <-). rewrite Hrowlen in Hk.
    rewrite nth_firstn. destruct (Nat.ltb_spec k 1024); [|lia].
    now apply Hbelow. }
  assert (Hstored : fold_left Rmax (tl (firstn 1024 magnitude))
                      (hd 0 (firstn 1024 magnitude)) < top).
  { destruct (firstn 1024 magnitude) as [|x l]; [congruence|].
    cbn [hd tl]. apply fold_left_Rmax_lt.
    - apply Hin. now left.
    - intros y Hy. apply Hin. now right. }
  assert (Hpeak : top <= fold_left Rmax (tl magnitude) (hd 0 magnitude)).
  { rewrite <- Htop. destruct magnitude as [|x l]; [discriminate|].
    cbn [hd tl nth]. apply fold_left_Rmax_ge. apply nth_In.
    cbn [length] in Hm. lia. }
  exists (published magnitude a'), a',
    (fold_left Rmax (tl (firstn 1024 magnitude)) (hd 0 (firstn 1024 magnitude))).
  split; [now apply analyze_configured|].
  rewrite Hrow. split; [exact Hrowlen|]. split; [reflexivity|].
  split; [now apply NpFacts.max_nonempty|].
  cbn [published peak]. split; lra.
Qed.

Lemma buffer_bounded_fifo_witness :
  let ops := [Push (repeat 5 2048); Push (repeat 6 3000); Cycle]%Z in
  let a := exec ops in
  (0 <= occupancy a <= capacity a)%Z
  /\ accepted init ops = concat (consumed init ops) ++ contents a
  /\ occupancy (step a (Push (repeat 1%Z 5000))) = occupancy a.
Proof.
  intros ops a.
  destruct (buffer_bounded_fifo ops) as (_ & Hcap & Hocc & Hfifo & _ & Hrej).
  fold a in Hcap, Hocc, Hfifo, Hrej.
  split; [exact Hocc|]. split; [exact Hfifo|].
  apply Hrej. rewrite repeat_length.
  destruct (exec_config ops) as (_ & _ & _ & Hc). fold a in Hc.
  rewrite Hc. lia.
Defined.

(** * Further properties of the analyzer *)

(** ** Stopping *)

Definition set_running (r : bool) (a : AudioAnalyzer) :=
  mkAnalyzer (sample_rate a) (fft_size a) (history_size a) (freq_history a)
    (spec_history a) (current_pos a) (audio_buffer a) (buffer_pos a)
    (window a) (mutex a) r.

(** [stop_analysis] (lines 103-105). [self.wait()] returns once the worker
    thread has left [run]; it assigns nothing. *)
Definition stop_analysis : M pyvalue :=
  (modify (set_running false) ;; ret PyNone)%py.

(** What the application calls on the analyzer: [process_audio] from the
    audio probe, [start()] (the thread then executes [run], observed here
    for at most [fuel] iterations) and [stop_analysis]. *)
Inductive call : Type :=
| CallPush (samples : list Z)
| CallStart (fuel : nat)
| CallStop.

Definition perform_one (c : call) (a : AudioAnalyzer)
  : AudioAnalyzer * list event :=
  match c with
  | CallPush samples =>
      (state_of (process_audio (whole samples) a), trace_of (process_audio (whole samples) a))
  | CallStart fuel => (state_of (run fuel a), trace_of (run fuel a))
  | CallStop => (state_of (stop_analysis a), trace_of (stop_analysis a))
  end.

(** The object after the calls [cs], and everything they logged. *)
Fixpoint perform (cs : list call) (a : AudioAnalyzer)
  : AudioAnalyzer * list event :=
  match cs with
  | [] => (a, [])
  | c :: cs' =>
      let '(a1, t1) := perform_one c a in
      let '(a2, t2) := perform cs' a1 in
      (a2, t1 ++ t2)
  end.

Lemma run_stopped fuel a :
  running a = false -> run fuel a = (Ret tt, a, []).
Proof.
  intros Hr. destruct fuel as [|fuel]; [reflexivity|].
  cbn [run]. unfold bind, get. rewrite Hr. reflexivity.
Qed.

Lemma emitted_app t1 t2 : emitted (t1 ++ t2) = emitted t1 ++ emitted t2.
Proof.
  induction t1 as [|e t1 IH]; [reflexivity|].
  destruct e; cbn [app emitted]; rewrite IH; reflexivity.
Qed.

Lemma pushed_keeps samples a :
  running (pushed samples a) = running a
  /\ freq_history (pushed samples a) = freq_history a
  /\ spec_history (pushed samples a) = spec_history a
  /\ current_pos (pushed samples a) = current_pos a.
Proof. unfold pushed. destruct (_ <=? _)%Z; repeat split. Qed.

Lemma pushed_occupancy samples a :
  (occupancy a <= occupancy (pushed samples a))%Z.
Proof.
  unfold pushed, occupancy. destruct (_ <=? _)%Z; fields; lia.
Qed.

Lemma wf_set_running r a : wf a -> wf (set_running r a).
Proof.
  intros [[] Hm]. split; [constructor; assumption | exact Hm].
Qed.

Lemma perform_stopped cs a :
  wf a -> running a = false ->
  let a' := fst (perform cs a) in
  wf a'
  /\ running a' = false
  /\ emitted (snd (perform cs a)) = []
  /\ freq_history a' = freq_history a
  /\ spec_history a' = spec_history a
  /\ current_pos a' = current_pos a
  /\ (occupancy a <= occupancy a')%Z.
Proof.
  revert a. induction cs as [|c cs IH]; intros a W Hr.
  - cbn. repeat split; try assumption; try apply W. lia.
  - cbn [perform].
    assert (H1 : let a1 := fst (perform_one c a) in
                 wf a1 /\ running a1 = false
                 /\ emitted (snd (perform_one c a)) = []
                 /\ freq_history a1 = freq_history a
                 /\ spec_history a1 = spec_history a
                 /\ current_pos a1 = current_pos a
                 /\ (occupancy a <= occupancy a1)%Z).
    { destruct c as [samples|fuel|]; cbn [perform_one fst snd].
      - rewrite process_audio_run by assumption.
        unfold state_of, trace_of; fields.
        destruct (pushed_keeps samples a) as (Hk1 & Hk2 & Hk3 & Hk4).
        split; [now apply pushed_wf|]. split; [now rewrite Hk1|].
        split; [reflexivity|]. split; [exact Hk2|]. split; [exact Hk3|].
        split; [exact Hk4 | apply pushed_occupancy].
      - rewrite run_stopped by assumption. unfold state_of, trace_of; fields.
        repeat split; try assumption; try apply W. lia.
      - unfold stop_analysis. run_monad. fields.
        split; [now apply wf_set_running|]. repeat split. unfold occupancy.
        cbn. lia. }
    destruct (perform_one c a) as [a1 t1]. cbn [fst snd] in H1.
    destruct H1 as (W1 & Hr1 & He1 & Hf1 & Hs1 & Hc1 & Ho1).
    specialize (IH a1 W1 Hr1). destruct (perform cs a1) as [a2 t2].
    cbn [fst snd] in *. destruct IH as (W2 & Hr2 & He2 & Hf2 & Hs2 & Hc2 & Ho2).
    split; [exact W2|]. split; [exact Hr2|].
    split; [now rewrite emitted_app, He1, He2|].
    split; [now rewrite Hf2|]. split; [now rewrite Hs2|].
    split; [now rewrite Hc2 | lia].
Qed.

(** X1. Stopping is for good. After [stop_analysis], whatever the
    application calls next, [start()] included, the analyzer emits no
    result and records nothing: [running] stays cleared, since nothing sets
    it again, so [run] leaves at its first test. The buffer only fills. *)
Theorem stop_analysis_is_permanent (ops : list op) (cs : list call) :
  let stopped := state_of (stop_analysis (exec ops)) in
  let after := fst (perform cs stopped) in
  outcome_of (stop_analysis (exec ops)) = Ret PyNone
  /\ running after = false
  /\ emitted (snd (perform cs stopped)) = []
  /\ freq_history after = freq_history (exec ops)
  /\ spec_history after = spec_history (exec ops)
  /\ current_pos after = current_pos (exec ops)
  /\ (occupancy (exec ops) <= occupancy after <= capacity after)%Z.
Proof.
  intros stopped after.
  assert (W : wf stopped) by (apply wf_set_running, exec_wf).
  destruct (perform_stopped cs stopped W eq_refl)
    as (W' & Hr & He & Hf & Hs & Hc & Ho).
  fold after in W', Hr, Hf, Hs, Hc, Ho.
  split; [reflexivity|]. split; [exact Hr|]. split; [exact He|].
  split; [exact Hf|]. split; [exact Hs|]. split; [exact Hc|].
  split; [exact Ho|].
  pose proof (sh_pos _ (wf_shape _ W')). pose proof (sh_buffer _ (wf_shape _ W')).
  unfold occupancy, capacity. lia.
Qed.

(** ** Results and frames *)

(** The results emitted along [ops], from the object [a] on, oldest first. *)
Fixpoint results (a : AudioAnalyzer) (ops : list op) : list AnalysisResult :=
  match ops with
  | [] => []
  | o :: ops' =>
      match o with
      | Push samples => emitted (trace_of (process_audio (whole samples) a))
      | Cycle => emitted (trace_of (run_iteration a))
      end ++ results (step a o) ops'
  end.

(** The RMS and the peak of a result are those of the frame [f]. *)
Definition measures (r : AnalysisResult) (f : list R) : Prop :=
  rms r = sqrt (Np.mean (Np.square (fst (snapshot f))))
  /\ Np.max (fst (snapshot f)) = Np.Ok (peak r).

Lemma step_configured a o : wf a -> configured a -> configured (step a o).
Proof.
  intros W (_ & HF & Hd & Hw).
  destruct (step_config a o W) as (HF' & Hd' & Hw' & _).
  split; [apply (wf_shape _ (step_wf a o W))|].
  split; [now rewrite HF'|]. split; [now rewrite Hd' | now rewrite Hw'].
Qed.

Lemma cycle_result_measures a :
  wf a -> configured a -> (fft_size a <= buffer_pos a)%Z ->
  measures (cycle_result a) (oldest_frame a).
Proof.
  intros [W _] (_ & HF & _ & Hw) Hp.
  destruct (popped_contents a W Hp) as (_ & _ & _ & Hlen).
  assert (Hl : length (oldest_frame a) = 2048%nat) by (rewrite HF in Hlen; lia).
  destruct (snapshot_well_sized _ Hl) as [Hm _].
  unfold measures, cycle_result, result_of, published.
  cbn [rms peak]. change (window (popped a)) with (window a).
  change (fft_size (popped a)) with (fft_size a). rewrite HF, Hw.
  change (magnitude_of (Np.hanning 2048) 2048 (oldest_frame a))
    with (fst (snapshot (oldest_frame a))).
  split; [reflexivity|]. apply NpFacts.max_nonempty.
  intros E. rewrite E in Hm. discriminate.
Qed.

Lemma results_from a ops :
  wf a -> configured a -> Forall2 measures (results a ops) (consumed a ops).
Proof.
  revert a. induction ops as [|o ops IH]; intros a W C; [constructor|].
  cbn [results consumed]. apply Forall2_app.
  - destruct o as [samples|].
    + rewrite process_audio_run by assumption. constructor.
    + rewrite run_iteration_run, taken_run by assumption.
      unfold trace_of; fields.
      destruct (Z.leb_spec (fft_size a) (buffer_pos a)) as [Hp|Hp].
      * cbn [emitted]. constructor; [|constructor].
        now apply cycle_result_measures.
      * constructor.
  - apply IH; [now apply step_wf | now apply step_configured].
Qed.

(** X2. Results come one per frame and in order. Along every sequence of
    [process_audio] calls and loop iterations on a fresh analyzer, the
    [i]-th result emitted carries the RMS and the peak of the [i]-th frame
    taken out of the buffer; [process_audio] emits nothing, and an
    iteration emits a result exactly when it takes a frame. *)
Theorem results_follow_frames (ops : list op) :
  Forall2 measures (results init ops) (consumed init ops)
  /\ length (results init ops) = length (consumed init ops).
Proof.
  pose proof (exec_configured []) as C. change (exec []) with init in C.
  pose proof (results_from init ops init_wf C) as H.
  split; [exact H|]. eapply Forall2_length; eassumption.
Qed.

(** ** Bounds on the published values *)

Lemma Cabs_nonneg z : 0 <= Np.Cabs z.
Proof. apply sqrt_pos. Qed.

Lemma magnitude_of_nonneg w chunk :
  Forall (fun v => 0 <= v) (magnitude_of w 2048 chunk).
Proof.
  unfold magnitude_of, Np.div_scalar, Np.abs. rewrite map_map.
  apply Forall_forall. intros v Hv. apply in_map_iff in Hv.
  destruct Hv as (z & <- & _). pose proof (Cabs_nonneg z).
  apply Rmult_le_pos; [assumption|]. apply Rlt_le, Rinv_0_lt_compat. lra.
Qed.

Lemma fold_left_Rmax_in (l : list R) (x : R) :
  fold_left Rmax l x = x \/ In (fold_left Rmax l x) l.
Proof.
  revert x. induction l as [|y l IH]; intros x; [now left|].
  cbn [fold_left]. destruct (IH (Rmax x y)) as [E|Hin].
  - rewrite E. unfold Rmax. destruct (Rle_dec x y); [right; now left | now left].
  - right. now right.
Qed.

Lemma sum_squares_bound (m : list R) (pk : R) :
  (forall y, In y m -> 0 <= y <= pk) ->
  Np.sum (Np.square m) <= INR (length m) * (pk * pk).
Proof.
  induction m as [|y m IH]; intros H.
  - simpl. lra.
  - cbn [Np.square map Np.sum fold_right length]. rewrite S_INR.
    assert (Hy : 0 <= y <= pk) by (apply H; now left).
    assert (Hm : Np.sum (Np.square m) <= INR (length m) * (pk * pk))
      by (apply IH; intros z Hz; apply H; now right).
    unfold Np.sum, Np.square in Hm. nra.
Qed.

Lemma rms_le_bound (m : list R) (b : R) :
  m <> [] -> Forall (fun v => 0 <= v <= b) m ->
  0 <= sqrt (Np.mean (Np.square m)) <= b.
Proof.
  intros Hne Hall. split; [apply sqrt_pos|].
  rewrite Forall_forall in Hall.
  destruct m as [|x l]; [congruence|].
  assert (Hb0 : 0 <= b) by (destruct (Hall x (or_introl eq_refl)); lra).
  rewrite <- (sqrt_square b) by assumption.
  apply sqrt_le_1_alt. unfold Np.mean.
  pose proof (sum_squares_bound (x :: l) b Hall) as Hs.
  assert (Hn : 0 < INR (length (Np.square (x :: l)))).
  { unfold Np.square. rewrite length_map. apply lt_0_INR. cbn. lia. }
  unfold Np.square in Hn |- *. rewrite length_map in Hn |- *.
  apply Rmult_le_reg_r with (INR (length (x :: l))); [assumption|].
  unfold Rdiv. rewrite Rmult_assoc, Rinv_l by lra. unfold Np.square in Hs.
  lra.
Qed.

Lemma peak_nonneg (m : list R) :
  m <> [] -> Forall (fun v => 0 <= v) m ->
  0 <= fold_left Rmax (tl m) (hd 0 m).
Proof.
  intros Hne Hpos. destruct m as [|x l]; [congruence|]. cbn [hd tl].
  inversion Hpos as [|? ? Hx _]; subst.
  apply Rle_trans with x; [exact Hx | apply fold_left_Rmax_ge_init].
Qed.

(** X3. In every result the analyzer emits, on any object a sequence of
    calls reaches, the RMS and the peak are at least zero. *)
Theorem rms_and_peak_not_negative (ops : list op) :
  Forall (fun r => 0 <= rms r /\ 0 <= peak r)
    (emitted (trace_of (run_iteration (exec ops)))).
Proof.
  pose proof (exec_wf ops) as W. pose proof (exec_configured ops) as C.
  set (a := exec ops) in *.
  rewrite run_iteration_run by assumption. unfold trace_of; fields.
  destruct (Z.leb_spec (fft_size a) (buffer_pos a)) as [Hp|Hp];
    [|constructor].
  cbn [emitted]. constructor; [|constructor].
  destruct (cycle_result_measures a W C Hp) as [Hr Hk].
  set (m := fst (snapshot (oldest_frame a))) in *.
  assert (Hne : m <> []) by (intros E; rewrite E in Hk; discriminate).
  rewrite (NpFacts.max_nonempty m Hne) in Hk.
  assert (Hk' : peak (cycle_result a) = fold_left Rmax (tl m) (hd 0 m))
    by congruence.
  rewrite Hr, Hk'. split; [apply sqrt_pos|].
  apply peak_nonneg; [exact Hne | apply magnitude_of_nonneg].
Qed.

(** Every stored magnitude is at least zero and every stored power at least
    the floor. *)
Definition bounded_history (a : AudioAnalyzer) : Prop :=
  Forall (Forall (fun v => 0 <= v)) (freq_history a)
  /\ Forall (Forall (fun v => -240 <= v)) (spec_history a).

Lemma power_of_floor w chunk :
  Forall (fun v => -240 <= v) (power_of w 2048 chunk).
Proof.
  unfold power_of, Np.scale, Np.log10, Np.add_scalar. rewrite !map_map.
  apply Forall_forall. intros v Hv. apply in_map_iff in Hv.
  destruct Hv as (m & <- & Hm).
  pose proof (magnitude_of_nonneg w chunk) as Hpos.
  rewrite Forall_forall in Hpos. specialize (Hpos m Hm).
  rewrite <- floor_value.
  assert (Hln : 0 < ln 10) by (rewrite <- ln_1; apply ln_increasing; lra).
  assert (Hle : ln 1e-12 <= ln (m + 1e-12)).
  { destruct (Req_dec m 0) as [->|Hne].
    - rewrite Rplus_0_l. apply Rle_refl.
    - apply Rlt_le, ln_increasing; lra. }
  unfold Np.log10r. apply Rmult_le_compat_l; [lra|].
  apply Rmult_le_compat_r; [|exact Hle].
  apply Rlt_le, Rinv_0_lt_compat, Hln.
Qed.

Lemma Forall_firstn_keeps {A} (P : A -> Prop) (n : nat) (l : list A) :
  Forall P l -> Forall P (firstn n l).
Proof.
  intros H. rewrite Forall_forall in *. intros x Hx. apply H.
  rewrite <- (firstn_skipn n l). apply in_or_app. now left.
Qed.

Lemma init_bounded : bounded_history init.
Proof.
  split; apply Forall_forall; intros row Hrow; apply repeat_spec in Hrow;
    subst row; apply Forall_forall; intros v Hv; apply repeat_spec in Hv;
    subst v; lra.
Qed.

Lemma analyzed_bounded chunk a :
  fft_size a = 2048%Z ->
  bounded_history a -> bounded_history (analyzed chunk a).
Proof.
  intros HF [Hf Hs]. unfold analyzed, recorded, bounded_history. fields.
  rewrite HF. split; apply Forall_replace_row; try assumption;
    apply Forall_firstn_keeps;
    [apply magnitude_of_nonneg | apply power_of_floor].
Qed.

Lemma step_bounded a o :
  wf a -> configured a -> bounded_history a -> bounded_history (step a o).
Proof.
  intros W (_ & HF & _) B. rewrite step_run by assumption. destruct o.
  - destruct (pushed_keeps samples a) as (_ & Hf & Hs & _).
    unfold bounded_history. now rewrite Hf, Hs.
  - unfold cycled. destruct (_ <=? _)%Z; [|assumption].
    now apply analyzed_bounded.
Qed.

Lemma exec_bounded ops : bounded_history (exec ops).
Proof.
  induction ops as [|o ops IH] using rev_ind; [exact init_bounded|].
  rewrite exec_snoc.
  apply step_bounded; [apply exec_wf | apply exec_configured | exact IH].
Qed.

Lemma sum_lower_bound (c : R) (l : list R) :
  Forall (fun v => c <= v) l -> INR (length l) * c <= Np.sum l.
Proof.
  induction 1 as [|v l Hv Hl IH].
  - simpl. lra.
  - cbn [length Np.sum fold_right]. rewrite S_INR. unfold Np.sum in IH. lra.
Qed.

Lemma mean_axis0_lower_bound (c : R) (h : list (list R)) (cols : nat) :
  h <> [] ->
  Forall (fun row => length row = cols) h ->
  Forall (Forall (fun v => c <= v)) h ->
  Forall (fun v => c <= v) (Np.mean_axis0 h) /\ length (Np.mean_axis0 h) = cols.
Proof.
  intros Hne Hlen Hall.
  assert (Hhd : length (hd [] h) = cols).
  { destruct h as [|row h]; [congruence|]. now inversion Hlen. }
  unfold Np.mean_axis0. rewrite Hhd. split; [|now rewrite length_map, length_seq].
  apply Forall_forall. intros v Hv. apply in_map_iff in Hv.
  destruct Hv as (j & <- & Hj). apply in_seq in Hj.
  assert (Hcol : Forall (fun v => c <= v) (Np.column h j)).
  { unfold Np.column. apply Forall_forall. intros v Hv.
    apply in_map_iff in Hv. destruct Hv as (row & <- & Hrow).
    rewrite Forall_forall in Hlen, Hall.
    specialize (Hall row Hrow). rewrite Forall_forall in Hall. apply Hall.
    apply nth_In. rewrite (Hlen row Hrow). lia. }
  pose proof (sum_lower_bound c _ Hcol) as Hsum.
  unfold Np.mean.
  assert (Hn : 0 < INR (length (Np.column h j))).
  { unfold Np.column. rewrite length_map. apply lt_0_INR.
    destruct h; [congruence | cbn; lia]. }
  apply Rmult_le_reg_r with (INR (length (Np.column h j))); [assumption|].
  unfold Rdiv. rewrite Rmult_assoc, Rinv_l by lra. lra.
Qed.

(** X4. No published value is below its floor. In every result the
    analyzer emits, on any object a sequence of calls reaches, [spectrum]
    and [spectrogram] have 1024 values each, every [spectrum] value is at
    least zero and every [spectrogram] value at least -240, the power of a
    zero magnitude. *)
Theorem published_values_have_floors (ops : list op) :
  Forall (fun r =>
            length (spectrum r) = 1024%nat
            /\ length (spectrogram r) = 1024%nat
            /\ Forall (fun v => 0 <= v) (spectrum r)
            /\ Forall (fun v => -240 <= v) (spectrogram r))
    (emitted (trace_of (run_iteration (exec ops)))).
Proof.
  pose proof (exec_wf ops) as W. pose proof (exec_configured ops) as C.
  pose proof (exec_bounded ops) as B.
  set (a := exec ops) in *.
  rewrite run_iteration_run by assumption. unfold trace_of; fields.
  destruct (Z.leb_spec (fft_size a) (buffer_pos a)) as [Hp|Hp];
    [|constructor].
  cbn [emitted]. constructor; [|constructor].
  destruct C as (Ws & HF & Hd & Hw).
  pose proof (popped_shaped a Ws Hp) as Wp.
  destruct (popped_contents a Ws Hp) as (_ & _ & _ & Hlen).
  pose proof (analyzed_shaped (oldest_frame a) (popped a) Wp Hlen) as Wa.
  assert (Ba : bounded_history (analyzed (oldest_frame a) (popped a))).
  { apply analyzed_bounded; [exact HF | exact B]. }
  set (a' := analyzed (oldest_frame a) (popped a)) in *.
  assert (HF' : fft_size a' = 2048%Z) by exact HF.
  assert (Hd' : history_size a' = 20%Z) by exact Hd.
  assert (Hrows : forall h : list (list R),
            Z.of_nat (length h) = history_size a' ->
            Forall (fun row => Z.of_nat (length row) = (fft_size a' / 2)%Z) h ->
            h <> [] /\ Forall (fun row => length row = 1024%nat) h).
  { intros h Hh Hr. rewrite Hd' in Hh. rewrite HF' in Hr. split.
    - intros E. rewrite E in Hh. discriminate.
    - eapply Forall_impl; [|exact Hr]. cbv beta. intros row Hrow.
      change (2048 / 2)%Z with 1024%Z in Hrow. lia. }
  destruct (Hrows _ (sh_freq _ Wa) (sh_freq_rows _ Wa)) as [Hf1 Hf2].
  destruct (Hrows _ (sh_spec _ Wa) (sh_spec_rows _ Wa)) as [Hs1 Hs2].
  destruct Ba as [Bf Bs].
  destruct (mean_axis0_lower_bound 0 _ 1024 Hf1 Hf2 Bf) as [Hfb Hfl].
  destruct (mean_axis0_lower_bound (-240) _ 1024 Hs1 Hs2 Bs) as [Hsb Hsl].
  unfold cycle_result, result_of, published. cbn [spectrum spectrogram].
  fold a'. repeat split; assumption.
Qed.

(** ** The history once it is full *)

(** Read from the rotating index on, a full history lists the last twenty
    snapshots, oldest first. *)
Lemma history_recent (snaps : list (list R * list R)) (a : AudioAnalyzer) :
  configured a -> Forall well_sized snaps -> (20 <= length snaps)%nat ->
  let a' := recorded_all snaps a in
  let c' := Z.to_nat (current_pos a') in
  let recent := skipn (length snaps - 20) snaps in
  skipn c' (freq_history a') ++ firstn c' (freq_history a')
  = map (fun s => firstn 1024 (fst s)) recent
  /\ skipn c' (spec_history a') ++ firstn c' (spec_history a')
     = map (fun s => firstn 1024 (snd s)) recent.
Proof.
  intros C Hall Hn a' c' recent.
  destruct (record_all_run snaps a C Hall) as [_ (W' & _ & Hd' & _)].
  destruct (recorded_all_history snaps a C Hall) as (Hc & Hw & _).
  fold a' in W', Hd', Hc, Hw.
  destruct C as (W & _ & Hd & _).
  pose proof (sh_current a W) as Hcur. rewrite Hd in Hcur.
  pose proof (sh_current a' W') as Hcur'. rewrite Hd' in Hcur'.
  pose proof (sh_freq _ W') as Hlf. pose proof (sh_spec _ W') as Hls.
  rewrite Hd' in Hlf, Hls.
  assert (Hrec : length recent = 20%nat)
    by (unfold recent; rewrite length_skipn; lia).
  assert (Hrot : forall (h : list (list R)) (t : nat),
            length h = 20%nat -> (t < 20)%nat ->
            nth t (skipn c' h ++ firstn c' h) []
            = nth (Z.to_nat ((current_pos a' + Z.of_nat t) mod 20)) h []).
  { intros h t Hh Ht.
    destruct (Nat.lt_ge_cases t (20 - c')) as [Hlt|Hge].
    - rewrite app_nth1 by (rewrite length_skipn; lia).
      rewrite nth_skipn. f_equal. unfold c'.
      rewrite Z.mod_small by lia. lia.
    - rewrite app_nth2 by (rewrite length_skipn; lia).
      rewrite length_skipn, nth_firstn.
      destruct (Nat.ltb_spec (t - (length h - c')) c'); [|lia].
      f_equal. unfold c' in *.
      replace ((current_pos a' + Z.of_nat t) mod 20)%Z
        with (current_pos a' + Z.of_nat t - 20)%Z by mod_lia.
      lia. }
  assert (Hrows : forall t : nat, (t < 20)%nat ->
            nth t (skipn c' (freq_history a') ++ firstn c' (freq_history a')) []
            = nth t (map (fun s => firstn 1024 (fst s)) recent) []
            /\ nth t (skipn c' (spec_history a') ++ firstn c' (spec_history a')) []
               = nth t (map (fun s => firstn 1024 (snd s)) recent) []).
  { intros t Ht. rewrite !Hrot by lia.
    set (n := Z.of_nat (length snaps)) in *.
    destruct (Hw (n - 20 + Z.of_nat t)%Z ltac:(lia) ltac:(lia)) as [H1 H2].
    assert (Hs : slot (current_pos a + (n - 20 + Z.of_nat t))
                 = Z.to_nat ((current_pos a' + Z.of_nat t) mod 20)).
    { unfold slot. f_equal. rewrite Hc. mod_lia. }
    rewrite Hs in H1, H2. rewrite H1, H2.
    rewrite (nth_map_lt (fun s => firstn 1024 (fst s)) _ _ _ (@nil R, @nil R))
      by lia.
    rewrite (nth_map_lt (fun s => firstn 1024 (snd s)) _ _ _ (@nil R, @nil R))
      by lia.
    unfold recent. rewrite nth_skipn.
    replace (Z.to_nat (n - 20 + Z.of_nat t)) with (length snaps - 20 + t)%nat
      by lia.
    split; reflexivity. }
  split; apply (nth_ext _ _ [] []);
    try (rewrite length_app, length_skipn, length_firstn, length_map; lia);
    intros t Ht; rewrite length_app, length_skipn, length_firstn in Ht;
    apply Hrows; lia.
Qed.

Lemma column_rotated (h : list (list R)) (c j : nat) :
  Np.sum (Np.column (skipn c h ++ firstn c h) j) = Np.sum (Np.column h j).
Proof.
  rewrite <- (firstn_skipn c h) at 3. unfold Np.column.
  rewrite !map_app, !sum_app. lra.
Qed.

Lemma mean_axis0_rotated (h : list (list R)) (c : nat) :
  length h = 20%nat -> length (hd [] h) = 1024%nat ->
  Np.mean_axis0 h
  = map (fun j => Np.sum (Np.column (skipn c h ++ firstn c h) j) / 20)
      (seq 0 1024).
Proof.
  intros Hlen Hhd. unfold Np.mean_axis0. rewrite Hhd. apply map_ext.
  intros j. unfold Np.mean. rewrite column_rotated.
  unfold Np.column at 2. now rewrite length_map, Hlen, INR_20.
Qed.

(** X5. Once twenty frames are in, the zero rows are gone. From any object
    a sequence of calls reaches, after the frames [frames] and then [f],
    twenty or more in all, the published [spectrum] and [spectrogram] are,
    bin by bin, the mean of the magnitudes (powers) of the last twenty
    frames and of nothing else. *)
Theorem published_mean_of_last_twenty
  (ops : list op) (frames : list (list R)) (f : list R) :
  Forall (fun c => length c = 2048%nat) (frames ++ [f]) ->
  (19 <= length frames)%nat ->
  let recent := skipn (length frames - 19) frames ++ [f] in
  let mags := map (fun c => fst (snapshot c)) recent in
  let pows := map (fun c => snd (snapshot c)) recent in
  exists rs a1 r a2,
    analyze_all frames (exec ops) = (Ret rs, a1, [])
    /\ analyze f a1 = (Ret r, a2, [])
    /\ length recent = 20%nat
    /\ spectrum r
       = map (fun j => Np.sum (Np.column mags j) / 20) (seq 0 1024)
    /\ spectrogram r
       = map (fun j => Np.sum (Np.column pows j) / 20) (seq 0 1024).
Proof.
  intros Hall Hk recent mags pows.
  pose proof (exec_configured ops) as C.
  pose proof Hall as Hall0.
  apply Forall_app in Hall. destruct Hall as [Hframes Hf].
  inversion Hf as [|? ? Hlen _]; subst.
  destruct (analyze_all_run frames _ C Hframes) as [rs Hrs].
  assert (Hsized : Forall well_sized (map snapshot (frames ++ [f]))).
  { apply Forall_forall. intros s Hs. apply in_map_iff in Hs.
    destruct Hs as (c & <- & Hc). apply snapshot_well_sized.
    rewrite Forall_forall in Hall0. now apply Hall0. }
  assert (Hsized' : Forall well_sized (map snapshot frames)).
  { rewrite map_app in Hsized. now apply Forall_app in Hsized. }
  destruct (record_all_run _ _ C Hsized') as [_ C1].
  set (a1 := recorded_all (map snapshot frames) (exec ops)) in *.
  set (a2 := recorded (fst (snapshot f)) (snd (snapshot f)) a1).
  assert (Ha2 : a2 = recorded_all (map snapshot (frames ++ [f])) (exec ops)).
  { unfold a2, a1, recorded_all. rewrite map_app, fold_left_app. reflexivity. }
  destruct (record_all_run _ _ C Hsized) as [_ (W2 & HF2 & Hd2 & _)].
  rewrite <- Ha2 in W2, HF2, Hd2.
  assert (Hn : (20 <= length (map snapshot (frames ++ [f])))%nat)
    by (rewrite length_map, length_app; cbn [length]; lia).
  destruct (history_recent _ _ C Hsized Hn) as [Hfh Hsh].
  rewrite <- Ha2 in Hfh, Hsh.
  assert (Hrecent : skipn (length (map snapshot (frames ++ [f])) - 20)
                      (map snapshot (frames ++ [f]))
                    = map snapshot recent).
  { rewrite length_map, length_app, skipn_map. cbn [length]. f_equal.
    unfold recent. rewrite skipn_app.
    replace (length frames + 1 - 20)%nat with (length frames - 19)%nat by lia.
    replace (length frames - 19 - length frames)%nat with 0%nat by lia.
    reflexivity. }
  rewrite Hrecent, map_map in Hfh, Hsh.
  pose proof (sh_freq _ W2) as Hlf. pose proof (sh_spec _ W2) as Hls.
  rewrite Hd2 in Hlf, Hls.
  assert (Hhd : forall h : list (list R),
            Z.of_nat (length h) = 20%Z ->
            Forall (fun row => Z.of_nat (length row) = (fft_size a2 / 2)%Z) h ->
            length (hd [] h) = 1024%nat).
  { intros h Hh Hr. destruct h as [|row h]; [discriminate|].
    inversion Hr as [|? ? Hrow _]; subst. rewrite HF2 in Hrow.
    change (2048 / 2)%Z with 1024%Z in Hrow. cbn [hd]. lia. }
  exists rs, a1, (published (fst (snapshot f)) a2), a2.
  split; [exact Hrs|]. split; [now apply analyze_configured|].
  split; [unfold recent; rewrite length_app, length_skipn; cbn [length]; lia|].
  cbn [published spectrum spectrogram]. split.
  - rewrite (mean_axis0_rotated _ (Z.to_nat (current_pos a2)));
      [| lia | apply Hhd; [exact Hlf | apply (sh_freq_rows _ W2)]].
    rewrite Hfh. apply map_ext_in. intros j Hj. apply in_seq in Hj.
    unfold mags.
    rewrite <- (column_trimmed (map (fun c => fst (snapshot c)) recent))
      by lia.
    now rewrite map_map.
  - rewrite (mean_axis0_rotated _ (Z.to_nat (current_pos a2)));
      [| lia | apply Hhd; [exact Hls | apply (sh_spec_rows _ W2)]].
    rewrite Hsh. apply map_ext_in. intros j Hj. apply in_seq in Hj.
    unfold pows.
    rewrite <- (column_trimmed (map (fun c => snd (snapshot c)) recent))
      by lia.
    now rewrite map_map.
Qed.

Lemma published_mean_of_last_twenty_witness :
  let ops := [Push (repeat 4%Z 2048); Cycle] in
  let frames := repeat (repeat 0.25 2048) 25 in
  let f := two_taps in
  let recent := skipn (length frames - 19) frames ++ [f] in
  let mags := map (fun c => fst (snapshot c)) recent in
  let pows := map (fun c => snd (snapshot c)) recent in
  (Forall (fun c => length c = 2048%nat) (frames ++ [f])
   /\ (19 <= length frames)%nat)
  /\ exists rs a1 r a2,
       analyze_all frames (exec ops) = (Ret rs, a1, [])
       /\ analyze f a1 = (Ret r, a2, [])
       /\ length recent = 20%nat
       /\ spectrum r
          = map (fun j => Np.sum (Np.column mags j) / 20) (seq 0 1024)
       /\ spectrogram r
          = map (fun j => Np.sum (Np.column pows j) / 20) (seq 0 1024).
Proof.
  intros ops frames f recent mags pows.
  assert (H : Forall (fun c => length c = 2048%nat) (frames ++ [f])).
  { apply Forall_app. split.
    - apply Forall_forall. intros c Hc. apply repeat_spec in Hc. subst c.
      apply repeat_length.
    - constructor; [exact length_two_taps | constructor]. }
  assert (Hk : (19 <= length frames)%nat)
    by (unfold frames; rewrite repeat_length; lia).
  split; [split; assumption|].
  exact (published_mean_of_last_twenty ops frames f H Hk).
Defined.

(** ** Scaling and size of the magnitudes *)

Lemma zip_mul_scaled (c : R) (x w : list R) :
  Np.zip_mul (map (Rmult c) x) w = map (Rmult c) (Np.zip_mul x w).
Proof.
  revert w. induction x as [|a x IH]; intros [|b w]; try reflexivity.
  cbn [map Np.zip_mul]. rewrite IH. f_equal. ring.
Qed.

Lemma dft_sum_scaled (g : nat -> R) (c : R) (x : list R) (start : nat) :
  Np.dft_sum g (map (Rmult c) x) start = c * Np.dft_sum g x start.
Proof.
  revert start. induction x as [|a x IH]; intros start.
  - cbn. ring.
  - cbn [map Np.dft_sum]. rewrite IH. ring.
Qed.

Lemma Cabs_scaled (c : R) (x : list R) (k : nat) :
  Np.Cabs (Np.dft_bin (map (Rmult c) x) k)
  = Rabs c * Np.Cabs (Np.dft_bin x k).
Proof.
  unfold Np.Cabs, Np.dft_bin. cbn [Np.Re Np.Im].
  rewrite length_map, !dft_sum_scaled.
  set (re := Np.dft_sum _ x 0). set (im := Np.dft_sum _ x 0).
  replace (c * re * (c * re) + c * im * (c * im))
    with (Rsqr c * (re * re + im * im)) by (unfold Rsqr; ring).
  rewrite sqrt_mult_alt by apply Rle_0_sqr.
  now rewrite sqrt_Rsqr_abs.
Qed.

Lemma magnitude_of_scaled (w : list R) (F : Z) (c : R) (x : list R) :
  magnitude_of w F (map (Rmult c) x)
  = map (Rmult (Rabs c)) (magnitude_of w F x).
Proof.
  unfold magnitude_of, Np.div_scalar, Np.abs, Np.dft_bins.
  rewrite zip_mul_scaled, length_map, !map_map.
  apply map_ext. intros k. rewrite Cabs_scaled. unfold Rdiv. ring.
Qed.

Lemma sum_scaled (c : R) (l : list R) :
  Np.sum (map (Rmult c) l) = c * Np.sum l.
Proof.
  unfold Np.sum. induction l as [|v l IH]; cbn [map fold_right];
    [ring | rewrite IH; ring].
Qed.

Lemma sum_squares_nonneg (l : list R) : 0 <= Np.sum (Np.square l).
Proof.
  unfold Np.sum, Np.square. induction l as [|v l IH]; cbn [map fold_right].
  - lra.
  - pose proof (Rle_0_sqr v) as Hv. unfold Rsqr in Hv. lra.
Qed.

Lemma rms_scaled (c : R) (m : list R) :
  sqrt (Np.mean (Np.square (map (Rmult (Rabs c)) m)))
  = Rabs c * sqrt (Np.mean (Np.square m)).
Proof.
  unfold Np.mean.
  assert (E : Np.square (map (Rmult (Rabs c)) m)
              = map (Rmult (Rsqr (Rabs c))) (Np.square m)).
  { unfold Np.square. rewrite !map_map. apply map_ext. intros v.
    unfold Rsqr. ring. }
  rewrite E, sum_scaled, length_map. unfold Rdiv. rewrite Rmult_assoc.
  rewrite sqrt_mult_alt by apply Rle_0_sqr.
  rewrite sqrt_Rsqr by apply Rabs_pos. reflexivity.
Qed.

Lemma fold_left_Rmax_scaled (k : R) (l : list R) (x : R) :
  0 <= k ->
  fold_left Rmax (map (Rmult k) l) (k * x) = k * fold_left Rmax l x.
Proof.
  intros Hk. revert x. induction l as [|y l IH]; intros x; [reflexivity|].
  cbn [map fold_left]. rewrite RmaxRmult by assumption. apply IH.
Qed.

Lemma peak_scaled (k : R) (m : list R) :
  0 <= k ->
  fold_left Rmax (tl (map (Rmult k) m)) (hd 0 (map (Rmult k) m))
  = k * fold_left Rmax (tl m) (hd 0 m).
Proof.
  intros Hk. destruct m as [|x l].
  - cbn. ring.
  - cbn [map hd tl]. now apply fold_left_Rmax_scaled.
Qed.

(** X6. The transform is homogeneous. Multiplying every sample of a frame
    by [c] multiplies each of its 1025 magnitudes, and the RMS and the peak
    the analyzer publishes for it, by the absolute value of [c]. *)
Theorem scaling_a_frame_scales_its_measures
  (ops : list op) (chunk : list R) (c : R) :
  length chunk = 2048%nat ->
  let scaled := map (Rmult c) chunk in
  exists r a' r' a'',
    analyze chunk (exec ops) = (Ret r, a', [])
    /\ analyze scaled (exec ops) = (Ret r', a'', [])
    /\ fst (snapshot scaled) = map (Rmult (Rabs c)) (fst (snapshot chunk))
    /\ rms r' = Rabs c * rms r
    /\ peak r' = Rabs c * peak r.
Proof.
  intros Hlen scaled. pose proof (exec_configured ops) as C.
  assert (Hlen' : length scaled = 2048%nat)
    by (unfold scaled; now rewrite length_map).
  assert (Hm : fst (snapshot scaled)
               = map (Rmult (Rabs c)) (fst (snapshot chunk))).
  { unfold snapshot, scaled. cbn [fst]. apply magnitude_of_scaled. }
  eexists _, _, _, _.
  split; [now apply analyze_configured|].
  split; [now apply analyze_configured|].
  split; [exact Hm|].
  cbn [published rms peak]. rewrite Hm. split.
  - apply rms_scaled.
  - apply peak_scaled, Rabs_pos.
Qed.

Lemma scaling_a_frame_witness :
  let ops := [Push (repeat 4%Z 2048)] in
  let chunk := two_taps in
  let c := -2 in
  let scaled := map (Rmult c) chunk in
  length chunk = 2048%nat
  /\ exists r a' r' a'',
       analyze chunk (exec ops) = (Ret r, a', [])
       /\ analyze scaled (exec ops) = (Ret r', a'', [])
       /\ fst (snapshot scaled) = map (Rmult (Rabs c)) (fst (snapshot chunk))
       /\ rms r' = Rabs c * rms r
       /\ peak r' = Rabs c * peak r.
Proof.
  intros ops chunk c scaled. split; [exact length_two_taps|].
  exact (scaling_a_frame_scales_its_measures ops chunk c length_two_taps).
Defined.

(** The Euclidean norm of a sum is at most the sum of the norms. *)
Lemma norm_triangle (a b c d : R) :
  sqrt ((a + c) * (a + c) + (b + d) * (b + d))
  <= sqrt (a * a + b * b) + sqrt (c * c + d * d).
Proof.
  set (p := sqrt (a * a + b * b)). set (q := sqrt (c * c + d * d)).
  assert (Hab : 0 <= a * a + b * b) by nra.
  assert (Hcd : 0 <= c * c + d * d) by nra.
  assert (Hp : 0 <= p) by apply sqrt_pos.
  assert (Hq : 0 <= q) by apply sqrt_pos.
  assert (Hp2 : p * p = a * a + b * b) by (apply sqrt_sqrt; exact Hab).
  assert (Hq2 : q * q = c * c + d * d) by (apply sqrt_sqrt; exact Hcd).
  assert (Hcs : a * c + b * d <= p * q).
  { apply Rsqr_incr_0_var; [|now apply Rmult_le_pos].
    unfold Rsqr.
    replace (p * q * (p * q)) with ((p * p) * (q * q)) by ring.
    rewrite Hp2, Hq2.
    replace ((a * a + b * b) * (c * c + d * d))
      with ((a * c + b * d) * (a * c + b * d)
            + (a * d - b * c) * (a * d - b * c)) by ring.
    pose proof (Rle_0_sqr (a * d - b * c)) as Hsq. unfold Rsqr in Hsq. lra. }
  rewrite <- (sqrt_square (p + q)) by lra.
  apply sqrt_le_1_alt. nra.
Qed.

Lemma dft_bin_bound_from (t : R) (x : list R) (start : nat) :
  sqrt (Np.dft_sum (fun n => cos (t * INR n)) x start
        * Np.dft_sum (fun n => cos (t * INR n)) x start
        + Np.dft_sum (fun n => - sin (t * INR n)) x start
          * Np.dft_sum (fun n => - sin (t * INR n)) x start)
  <= Np.sum (map Rabs x).
Proof.
  revert start. induction x as [|v x IH]; intros start.
  - cbn. rewrite Rmult_0_l, Rplus_0_l, sqrt_0. lra.
  - cbn [Np.dft_sum map Np.sum fold_right].
    eapply Rle_trans; [apply norm_triangle|].
    apply Rplus_le_compat; [|apply IH].
    pose proof (sin2_cos2 (t * INR start)) as Hsc. unfold Rsqr in Hsc.
    replace (v * cos (t * INR start) * (v * cos (t * INR start))
             + v * - sin (t * INR start) * (v * - sin (t * INR start)))
      with (Rsqr v * (sin (t * INR start) * sin (t * INR start)
                      + cos (t * INR start) * cos (t * INR start)))
      by (unfold Rsqr; ring).
    rewrite Hsc, Rmult_1_r, sqrt_Rsqr_abs. lra.
Qed.

Lemma Cabs_dft_bin_bound (x : list R) (k : nat) :
  Np.Cabs (Np.dft_bin x k) <= Np.sum (map Rabs x).
Proof.
  unfold Np.Cabs, Np.dft_bin. cbn [Np.Re Np.Im].
  set (t := 2 * PI * INR k / INR (length x)).
  assert (Hc : forall n, cos (2 * PI * INR k * INR n / INR (length x))
                         = cos (t * INR n))
    by (intros n; f_equal; unfold t, Rdiv; ring).
  assert (Hs : forall n, - sin (2 * PI * INR k * INR n / INR (length x))
                         = - sin (t * INR n))
    by (intros n; do 2 f_equal; unfold t, Rdiv; ring).
  assert (Hext : forall (g g' : nat -> R) (l : list R) (s : nat),
             (forall n, g n = g' n) -> Np.dft_sum g l s = Np.dft_sum g' l s).
  { intros g g' l. induction l as [|v l IH]; intros s Hg; [reflexivity|].
    cbn [Np.dft_sum]. now rewrite Hg, (IH (S s) Hg). }
  rewrite (Hext _ _ x 0%nat Hc), (Hext _ _ x 0%nat Hs).
  apply dft_bin_bound_from.
Qed.

Lemma hann_range (M : Z) (n : nat) : 0 <= Np.hann M n <= 1.
Proof.
  unfold Np.hann. pose proof (COS_bound (2 * PI * INR n / IZR (M - 1))). lra.
Qed.

Lemma windowed_sum_bound (x w : list R) :
  Forall (fun v => Rabs v <= 1) x -> Forall (fun v => 0 <= v <= 1) w ->
  Np.sum (map Rabs (Np.zip_mul x w)) <= INR (length x).
Proof.
  intros Hx. revert w. induction Hx as [|a x Ha Hx IH]; intros w Hw.
  - cbn. lra.
  - destruct w as [|b w].
    + cbn [Np.zip_mul map Np.sum fold_right]. apply pos_INR.
    + inversion Hw as [|? ? Hb Hw']; subst.
      cbn [Np.zip_mul map Np.sum fold_right length]. rewrite S_INR.
      specialize (IH w Hw'). unfold Np.sum in IH.
      rewrite Rabs_mult, (Rabs_pos_eq b) by lra.
      pose proof (Rabs_pos a). nra.
Qed.

Lemma to_float_range (s : Z) :
  (-32768 <= s <= 32767)%Z -> Rabs (to_float s) <= 1.
Proof.
  intros [Hlo Hhi]. unfold to_float. apply IZR_le in Hlo, Hhi.
  apply Rabs_le. lra.
Qed.

Lemma fold_left_Rmax_le (l : list R) (x bound : R) :
  x <= bound -> Forall (fun y => y <= bound) l ->
  fold_left Rmax l x <= bound.
Proof.
  intros Hx Hl. revert x Hx. induction Hl as [|y l Hy Hl IH]; intros x Hx;
    [exact Hx|].
  cbn [fold_left]. apply IH. now apply Rmax_lub.
Qed.

(** X7. A frame of 16-bit samples cannot overshoot. For 2048 samples in
    the 16-bit range, every one of the 1025 magnitudes lies between 0 and 1,
    and so do the RMS and the peak the analyzer publishes. *)
Theorem sixteen_bit_frame_stays_within_unit
  (ops : list op) (samples : list Z) :
  length samples = 2048%nat ->
  Forall (fun s => (-32768 <= s <= 32767)%Z) samples ->
  let chunk := map to_float samples in
  Forall (fun v => 0 <= v <= 1) (fst (snapshot chunk))
  /\ exists r a',
       analyze chunk (exec ops) = (Ret r, a', [])
       /\ 0 <= rms r <= 1
       /\ 0 <= peak r <= 1.
Proof.
  intros Hlen Hrange chunk. pose proof (exec_configured ops) as C.
  assert (Hlen' : length chunk = 2048%nat)
    by (unfold chunk; now rewrite length_map).
  destruct (snapshot_well_sized chunk Hlen') as [Hm _].
  assert (Hx : Forall (fun v => Rabs v <= 1) chunk).
  { unfold chunk. apply Forall_forall. intros v Hv. apply in_map_iff in Hv.
    destruct Hv as (s & <- & Hs). apply to_float_range.
    rewrite Forall_forall in Hrange. now apply Hrange. }
  assert (Hw : Forall (fun v => 0 <= v <= 1) (Np.hanning 2048)).
  { rewrite hanning_init. apply Forall_forall. intros v Hv.
    apply in_map_iff in Hv. destruct Hv as (n & <- & _). apply hann_range. }
  assert (Hall : Forall (fun v => 0 <= v <= 1) (fst (snapshot chunk))).
  { pose proof (magnitude_of_nonneg (Np.hanning 2048) chunk) as Hpos.
    unfold snapshot. cbn [fst]. rewrite Forall_forall in Hpos |- *.
    intros v Hv. split; [now apply Hpos|].
    unfold magnitude_of, Np.div_scalar, Np.abs, Np.dft_bins in Hv.
    rewrite map_map in Hv. apply in_map_iff in Hv.
    destruct Hv as (z & <- & Hz). apply in_map_iff in Hz.
    destruct Hz as (k & <- & _).
    pose proof (Cabs_dft_bin_bound (Np.zip_mul chunk (Np.hanning 2048)) k)
      as Hb.
    pose proof (windowed_sum_bound chunk _ Hx Hw) as Hs.
    rewrite Hlen' in Hs.
    assert (E : INR 2048 = 2048) by (rewrite INR_IZR_INZ; reflexivity).
    rewrite E in Hs. apply Rmult_le_reg_r with 2048; [lra|].
    unfold Rdiv. rewrite Rmult_assoc, Rinv_l by lra. lra. }
  split; [exact Hall|].
  set (m := fst (snapshot chunk)) in *.
  assert (Hne : m <> []) by (intros E; rewrite E in Hm; discriminate).
  eexists _, _. split; [now apply analyze_configured|].
  cbn [published rms peak]. fold m. split; [|split].
  - apply rms_le_bound; assumption.
  - apply peak_nonneg; [exact Hne|].
    eapply Forall_impl; [|exact Hall]. cbv beta. intros v Hv. lra.
  - destruct m as [|x l]; [congruence|]. cbn [hd tl].
    inversion Hall as [|? ? Hx0 Hl]; subst.
    apply fold_left_Rmax_le; [lra|].
    eapply Forall_impl; [|exact Hl]. cbv beta. intros v Hv. lra.
Qed.

Lemma sixteen_bit_frame_witness :
  let ops := [Push (repeat 4%Z 2048); Cycle] in
  let samples := (0 :: 32767 :: -32768 :: repeat 12345 2045)%Z in
  let chunk := map to_float samples in
  (length samples = 2048%nat
   /\ Forall (fun s => (-32768 <= s <= 32767)%Z) samples)
  /\ Forall (fun v => 0 <= v <= 1) (fst (snapshot chunk))
  /\ exists r a',
       analyze chunk (exec ops) = (Ret r, a', [])
       /\ 0 <= rms r <= 1
       /\ 0 <= peak r <= 1.
Proof.
  intros ops samples chunk.
  assert (Hlen : length samples = 2048%nat).
  { unfold samples. cbn [length]. now rewrite repeat_length. }
  assert (Hr : Forall (fun s => (-32768 <= s <= 32767)%Z) samples).
  { unfold samples. do 3 (constructor; [lia|]).
    apply Forall_forall. intros s Hs. apply repeat_spec in Hs. lia. }
  split; [split; assumption|].
  exact (sixteen_bit_frame_stays_within_unit ops samples Hlen Hr).
Defined.

(** * The player window: time labels, seeking and muting *)

Module Player.
Import Stdlib.Strings.String Stdlib.Strings.Ascii.
Local Open Scope string_scope.
Local Open Scope Z_scope.

(** [str(z)] on an integer. *)
Definition str (z : Z) : string :=
  DecimalString.NilEmpty.string_of_int (Z.to_int z).

(** [f"{z:02d}"]: zeros on the left up to two characters, a minus sign
    counting as one of them. *)
Definition format_02d (z : Z) : string :=
  if (String.length (str z) <? 2)%nat then String "0" (str z) else str z.

(** [format_time] (lines 785-789). *)
Definition format_time (milliseconds : Z) : string :=
  let seconds := milliseconds / 1000 in
  let minutes := seconds / 60 in
  let hours := minutes / 60 in
  format_02d hours ++ ":" ++ format_02d (minutes mod 60) ++ ":"
    ++ format_02d (seconds mod 60).

(** The part of [QMediaPlayer] that [toggle_mute] and [seek_relative] read
    and write. *)
Record MediaPlayer : Type := mkPlayer {
  volume : Z;
  position : Z;
  duration : Z
}.

(** [QMediaPlayer.setVolume]: Qt keeps the volume within 0..100. *)
Definition setVolume (v : Z) (mp : MediaPlayer) : MediaPlayer :=
  mkPlayer (Z.max 0 (Z.min 100 v)) (position mp) (duration mp).

(** [QMediaPlayer.setPosition]: the position asked for. *)
Definition setPosition (p : Z) (mp : MediaPlayer) : MediaPlayer :=
  mkPlayer (volume mp) p (duration mp).

(** The attributes of the window that the two methods use; [saved_volume]
    is [None] as long as the attribute has not been assigned. *)
Record Window : Type := mkWindow {
  media_player : MediaPlayer;
  saved_volume : option Z
}.

(** [toggle_mute] (lines 613-618). *)
Definition toggle_mute (w : Window) : Window :=
  if volume (media_player w) =? 0 then
    mkWindow
      (setVolume (match saved_volume w with Some v => v | None => 50 end)
         (media_player w))
      (saved_volume w)
  else
    mkWindow (setVolume 0 (media_player w))
      (Some (volume (media_player w))).

(** [seek_relative] (lines 623-625). *)
Definition seek_relative (ms : Z) (w : Window) : Window :=
  let new_pos := position (media_player w) + ms in
  mkWindow
    (setPosition (Z.max 0 (Z.min new_pos (duration (media_player w))))
       (media_player w))
    (saved_volume w).

(** The integer a string of digits, with or without a sign, denotes. *)
Definition value (s : string) : option Z :=
  option_map Z.of_int (DecimalString.NilEmpty.int_of_string s).

Lemma value_str z : value (str z) = Some z.
Proof.
  unfold value, str. rewrite DecimalString.NilEmpty.isi. cbn [option_map].
  now rewrite DecimalZ.of_to.
Qed.

Lemma value_format_02d z : value (format_02d z) = Some z.
Proof.
  unfold format_02d. destruct (String.length (str z) <? 2)%nat eqn:E;
    [|apply value_str].
  destruct z as [|p|p].
  - reflexivity.
  - unfold value, str. cbn [Z.to_int DecimalString.NilEmpty.string_of_int].
    cbn [DecimalString.NilEmpty.int_of_string Ascii.eqb Bool.eqb andb].
    cbn [DecimalString.NilEmpty.uint_of_string].
    rewrite DecimalString.NilEmpty.usu.
    cbn [DecimalString.uint_of_char option_map].
    pose proof (DecimalZ.of_to (Z.pos p)) as H.
    cbn [Z.to_int] in H. f_equal. exact H.
  - exfalso. unfold str in E.
    cbn [Z.to_int DecimalString.NilEmpty.string_of_int String.length] in E.
    pose proof (DecimalPos.Unsigned.to_uint_nonnil p) as Hn.
    destruct (Pos.to_uint p); [congruence | ..]; discriminate E.
Qed.

Lemma format_02d_inj a b : format_02d a = format_02d b -> a = b.
Proof.
  intros H. apply (f_equal value) in H. rewrite !value_format_02d in H.
  now injection H.
Qed.

Lemma length_append (x y : string) :
  String.length (x ++ y) = (String.length x + String.length y)%nat.
Proof. induction x as [|c x IH]; cbn; [reflexivity | now rewrite IH]. Qed.

Lemma append_inj (x x' y y' : string) :
  String.length y = String.length y' -> x ++ y = x' ++ y' ->
  x = x' /\ y = y'.
Proof.
  intros Hlen. revert x'. induction x as [|c x IH]; intros [|c' x'] H.
  - now split.
  - apply (f_equal String.length) in H. cbn in H.
    rewrite length_append in H. lia.
  - apply (f_equal String.length) in H. cbn in H.
    rewrite length_append in H. lia.
  - cbn in H. injection H as -> H. destruct (IH x' H) as [-> ->].
    now split.
Qed.

Lemma two_characters z : 0 <= z < 100 -> String.length (format_02d z) = 2%nat.
Proof.
  intros Hz.
  assert (H : forallb
                (fun n => Nat.eqb (String.length (format_02d (Z.of_nat n))) 2)
                (seq 0 100) = true) by (vm_compute; reflexivity).
  rewrite forallb_forall in H. specialize (H (Z.to_nat z)).
  rewrite Z2Nat.id in H by lia. apply Nat.eqb_eq, H, in_seq. lia.
Qed.

Lemma format_time_fields a b :
  format_time a = format_time b ->
  let sa := a / 1000 in
  let sb := b / 1000 in
  sa / 60 / 60 = sb / 60 / 60
  /\ (sa / 60) mod 60 = (sb / 60) mod 60
  /\ sa mod 60 = sb mod 60.
Proof.
  intros H sa sb. unfold format_time in H. fold sa sb in H.
  assert (Hm : forall z, String.length (format_02d (z mod 60)) = 2%nat).
  { intros z. apply two_characters.
    pose proof (Z.mod_pos_bound z 60 ltac:(lia)). lia. }
  apply append_inj in H;
    [| cbn [String.append String.length];
       rewrite !length_append; cbn [String.append String.length];
       rewrite !Hm; reflexivity].
  destruct H as [Hh H]. cbn [String.append] in H. injection H as H.
  apply append_inj in H;
    [| cbn [String.append String.length]; rewrite !Hm; reflexivity].
  destruct H as [Hmin H]. cbn [String.append] in H. injection H as Hsec.
  apply format_02d_inj in Hh, Hmin, Hsec. now repeat split.
Qed.

(** X8. The time label tells whole seconds apart and nothing finer: two
    positions get the same label exactly when they fall in the same
    second. Hours are neither wrapped nor cut, and this holds for negative
    positions too, [//] rounding down. *)
Theorem format_time_tells_seconds_apart (a b : Z) :
  format_time a = format_time b <-> a / 1000 = b / 1000.
Proof.
  split.
  - intros H. apply format_time_fields in H. cbv zeta in H.
    destruct H as (Hh & Hm & Hs).
    Z.to_euclidean_division_equations. lia.
  - intros H. unfold format_time. now rewrite H.
Qed.

(** X9. Below one hundred hours the label is eight characters,
    [HH:MM:SS], with the colons in third and sixth place. *)
Theorem format_time_layout (ms : Z) :
  0 <= ms < 360000000 ->
  String.length (format_time ms) = 8%nat
  /\ String.get 2 (format_time ms) = Some ":"%char
  /\ String.get 5 (format_time ms) = Some ":"%char
  /\ value (String.substring 0 2 (format_time ms)) = Some (ms / 3600000)
  /\ value (String.substring 3 2 (format_time ms))
     = Some (ms / 60000 mod 60)
  /\ value (String.substring 6 2 (format_time ms)) = Some (ms / 1000 mod 60).
Proof.
  intros Hms. unfold format_time.
  assert (Hh : 0 <= ms / 1000 / 60 / 60 < 100)
    by (Z.to_euclidean_division_equations; lia).
  set (seconds := ms / 1000) in *. set (minutes := seconds / 60) in *.
  set (hours := minutes / 60) in *.
  assert (Eh : ms / 3600000 = hours)
    by (unfold hours, minutes, seconds; Z.to_euclidean_division_equations; lia).
  assert (Em : ms / 60000 = minutes)
    by (unfold minutes, seconds; Z.to_euclidean_division_equations; lia).
  rewrite Eh, Em.
  pose proof (two_characters hours Hh) as Lh.
  pose proof (two_characters (minutes mod 60)
                ltac:(pose proof (Z.mod_pos_bound minutes 60); lia)) as Lm.
  pose proof (two_characters (seconds mod 60)
                ltac:(pose proof (Z.mod_pos_bound seconds 60); lia)) as Ls.
  pose proof (value_format_02d hours) as Vh.
  pose proof (value_format_02d (minutes mod 60)) as Vm.
  pose proof (value_format_02d (seconds mod 60)) as Vs.
  destruct (format_02d hours) as [|h1 [|h2 [|? ?]]]; try discriminate Lh.
  destruct (format_02d (minutes mod 60)) as [|m1 [|m2 [|? ?]]];
    try discriminate Lm.
  destruct (format_02d (seconds mod 60)) as [|s1 [|s2 [|? ?]]];
    try discriminate Ls.
  cbn [String.append String.length String.get String.substring].
  repeat split; assumption.
Qed.

Lemma format_time_layout_witness :
  let ms := 3723456 in
  0 <= ms < 360000000
  /\ String.length (format_time ms) = 8%nat
  /\ String.get 2 (format_time ms) = Some ":"%char
  /\ String.get 5 (format_time ms) = Some ":"%char
  /\ value (String.substring 0 2 (format_time ms)) = Some (ms / 3600000)
  /\ value (String.substring 3 2 (format_time ms))
     = Some (ms / 60000 mod 60)
  /\ value (String.substring 6 2 (format_time ms)) = Some (ms / 1000 mod 60).
Proof.
  intros ms. split; [lia|]. apply (format_time_layout ms). lia.
Defined.

(** X10. Muting and unmuting restores the volume. From a volume between
    1 and 100, [toggle_mute] sets the volume to 0 and remembers the old
    one; a second [toggle_mute] sets it back. Position and duration are
    not touched. *)
Theorem mute_then_unmute_restores_volume (w : Window) :
  0 < volume (media_player w) <= 100 ->
  let muted := toggle_mute w in
  let back := toggle_mute muted in
  volume (media_player muted) = 0
  /\ saved_volume muted = Some (volume (media_player w))
  /\ volume (media_player back) = volume (media_player w)
  /\ position (media_player back) = position (media_player w)
  /\ duration (media_player back) = duration (media_player w).
Proof.
  intros Hv muted back. unfold back, muted, toggle_mute.
  destruct (Z.eqb_spec (volume (media_player w)) 0) as [E|E]; [lia|].
  cbn [media_player saved_volume setVolume volume position duration].
  change (Z.max 0 (Z.min 100 0) =? 0) with true. cbv iota.
  cbn [media_player saved_volume setVolume volume position duration].
  repeat split; lia.
Qed.

Lemma mute_then_unmute_witness :
  let w := mkWindow (mkPlayer 73 1500 240000) None in
  let muted := toggle_mute w in
  let back := toggle_mute muted in
  0 < volume (media_player w) <= 100
  /\ volume (media_player muted) = 0
  /\ saved_volume muted = Some (volume (media_player w))
  /\ volume (media_player back) = volume (media_player w)
  /\ position (media_player back) = position (media_player w)
  /\ duration (media_player back) = duration (media_player w).
Proof.
  intros w muted back. split; [cbn; lia|].
  apply (mute_then_unmute_restores_volume w). cbn. lia.
Defined.

(** X11. A relative seek never asks for a position outside the track. The
    position [seek_relative] requests is at least 0 and, for a duration
    that is not negative, at most the duration; it is the current position
    plus the offset whenever that lies within the track; and while the
    duration is 0 (nothing loaded) it is 0 whatever the offset. *)
Theorem seek_relative_stays_in_track (ms : Z) (w : Window) :
  let before := position (media_player w) in
  let total := duration (media_player w) in
  let asked := position (media_player (seek_relative ms w)) in
  0 <= asked
  /\ (0 <= total -> asked <= total)
  /\ (0 <= before + ms <= total -> asked = before + ms)
  /\ (total <= 0 -> asked = 0)
  /\ volume (media_player (seek_relative ms w)) = volume (media_player w)
  /\ duration (media_player (seek_relative ms w)) = total.
Proof.
  intros before total asked. unfold asked, seek_relative.
  cbn [media_player setPosition position volume duration].
  fold before total. repeat split; lia.
Qed.

End Player.

(** * The CD ripper thread *)

Module Ripper.
Import Stdlib.Strings.String Stdlib.Strings.Ascii.
Local Open Scope string_scope.
Local Open Scope Z_scope.

(** What [run] sends out: the two signals and the sleep. *)
Inductive signal : Type :=
| Progress (value : Z) (message : string)  (* progress_updated.emit *)
| RipComplete (path : string)              (* rip_complete.emit *)
| Sleep (ms : Z).                          (* msleep *)

(** [self.cancel] is set by the window's thread ([closeEvent]) and never
    cleared. A run is told how many of its reads still see the flag
    clear: [Some k], or [None] when it is never set. *)
Definition flag : Type := option nat.

Definition read_cancel (c : flag) : bool * flag :=
  match c with
  | None => (false, None)
  | Some O => (true, Some O)
  | Some (S k) => (false, Some k)
  end.

Section Run.
(** [os.path.join] *)
Variable join : string -> string -> string.
(** The attributes set by [__init__] (lines 113-115). *)
Variables output_dir output_format : string.

Definition output_file (i : Z) : string :=
  join output_dir ("track_" ++ Player.str i ++ "." ++ output_format).

(** The [for] loop of [run] (lines 123-135), from track [i] for [n]
    tracks. *)
Fixpoint rip_tracks (i : Z) (n : nat) (c : flag) : list signal * flag :=
  match n with
  | O => ([], c)
  | S n' =>
      let (cancelled, c1) := read_cancel c in
      if cancelled then ([], c1)
      else
        let (cancelled', c2) := read_cancel c1 in
        let (rest, c3) := rip_tracks (i + 1) n' c2 in
        (Progress i ("Ripping track " ++ Player.str i)
           :: Sleep 1000
           :: ((if cancelled' then [] else [RipComplete (output_file i)])
                 ++ rest)%list,
         c3)
  end.

(** [run] (lines 118-139). Nothing in the [try] block raises, so the
    handler of line 138 stays out of the model. *)
Definition run (c : flag) : list signal :=
  let tracks := 10 in
  let (sent, c1) := rip_tracks 1 (Z.to_nat tracks) c in
  let (cancelled, _) := read_cancel c1 in
  (sent ++ [Progress 100 (if cancelled then "Ripping cancelled"
                          else "Ripping complete")])%list.

(** What a track sends when it is ripped to the end. *)
Definition ripped (i : Z) : list signal :=
  [Progress i ("Ripping track " ++ Player.str i); Sleep 1000;
   RipComplete (output_file i)].

(** What a track sends when the flag is set while it is being ripped. *)
Definition interrupted (i : Z) : list signal :=
  [Progress i ("Ripping track " ++ Player.str i); Sleep 1000].

Fixpoint tracks_ripped (i : Z) (n : nat) : list signal :=
  match n with
  | O => []
  | S n' => (ripped i ++ tracks_ripped (i + 1) n')%list
  end.

Lemma rip_tracks_never_cancelled i n :
  rip_tracks i n None = (tracks_ripped i n, None).
Proof.
  revert i. induction n as [|n IH]; intros i; [reflexivity|].
  cbn [rip_tracks read_cancel tracks_ripped]. rewrite IH. reflexivity.
Qed.

Lemma rip_tracks_cancelled i n k :
  rip_tracks i n (Some k)
  = if (2 * n <=? k)%nat
    then (tracks_ripped i n, Some (k - 2 * n)%nat)
    else ((tracks_ripped i (Nat.div k 2)
             ++ (if Nat.odd k then interrupted (i + Z.of_nat (Nat.div k 2))
                 else []))%list,
          Some O).
Proof.
  revert i k. induction n as [|n IH]; intros i k.
  - cbn [rip_tracks]. change (2 * 0)%nat with 0%nat.
    cbn [Nat.leb tracks_ripped]. now rewrite Nat.sub_0_r.
  - destruct k as [|[|k]].
    + reflexivity.
    + cbn [rip_tracks read_cancel]. rewrite IH.
      destruct (2 * n <=? 0)%nat eqn:E.
      * apply Nat.leb_le in E. assert (n = 0%nat) by lia. subst n.
        cbn. rewrite Z.add_0_r. reflexivity.
      * destruct (2 * S n <=? 1)%nat eqn:E'; [apply Nat.leb_le in E'; lia|].
        cbn. rewrite Z.add_0_r. reflexivity.
    + cbn [rip_tracks read_cancel]. rewrite IH.
      replace (Nat.div (S (S k)) 2) with (S (Nat.div k 2))
        by (change (S (S k)) with (2 + k)%nat;
            rewrite (Nat.add_comm 2 k);
            change 2%nat with (1 * 2)%nat at 2;
            rewrite Nat.div_add by lia; lia).
      replace (Nat.odd (S (S k))) with (Nat.odd k)
        by (now rewrite Nat.odd_succ_succ).
      destruct (Nat.leb_spec (2 * n) k) as [H|H];
        destruct (Nat.leb_spec (2 * S n) (S (S k))) as [H'|H']; try lia.
      * cbn [tracks_ripped ripped app]. do 2 f_equal. lia.
      * cbn [tracks_ripped ripped app].
        replace (i + 1 + Z.of_nat (Nat.div k 2))
          with (i + Z.of_nat (S (Nat.div k 2))) by lia.
        reflexivity.
Qed.

(** The paths of the tracks reported as ripped, in the order of the
    reports. *)
Fixpoint completed (t : list signal) : list string :=
  match t with
  | [] => []
  | RipComplete path :: t' => path :: completed t'
  | _ :: t' => completed t'
  end.

Lemma completed_app t1 t2 :
  completed (t1 ++ t2)%list = (completed t1 ++ completed t2)%list.
Proof.
  induction t1 as [|s t1 IH]; [reflexivity|].
  destruct s; cbn [app completed]; now rewrite IH.
Qed.

Lemma completed_tracks_ripped i n :
  completed (tracks_ripped i n)
  = map (fun j => output_file (i + Z.of_nat j)) (seq 0 n).
Proof.
  revert i. induction n as [|n IH]; intros i; [reflexivity|].
  cbn [tracks_ripped ripped app completed seq map]. rewrite IH.
  rewrite Z.add_0_r. f_equal. rewrite <- seq_shift, map_map.
  apply map_ext. intros j. f_equal. lia.
Qed.

(** X12. A rip that is cancelled stops cleanly. When [k] reads of the
    cancel flag see it clear, and later ones see it set, [run] rips the
    first [min 10 (k / 2)] tracks, each announced, slept through and
    reported in turn; if the flag is set while a track is being ripped,
    that track is announced but not reported; no track is reported after
    that; and the last signal is always a progress of 100, saying
    "Ripping complete" only when no read saw the flag set. *)
Theorem cancelled_rip_stops_cleanly (k : nat) :
  let done := Nat.min 10 (Nat.div k 2) in
  run (Some k)
  = (tracks_ripped 1 done
       ++ (if (k <? 20)%nat && Nat.odd k
           then interrupted (1 + Z.of_nat done) else [])
       ++ [Progress 100 (if (k <? 21)%nat then "Ripping cancelled"
                         else "Ripping complete")])%list
  /\ completed (run (Some k))
     = map (fun j => output_file (1 + Z.of_nat j)) (seq 0 done).
Proof.
  intros done.
  assert (E : run (Some k)
              = (tracks_ripped 1 done
                   ++ (if (k <? 20)%nat && Nat.odd k
                       then interrupted (1 + Z.of_nat done) else [])
                   ++ [Progress 100 (if (k <? 21)%nat
                                     then "Ripping cancelled"
                                     else "Ripping complete")])%list).
  { unfold run. change (Z.to_nat 10) with 10%nat.
    rewrite rip_tracks_cancelled. change (2 * 10)%nat with 20%nat.
    destruct (Nat.leb_spec 20 k) as [H|H].
    - assert (Hd : done = 10%nat).
      { unfold done. apply Nat.min_l.
        change 10%nat with (Nat.div 20 2). now apply Nat.Div0.div_le_mono. }
      rewrite Hd.
      destruct (Nat.ltb_spec k 20) as [H'|_]; [lia|]. cbn [andb app].
      destruct (Nat.ltb_spec k 21) as [H21|H21].
      + assert (k = 20%nat) by lia. subst k. reflexivity.
      + destruct (k - 20)%nat as [|r] eqn:Er; [lia|]. reflexivity.
    - assert (Hd : done = Nat.div k 2).
      { unfold done. apply Nat.min_r.
        apply Nat.Div0.div_le_upper_bound. lia. }
      rewrite Hd.
      destruct (Nat.ltb_spec k 20) as [_|H']; [|lia].
      destruct (Nat.ltb_spec k 21) as [_|H']; [|lia].
      cbn [read_cancel andb]. now rewrite <- app_assoc. }
  split; [exact E|].
  rewrite E, !completed_app, completed_tracks_ripped.
  destruct ((k <? 20)%nat && Nat.odd k); cbn [interrupted completed app];
    now rewrite app_nil_r.
Qed.

(** X13. A rip that is never cancelled reports the ten tracks, in order,
    one file each under [output_dir], named [track_1] to [track_10] with
    the output format as extension, and ends with "Ripping complete". *)
Theorem uncancelled_rip_reports_ten_tracks :
  run None
  = (tracks_ripped 1 10 ++ [Progress 100 "Ripping complete"])%list
  /\ completed (run None)
     = map (fun j => join output_dir
                       ("track_" ++ Player.str (1 + Z.of_nat j) ++ "."
                          ++ output_format))
         (seq 0 10)
  /\ List.length (completed (run None)) = 10%nat.
Proof.
  assert (E : run None
              = (tracks_ripped 1 10
                   ++ [Progress 100 "Ripping complete"])%list).
  { unfold run. change (Z.to_nat 10) with 10%nat.
    now rewrite rip_tracks_never_cancelled. }
  split; [exact E|].
  rewrite E, completed_app, completed_tracks_ripped. cbn [completed].
  rewrite app_nil_r. split; [reflexivity|].
  now rewrite length_map, length_seq.
Qed.

End Run.

End Ripper.

(** * The lyrics fetcher thread *)

Module Lyrics.
Import Stdlib.Strings.String Stdlib.Strings.Ascii.
Local Open Scope string_scope.
Local Open Scope Z_scope.

(** What [response.json()] gives: any JSON value, as Python has it ([None],
    a [bool], an [int], a [float], a [str], a [list] or a [dict]). *)
Local Set Warnings "-register-all".
Inductive jvalue : Type :=
| JNull
| JBool (b : bool)
| JInt (n : Z)
| JFloat (x : PrimFloat.float)
| JString (s : string)
| JArray (items : list jvalue)
| JObject (members : list (string * jvalue)).

(** [d.get(key, default)] on the members of a [dict]. *)
Fixpoint dict_get (d : list (string * jvalue)) (key : string)
    (default : jvalue) : jvalue :=
  match d with
  | [] => default
  | (k, v) :: d' => if String.eqb k key then v else dict_get d' key default
  end.

(** [v.get(key, default)]: only a [dict] has the method, on any other value
    the call is an [AttributeError]. *)
Definition json_get (v : jvalue) (key : string) (default : jvalue)
  : option jvalue :=
  match v with
  | JObject d => Some (dict_get d key default)
  | _ => None
  end.

(** What [requests.get(url)] and then [response.json()] can give: the
    request raises, or it returns a status code and a body that may fail to
    parse. *)
Inductive reply : Type :=
| Unreachable
| Reply (status_code : Z) (body : option jvalue).

(** [search_lyrics_ovh] (lines 160-168), given what the request gives. Any
    exception inside the [try] block ends in [return None]; what the
    [lyrics] member holds is returned as it is, string or not. *)
Definition search_lyrics_ovh (r : reply) : jvalue :=
  match r with
  | Unreachable => JNull
  | Reply status_code body =>
      if status_code =? 200 then
        match body with
        | Some v =>
            match json_get v "lyrics" (JString "") with
            | Some lyrics => lyrics
            | None => JNull
            end
        | None => JNull
        end
      else JNull
  end.

(** Python's truth value. *)
Definition truthy (v : jvalue) : bool :=
  match v with
  | JNull => false
  | JBool b => b
  | JInt n => negb (n =? 0)
  | JFloat x => negb (PrimFloat.eqb x PrimFloat.zero)
  | JString s => negb (String.eqb s "")
  | JArray items => match items with [] => false | _ :: _ => true end
  | JObject members => match members with [] => false | _ :: _ => true end
  end.

(** [a or b] *)
Definition py_or (a b : jvalue) : jvalue := if truthy a then a else b.

(** A Python value that is a string or [None], which is what
    [search_lyrics_az] returns ([get_text()] or [None], lines 170-192). *)
Definition optstr : Type := option string.

Definition of_optstr (v : optstr) : jvalue :=
  match v with
  | None => JNull
  | Some s => JString s
  end.

(** What [run] does that is seen from outside: the two searches and the
    signal. *)
Inductive event : Type :=
| SearchOvh (url : string)
| SearchAz (url : string)
| Fetched (track lyrics : string).   (* lyrics_fetched.emit *)

(** [lyrics_fetched.emit(track, v)]. The signal is declared
    [pyqtSignal(str, str)] (line 142): a second argument that is not a
    string is a [TypeError], and nothing is emitted. *)
Definition emit (track : string) (v : jvalue) : option event :=
  match v with
  | JString s => Some (Fetched track s)
  | _ => None
  end.

Section Run.

(** [str(e)] for the [TypeError] that [emit] raises on the value [v]: the
    text is the binding's, not the program's. *)
Variable type_error : jvalue -> string.

(** [run] (lines 149-158); [ovh] is what the first service gives and [az]
    what [search_lyrics_az] returns if it is called. The handler of lines
    157-158 answers for an [emit] that raised. *)
Definition run (artist title : string) (ovh : reply) (az : optstr)
  : list event :=
  let first := SearchOvh ("https://api.lyrics.ovh/v1/" ++ artist ++ "/"
                            ++ title) in
  let second := SearchAz ("https://search.azlyrics.com/search.php?q="
                            ++ artist ++ "+" ++ title) in
  let track := artist ++ " - " ++ title in
  let lyrics := search_lyrics_ovh ovh in
  let searched :=
    if truthy lyrics then ([first], lyrics)
    else ([first; second], of_optstr az) in
  let answer := py_or (snd searched) (JString "Lyrics not found") in
  match emit track answer with
  | Some e => (fst searched ++ [e])%list
  | None =>
      (fst searched
         ++ [Fetched track ("Error fetching lyrics: " ++ type_error answer)])%list
  end.

(** The lyrics the signal carries. *)
Fixpoint fetched (t : list event) : list (string * string) :=
  match t with
  | [] => []
  | Fetched track lyrics :: t' => (track, lyrics) :: fetched t'
  | _ :: t' => fetched t'
  end.

Definition asks_second (t : list event) : bool :=
  existsb (fun e => match e with SearchAz _ => true | _ => false end) t.

Definition is_string (v : jvalue) : bool :=
  match v with JString _ => true | _ => false end.

(** X14. The fetcher answers once and never with nothing. Whatever the two
    services give (an unreachable host, a status other than 200, a body
    that does not parse or is no object, a [lyrics] member that is missing,
    null, empty or no string at all), [run] emits [lyrics_fetched] exactly
    once, for the track ["artist - title"], with a text that is not empty:
    the first service's lyrics when they are a non-empty string; the
    handler's "Error fetching lyrics: ..." when they are another true
    value, which the signal refuses; else the second service's text when
    there is some, else "Lyrics not found". The second service is searched
    exactly when the first gave nothing true. *)
Theorem fetcher_answers_once (artist title : string) (ovh : reply) (az : optstr) :
  let first := search_lyrics_ovh ovh in
  exists text,
    fetched (run artist title ovh az) = [(artist ++ " - " ++ title, text)]
    /\ text <> ""
    /\ asks_second (run artist title ovh az) = negb (truthy first)
    /\ (truthy first = true -> is_string first = true ->
        first = JString text)
    /\ (truthy first = true -> is_string first = false ->
        text = "Error fetching lyrics: " ++ type_error first)
    /\ (truthy first = false -> truthy (of_optstr az) = true ->
        az = Some text)
    /\ (truthy first = false -> truthy (of_optstr az) = false ->
        text = "Lyrics not found").
Proof.
  intros first. unfold run. fold first. unfold py_or.
  destruct (truthy first) eqn:E1; cbn [fst snd].
  - rewrite E1.
    destruct first as [|b|n|x|s|items|members];
      cbn [emit app fetched asks_second existsb orb negb is_string];
      try discriminate E1;
      (eexists; split; [reflexivity|]);
      (split; [|repeat split; congruence]).
    all: try (intros H; discriminate H).
    cbn [truthy] in E1. intros ->. discriminate.
  - destruct (truthy (of_optstr az)) eqn:E2.
    + destruct az as [s|]; [|discriminate]. exists s.
      cbn [of_optstr emit app fetched asks_second existsb orb negb].
      repeat split; try congruence.
      cbn [of_optstr truthy] in E2. intros ->. discriminate.
    + exists "Lyrics not found".
      cbn [emit app fetched asks_second existsb orb negb].
      repeat split; congruence.
Qed.

End Run.

(** The handler at work: a reply whose [lyrics] member is the number 42
    reaches the signal as the text of the [TypeError], and the second
    service is not asked. *)
Example number_for_lyrics (type_error : jvalue -> string) :
  let ovh := Reply 200 (Some (JObject [("lyrics", JInt 42)])) in
  fetched (run type_error "a" "b" ovh (Some "la la"))
    = [("a - b", "Error fetching lyrics: " ++ type_error (JInt 42))]
  /\ asks_second (run type_error "a" "b" ovh (Some "la la")) = false.
Proof. split; reflexivity. Qed.

End Lyrics.

(** * The media library *)

Module Library.
Import Stdlib.Strings.String Stdlib.Strings.Ascii.
Local Open Scope string_scope.
Local Open Scope Z_scope.

Local Set Warnings "-register-all".

(** The Python values an entry of the library holds. *)
Inductive pyobj : Type :=
| PNone
| PInt (z : Z)
| PFloat (x : R)
| PStr (s : string)
| PList (l : list pyobj).

(** A dictionary with string keys, in insertion order. *)
Definition dict : Type := list (string * pyobj).

(** [d.get(key, default)] *)
Fixpoint dict_get (d : dict) (key : string) (default : pyobj) : pyobj :=
  match d with
  | [] => default
  | (k, v) :: d' => if String.eqb k key then v else dict_get d' key default
  end.

(** [self.library]: a dictionary from file ids to entries. *)
Definition table : Type := list (Z * dict).

(** [t[k] = v]: the value of an existing key is replaced where it stands, a
    new key goes last. *)
Fixpoint table_set (t : table) (k : Z) (v : dict) : table :=
  match t with
  | [] => [(k, v)]
  | (k', v') :: t' =>
      if k' =? k then (k, v) :: t' else (k', v') :: table_set t' k v
  end.

(** [t.get(k)] *)
Fixpoint table_get (t : table) (k : Z) : option dict :=
  match t with
  | [] => None
  | (k', v') :: t' => if k' =? k then Some v' else table_get t' k
  end.

(** The attributes of [MediaLibrary] (lines 196-197). *)
Record MediaLibrary : Type := mkLibrary {
  library : table;
  index : Z
}.

(** [MediaLibrary.__init__] *)
Definition new : MediaLibrary := mkLibrary [] 0.

(** [SUPPORTED_FORMATS] (lines 41-43). *)
Definition SUPPORTED_AUDIO_FORMATS : list string :=
  [".mp3"; ".wav"; ".ogg"; ".flac"; ".m4a"; ".aac"; ".wma"].
Definition SUPPORTED_VIDEO_FORMATS : list string :=
  [".mp4"; ".avi"; ".mkv"; ".mov"; ".wmv"; ".flv"].
Definition SUPPORTED_FORMATS : list string :=
  (SUPPORTED_AUDIO_FORMATS ++ SUPPORTED_VIDEO_FORMATS)%list.

(** [s.endswith(suffix)] *)
Definition endswith (s suffix : string) : bool :=
  let n := String.length s in
  let m := String.length suffix in
  (m <=? n)%nat && String.eqb (String.substring (n - m) m s) suffix.

Section Files.
(** [os.path.basename], [os.path.join] and [str.lower]. *)
Variable basename : string -> string.
Variable join : string -> string -> string.
Variable lower : string -> string.
(** What [get_metadata] (lines 229-260) reads for a path: a dictionary,
    empty when the tags cannot be read. *)
Variable get_metadata : string -> dict.

(** [add_file] (lines 206-227): the id given to the file, and the library
    after the call. *)
Definition add_file (path : string) (ml : MediaLibrary) : Z * MediaLibrary :=
  let file_id := index ml in
  let index' := index ml + 1 in
  let metadata := get_metadata path in
  let entry : dict :=
    [("id", PInt file_id);
     ("path", PStr path);
     ("title", dict_get metadata "title" (PStr (basename path)));
     ("artist", dict_get metadata "artist" (PStr "Unknown"));
     ("album", dict_get metadata "album" (PStr "Unknown"));
     ("year", dict_get metadata "year" (PStr ""));
     ("genre", dict_get metadata "genre" (PStr ""));
     ("duration", dict_get metadata "duration" (PInt 0));
     ("bitrate", dict_get metadata "bitrate" (PInt 0));
     ("last_played", PNone);
     ("play_count", PInt 0);
     ("rating", PInt 0);
     ("lyrics", dict_get metadata "lyrics" (PStr ""));
     ("tags", dict_get metadata "tags" (PList []))] in
  (file_id, mkLibrary (table_set (library ml) file_id entry) index').

(** The test of line 202. *)
Definition supported (file : string) : bool :=
  existsb (fun ext => endswith (lower file) ext) SUPPORTED_FORMATS.

(** The inner loop of [scan_directory]: the files of one directory. *)
Fixpoint scan_files (root : string) (files : list string) (ml : MediaLibrary)
  : MediaLibrary :=
  match files with
  | [] => ml
  | file :: files' =>
      scan_files root files'
        (if supported file then snd (add_file (join root file) ml) else ml)
  end.

(** [scan_directory] (lines 199-204), on what [os.walk] yields: each
    directory with the names of its files. *)
Fixpoint scan_directory (walk : list (string * list string))
  (ml : MediaLibrary) : MediaLibrary :=
  match walk with
  | [] => ml
  | (root, files) :: walk' => scan_directory walk' (scan_files root files ml)
  end.

(** [add_file] on each path of a list: the ids given, and the library. *)
Fixpoint add_files (paths : list string) (ml : MediaLibrary)
  : list Z * MediaLibrary :=
  match paths with
  | [] => ([], ml)
  | path :: paths' =>
      let (file_id, ml1) := add_file path ml in
      let (ids, ml2) := add_files paths' ml1 in
      (file_id :: ids, ml2)
  end.

(** The paths of the entries, in the order of the library. *)
Definition paths_of (ml : MediaLibrary) : list pyobj :=
  map (fun kv => dict_get (snd kv) "path" PNone) (library ml).

Definition ids_of (ml : MediaLibrary) : list Z := map fst (library ml).

(** Every id in use is below the next id to give. *)
Definition fresh_index (ml : MediaLibrary) : Prop :=
  Forall (fun k => k < index ml) (ids_of ml).

Lemma table_set_fresh (t : table) (k : Z) (v : dict) :
  Forall (fun k' => k' < k) (map fst t) ->
  table_set t k v = (t ++ [(k, v)])%list.
Proof.
  induction t as [|[k' v'] t IH]; intros H; [reflexivity|].
  inversion H as [|? ? Hk Ht]; subst. cbn [table_set app fst] in *.
  destruct (Z.eqb_spec k' k); [lia|]. now rewrite IH.
Qed.

Lemma table_get_last (t : table) (k : Z) (v : dict) :
  Forall (fun k' => k' < k) (map fst t) ->
  table_get (t ++ [(k, v)])%list k = Some v.
Proof.
  induction t as [|[k' v'] t IH]; intros H.
  - cbn. now rewrite Z.eqb_refl.
  - inversion H as [|? ? Hk Ht]; subst. cbn [table_get app fst] in *.
    destruct (Z.eqb_spec k' k); [lia|]. now apply IH.
Qed.

Lemma table_get_earlier (t : table) (k j : Z) (v : dict) :
  j <> k -> table_get (t ++ [(k, v)])%list j = table_get t j.
Proof.
  intros Hj. induction t as [|[k' v'] t IH].
  - cbn. destruct (Z.eqb_spec k j); [congruence | reflexivity].
  - cbn [table_get app]. destruct (k' =? j); [reflexivity | exact IH].
Qed.

Lemma add_file_appends path ml :
  fresh_index ml ->
  let ml' := snd (add_file path ml) in
  fst (add_file path ml) = index ml
  /\ index ml' = index ml + 1
  /\ ids_of ml' = (ids_of ml ++ [index ml])%list
  /\ paths_of ml' = (paths_of ml ++ [PStr path])%list
  /\ fresh_index ml'
  /\ (forall j, j <> index ml ->
        table_get (library ml') j = table_get (library ml) j)
  /\ exists entry,
       table_get (library ml') (index ml) = Some entry
       /\ dict_get entry "id" PNone = PInt (index ml)
       /\ dict_get entry "path" PNone = PStr path
       /\ dict_get entry "play_count" PNone = PInt 0
       /\ dict_get entry "rating" PNone = PInt 0
       /\ dict_get entry "last_played" (PInt 1) = PNone.
Proof.
  intros Hf ml'. unfold ml', add_file. cbn [fst snd library index].
  rewrite table_set_fresh by exact Hf.
  unfold fresh_index, ids_of, paths_of in *. cbn [library index].
  rewrite !map_app. cbn [map fst snd].
  split; [reflexivity|]. split; [reflexivity|]. split; [reflexivity|].
  split; [reflexivity|]. split.
  { apply Forall_app. split.
    - eapply Forall_impl; [|exact Hf]. cbv beta. intros k Hk. lia.
    - constructor; [lia | constructor]. }
  split; [intros j Hj; now apply table_get_earlier|].
  eexists. split; [now apply table_get_last|]. repeat split.
Qed.

Lemma new_fresh : fresh_index new.
Proof. constructor. Qed.

Lemma add_files_from paths ml :
  fresh_index ml ->
  let n := List.length paths in
  let ml' := snd (add_files paths ml) in
  fst (add_files paths ml)
  = map (fun i => index ml + Z.of_nat i) (seq 0 n)
  /\ index ml' = index ml + Z.of_nat n
  /\ ids_of ml' = (ids_of ml ++ fst (add_files paths ml))%list
  /\ paths_of ml' = (paths_of ml ++ map PStr paths)%list
  /\ fresh_index ml'.
Proof.
  revert ml. induction paths as [|path paths IH]; intros ml Hf n ml'.
  - cbn. rewrite Z.add_0_r, !app_nil_r. repeat split. exact Hf.
  - destruct (add_file_appends path ml Hf) as (Hid & Hix & Hids & Hps & Hf1 & _).
    subst n ml'. cbn [add_files List.length].
    destruct (add_file path ml) as [file_id ml1]. cbn [fst snd] in *.
    specialize (IH ml1 Hf1). cbv zeta in IH.
    destruct (add_files paths ml1) as [ids ml2]. cbn [fst snd] in *.
    destruct IH as (IH1 & IH2 & IH3 & IH4 & IH5).
    split; [|split; [|split; [|split]]].
    + cbn [seq map]. rewrite Hid, IH1, Hix, Z.add_0_r. f_equal.
      rewrite <- seq_shift, map_map. apply map_ext. intros i. lia.
    + rewrite IH2, Hix. lia.
    + rewrite IH3, Hids, Hid, <- app_assoc. reflexivity.
    + rewrite IH4, Hps, <- app_assoc. reflexivity.
    + exact IH5.
Qed.

(** X15. File ids are given once and in order. Adding [n] paths to a new
    library gives the ids 0 to [n - 1] in the order of the calls, the same
    path twice getting two ids; the library then holds exactly these ids
    with the paths in that order, and the next id is [n]. For each file
    added, whatever the library held, the entry stored under its id has
    that id and path, a play count and a rating of 0 and no last-played
    date, and the entries stored before keep what they had. *)
Theorem file_ids_are_given_in_order (paths : list string) :
  let n := List.length paths in
  let ml := snd (add_files paths new) in
  fst (add_files paths new) = map Z.of_nat (seq 0 n)
  /\ ids_of ml = map Z.of_nat (seq 0 n)
  /\ paths_of ml = map PStr paths
  /\ index ml = Z.of_nat n
  /\ forall path,
       let ml' := snd (add_file path ml) in
       fst (add_file path ml) = Z.of_nat n
       /\ (forall j, j <> Z.of_nat n ->
             table_get (library ml') j = table_get (library ml) j)
       /\ exists entry,
            table_get (library ml') (Z.of_nat n) = Some entry
            /\ dict_get entry "id" PNone = PInt (Z.of_nat n)
            /\ dict_get entry "path" PNone = PStr path
            /\ dict_get entry "play_count" PNone = PInt 0
            /\ dict_get entry "rating" PNone = PInt 0
            /\ dict_get entry "last_played" (PInt 1) = PNone.
Proof.
  intros n ml.
  destruct (add_files_from paths new new_fresh) as (H1 & H2 & H3 & H4 & H5).
  fold n ml in H1, H2, H3, H4, H5. cbn [index new] in H1, H2.
  change (ids_of new) with (@nil Z) in H3.
  change (paths_of new) with (@nil pyobj) in H4. cbn [app] in H3, H4.
  assert (E : map (fun i => 0 + Z.of_nat i) (seq 0 n) = map Z.of_nat (seq 0 n))
    by (apply map_ext; intros i; lia).
  rewrite E in H1. rewrite Z.add_0_l in H2.
  split; [exact H1|]. split; [now rewrite H3|]. split; [exact H4|].
  split; [exact H2|].
  intros path ml'.
  destruct (add_file_appends path ml H5) as (Hid & _ & _ & _ & _ & Hold & Hnew).
  fold ml' in Hold, Hnew. rewrite H2 in Hid, Hold, Hnew.
  split; [exact Hid|]. split; [exact Hold | exact Hnew].
Qed.

Lemma scan_files_adds root files ml :
  fresh_index ml ->
  let ml' := scan_files root files ml in
  paths_of ml'
  = (paths_of ml ++ map PStr (map (join root) (filter supported files)))%list
  /\ index ml'
     = index ml + Z.of_nat (List.length (filter supported files))
  /\ ids_of ml'
     = (ids_of ml
          ++ map (fun i => index ml + Z.of_nat i)
               (seq 0 (List.length (filter supported files))))%list
  /\ fresh_index ml'.
Proof.
  revert ml. induction files as [|file files IH]; intros ml Hf ml'.
  - cbn. rewrite Z.add_0_r, !app_nil_r. repeat split. exact Hf.
  - subst ml'. cbn [scan_files filter].
    destruct (supported file).
    + destruct (add_file_appends (join root file) ml Hf)
        as (_ & Hix & Hids & Hps & Hf1 & _).
      destruct (IH _ Hf1) as (IH1 & IH2 & IH3 & IH4).
      cbn [map List.length seq].
      split; [|split; [|split]].
      * rewrite IH1, Hps, <- app_assoc. reflexivity.
      * rewrite IH2, Hix. lia.
      * rewrite IH3, Hids, Hix, <- app_assoc. cbn [app]. rewrite Z.add_0_r.
        do 2 f_equal. rewrite <- seq_shift, map_map. apply map_ext.
        intros i. lia.
      * exact IH4.
    + apply IH. exact Hf.
Qed.

Lemma seq_from (start len : nat) :
  seq start len = map (Nat.add start) (seq 0 len).
Proof.
  revert start. induction len as [|len IH]; intros start; [reflexivity|].
  cbn [seq map]. rewrite Nat.add_0_r. f_equal.
  rewrite (IH (S start)), (IH 1%nat), map_map. apply map_ext. intros i. lia.
Qed.

(** The files a walk makes [scan_directory] add, as paths. *)
Definition found (walk : list (string * list string)) : list string :=
  flat_map (fun d => map (join (fst d)) (filter supported (snd d))) walk.

Lemma scan_directory_adds walk ml :
  fresh_index ml ->
  let ml' := scan_directory walk ml in
  paths_of ml' = (paths_of ml ++ map PStr (found walk))%list
  /\ index ml' = index ml + Z.of_nat (List.length (found walk))
  /\ ids_of ml'
     = (ids_of ml
          ++ map (fun i => index ml + Z.of_nat i)
               (seq 0 (List.length (found walk))))%list
  /\ fresh_index ml'.
Proof.
  revert ml. induction walk as [|[root files] walk IH]; intros ml Hf ml'.
  - cbn. rewrite Z.add_0_r, !app_nil_r. repeat split. exact Hf.
  - subst ml'. cbn [scan_directory found flat_map fst snd].
    destruct (scan_files_adds root files ml Hf) as (S1 & S2 & S3 & S4).
    destruct (IH _ S4) as (IH1 & IH2 & IH3 & IH4).
    fold (found walk). rewrite length_app, length_map.
    split; [|split; [|split]].
    + rewrite IH1, S1, map_app, <- app_assoc. reflexivity.
    + rewrite IH2, S2. lia.
    + rewrite IH3, S3, S2, <- app_assoc. f_equal.
      rewrite seq_app, map_app. f_equal. cbn [Nat.add].
      rewrite (seq_from (List.length (filter supported files))), map_map.
      apply map_ext. intros i. lia.
    + exact IH4.
Qed.

(** X16. A scan adds the supported files and only them. On a new library,
    [scan_directory] adds one entry for each file whose name, in lower
    case, ends with one of the thirteen supported extensions, in the order
    of the walk, under the path [join root file] and with the ids 0, 1,
    2, ...; a file with another extension adds nothing. *)
Theorem scan_adds_supported_files (walk : list (string * list string)) :
  let ml := scan_directory walk new in
  let n := List.length (found walk) in
  paths_of ml = map PStr (found walk)
  /\ ids_of ml = map Z.of_nat (seq 0 n)
  /\ index ml = Z.of_nat n
  /\ forall root file,
       supported file = false ->
       scan_directory (walk ++ [(root, [file])])%list new = ml.
Proof.
  intros ml n.
  destruct (scan_directory_adds walk new new_fresh) as (H1 & H2 & H3 & H4).
  fold ml n in H1, H2, H3, H4. cbn [index new] in H2, H3.
  change (paths_of new) with (@nil pyobj) in H1.
  change (ids_of new) with (@nil Z) in H3. cbn [app] in H1, H3.
  split; [exact H1|]. split.
  { rewrite H3. apply map_ext. intros i. lia. }
  split; [lia|].
  intros root file Hs.
  assert (Happ : forall w1 w2 m,
            scan_directory (w1 ++ w2)%list m
            = scan_directory w2 (scan_directory w1 m)).
  { induction w1 as [|[r fs] w1 IH]; intros w2 m; [reflexivity|].
    cbn [app scan_directory]. apply IH. }
  rewrite Happ. fold ml. cbn [scan_directory scan_files]. now rewrite Hs.
Qed.

End Files.

End Library.
